(** * Hikvision doorbell plugin: event ingestion and state reconciliation

    A shallow embedding of [plugins/hikvision-doorbell/src/doorbell-api.ts]
    (class [HikvisionDoorbellAPI]) and of the event handler of
    [HikvisionCameraDoorbell.listenEvents], with the properties of the
    specification stated over it.

    Conventions.
    - A JavaScript [Date] is its time value: [Some t] is [t] milliseconds
      since the epoch, [None] is the NaN of an "Invalid Date".
    - A function that may throw returns a [Completion]; [try ... catch] is
      [try_catch].
    - The results of I/O (HTTP responses, clock readings) are arguments of
      the functions that await them.
    - Side effects on the listener and on the call-status poller are
      returned as a list of [Effect]s, in program order. *)

From Stdlib Require Import ZArith QArith Lia Ascii String.
From stdpp Require Import gmap strings list fin_maps pretty.

Local Open Scope string_scope.
Local Open Scope list_scope.
Local Open Scope Z_scope.

(** ** JavaScript preliminaries *)

Module Js.

Inductive Error : Type :=
  | RequestError (msg : string)   (* rejected HTTP request *)
  | SyntaxError (msg : string)    (* JSON.parse, xml2js *)
  | TypeError (msg : string)      (* property access on null/undefined *)
  | RangeError (msg : string)     (* Date.prototype.toISOString *)
  | UserError (msg : string).     (* throw new Error (msg) *)

Inductive Completion (A : Type) : Type :=
  | Return (a : A)
  | Throw (e : Error).
Arguments Return {A} a.
Arguments Throw {A} e.

Definition bind {A B} (c : Completion A) (k : A -> Completion B) : Completion B :=
  match c with
  | Return a => k a
  | Throw e => Throw e
  end.

Definition try_catch {A} (body : Completion A) (handler : Error -> Completion A)
  : Completion A :=
  match body with
  | Return a => Return a
  | Throw e => handler e
  end.

(** A [Date] is identified with its time value. *)
Definition Date : Type := option Z.

(** [a <= b] and [a > b] on dates compare the time values as numbers;
    every comparison with NaN is false. *)
Definition date_le (a b : Date) : bool :=
  match a, b with
  | Some x, Some y => x <=? y
  | _, _ => false
  end.

Definition date_gt (a b : Date) : bool :=
  match a, b with
  | Some x, Some y => y <? x
  | _, _ => false
  end.

(** [d.toISOString()] throws a RangeError on an invalid date; its string
    value is only logged. *)
Definition toISOString (d : Date) : Completion unit :=
  match d with
  | Some _ => Return tt
  | None => Throw (RangeError "Invalid time value")
  end.

(** *** Characters and strings *)

Definition chars (s : string) : list ascii := String.list_ascii_of_string s.
Definition str (l : list ascii) : string := String.string_of_list_ascii l.

Definition isDigit (c : ascii) : bool :=
  let n := nat_of_ascii c in (48 <=? n)%nat && (n <=? 57)%nat.

Definition digitValue (c : ascii) : Z := Z.of_nat (nat_of_ascii c) - 48.

(** WhiteSpace and LineTerminator code points below 128. *)
Definition isSpace (c : ascii) : bool :=
  let n := nat_of_ascii c in
  (n =? 32)%nat || ((9 <=? n)%nat && (n <=? 13)%nat).

(** A string is falsy exactly when it is empty. *)
Definition truthy (s : string) : bool :=
  match s with
  | EmptyString => false
  | String _ _ => true
  end.

(** [s.padStart (2, '0')] *)
Definition padStart2 (l : list ascii) : list ascii :=
  match l with
  | [] => ["0"; "0"]%char
  | [c] => ["0"%char; c]
  | _ => l
  end.

(** [s.trim()] on the ASCII white space. *)
Fixpoint trimStart (l : list ascii) : list ascii :=
  match l with
  | c :: l' => if isSpace c then trimStart l' else l
  | [] => []
  end.
Definition trim (l : list ascii) : list ascii :=
  reverse (trimStart (reverse (trimStart l))).

(** [s.split (',')] *)
Fixpoint splitComma (cur : list ascii) (l : list ascii) : list (list ascii) :=
  match l with
  | [] => [reverse cur]
  | c :: l' =>
      if Ascii.eqb c ","%char then reverse cur :: splitComma [] l'
      else splitComma (c :: cur) l'
  end.

(** *** [parseInt (s)] with no radix: leading white space, an optional sign,
    an optional [0x] prefix, then the longest prefix of digits; NaN ([None])
    when there is no digit. *)
Definition hexValue (c : ascii) : option Z :=
  let n := nat_of_ascii c in
  if isDigit c then Some (digitValue c)
  else if (97 <=? n)%nat && (n <=? 102)%nat then Some (Z.of_nat n - 87)
  else if (65 <=? n)%nat && (n <=? 70)%nat then Some (Z.of_nat n - 55)
  else None.

Definition decValue (c : ascii) : option Z :=
  if isDigit c then Some (digitValue c) else None.

Fixpoint digitsPrefix (val : ascii -> option Z) (radix : Z) (acc : option Z)
    (l : list ascii) : option Z :=
  match l with
  | [] => acc
  | c :: l' =>
      match val c with
      | Some d => digitsPrefix val radix (Some (default 0 acc * radix + d)) l'
      | None => acc
      end
  end.

Definition parseIntMagnitude (l : list ascii) : option Z :=
  match l with
  | "0"%char :: x :: l' =>
      if Ascii.eqb x "x"%char || Ascii.eqb x "X"%char
      then digitsPrefix hexValue 16 None l'
      else digitsPrefix decValue 10 None l
  | _ => digitsPrefix decValue 10 None l
  end.

Definition parseInt (s : string) : option Z :=
  match trimStart (chars s) with
  | "-"%char :: l => Z.opp <$> parseIntMagnitude l
  | "+"%char :: l => parseIntMagnitude l
  | l => parseIntMagnitude l
  end.

(** [parseInt (x) || 1]: NaN and 0 are falsy. *)
Definition orOne (n : option Z) : Z :=
  match n with
  | Some 0 | None => 1
  | Some z => z
  end.

End Js.

Import Js.

Notation "'let*' x ':=' c 'in' k" := (Js.bind c (fun x => k))
  (at level 10, x name, c at level 100, k at level 200).

(** ** Event kinds and the code table *)

Inductive HikvisionDoorbellEvent : Type :=
  | Motion
  | CaseTamperAlert
  | TalkInvite
  | TalkHangup
  | Unlock
  | Lock
  | DoorOpened
  | DoorClosed
  | DoorAbnormalOpened
  | AccessDenied.

#[global] Instance HikvisionDoorbellEvent_eq_dec : EqDecision HikvisionDoorbellEvent.
Proof. solve_decision. Defined.

Definition maxEventAgeSeconds : Z := 30.

Definition EventCodeMap : gmap string HikvisionDoorbellEvent :=
  list_to_map
    [ ("5,25", DoorOpened);
      ("5,26", DoorClosed);
      ("5,92", DoorAbnormalOpened);
      ("1,3", Motion);
      ("1,2", CaseTamperAlert);
      ("5,214", Unlock);
      ("5,9", AccessDenied);
      ("5,22", Lock) ].

(** What the API object does to the outside, in program order:
    [this.emitEvent ('event', event, channel, inactive)] and
    [this.startCallStatusPolling ()]. *)
Inductive Effect : Type :=
  | Emit (event : HikvisionDoorbellEvent) (channel : string) (inactive : bool)
  | StartCallStatusPolling.

(** ** Timezone resolver *)

Definition isSign (c : ascii) : bool :=
  Ascii.eqb c "+"%char || Ascii.eqb c "-"%char.

(** [:(\d{2}):(\d{2})] at the head of [l]; yields the minutes group. *)
Definition matchMinSec (l : list ascii) : option (list ascii) :=
  match l with
  | c1 :: m1 :: m2 :: c2 :: s1 :: s2 :: _ =>
      if Ascii.eqb c1 ":"%char && isDigit m1 && isDigit m2
         && Ascii.eqb c2 ":"%char && isDigit s1 && isDigit s2
      then Some [m1; m2] else None
  | _ => None
  end.

(** [CST([+-])(\d{1,2}):(\d{2}):(\d{2})] at the head of [l]. The quantifier
    [{1,2}] is greedy: two digits are tried first, then one. *)
Definition matchCSTHere (l : list ascii)
  : option (ascii * list ascii * list ascii) :=
  match l with
  | c :: s :: t :: sign :: rest =>
      if Ascii.eqb c "C"%char && Ascii.eqb s "S"%char && Ascii.eqb t "T"%char
         && isSign sign
      then
        let two :=
          match rest with
          | h1 :: h2 :: r =>
              if isDigit h1 && isDigit h2
              then (fun mm => (sign, [h1; h2], mm)) <$> matchMinSec r
              else None
          | _ => None
          end in
        match two with
        | Some g => Some g
        | None =>
            match rest with
            | h1 :: r =>
                if isDigit h1
                then (fun mm => (sign, [h1], mm)) <$> matchMinSec r
                else None
            | [] => None
            end
        end
      else None
  | _ => None
  end.

(** [timezoneStr.match (/CST.../)]: the leftmost match. *)
Fixpoint matchCST (l : list ascii) : option (ascii * list ascii * list ascii) :=
  match matchCSTHere l with
  | Some g => Some g
  | None =>
      match l with
      | [] => None
      | _ :: l' => matchCST l'
      end
  end.

(** The [try] block of [getDeviceTimezone], from [timezoneStr] on.
    [timezoneStr] is [parsedXml.Time?.timeZone?.[0]]: [None] when absent. *)
Definition parseDeviceTimezone (timezoneStr : option string) : Completion string :=
  match timezoneStr with
  | None => Throw (UserError "No timezone found in response")
  | Some tz =>
      if negb (truthy tz) then Throw (UserError "No timezone found in response")
      else
        match matchCST (chars tz) with
        | None => Throw (UserError ("Invalid timezone format: " +:+ tz))
        | Some (sign, hours, minutes) =>
            let invertedSign := if Ascii.eqb sign "-"%char then "+"%char else "-"%char in
            Return (str (invertedSign :: padStart2 hours ++ ":"%char :: minutes))
        end
  end.

(** The [catch] block: the host's offset, from
    [new Date ().getTimezoneOffset ()] (minutes, positive west of UTC).
    [Math.floor (x / 60)] is [Z.div], [%] is [Z.rem]. *)
Definition systemTimezone (systemOffset : Z) : string :=
  let offsetHours := Z.abs (systemOffset / 60) in
  let offsetMinutes := Z.abs (Z.rem systemOffset 60) in
  let sign := if systemOffset <=? 0 then "+" else "-" in
  sign +:+ str (padStart2 (chars (pretty offsetHours))) +:+ ":"
       +:+ str (padStart2 (chars (pretty offsetMinutes))).

(** [getDeviceTimezone]: [response] is the outcome of the request and of
    the XML parse; the result is also stored in [this.deviceTimezone]. *)
Definition getDeviceTimezone (response : Completion (option string))
    (systemOffset : Z) : string :=
  match (let* tz := response in parseDeviceTimezone tz) with
  | Return gmtOffset => gmtOffset
  | Throw _ => systemTimezone systemOffset
  end.

(** ** Event normalizer and ACS event poller *)

(** [(now.getTime() - eventTime.getTime()) / 1000]. The time values
    are integers below 2^53 in magnitude and the quotient is compared with
    30 only, so the exact rational decides the comparison as the rounded
    double does. *)
Definition ageInSeconds (now eventTime : Z) : Q :=
  (inject_Z (now - eventTime) / inject_Z 1000)%Q.

(** [ageInSeconds > maxEventAgeSeconds]; false for the NaN of an invalid
    date. *)
Definition tooOld (now : Z) (eventTime : Date) : bool :=
  match eventTime with
  | Some t => negb (Qle_bool (ageInSeconds now t) (inject_Z maxEventAgeSeconds))
  | None => false
  end.

(** A number in a template literal; [undefined] for a missing property. *)
Definition numberToString (n : option Z) : string :=
  match n with
  | Some z => pretty z
  | None => "undefined"
  end.

Record AcsEventInfo : Type := {
  major : Z;
  minor : Z;
  time : string;
}.

Record AccessControllerEventData : Type := {
  majorEventType : option Z;
  subEventType : option Z;
}.

(** The properties of [eventData] that [processAlertStreamEvent] reads;
    [None] is a missing property. *)
Record AlertStreamEvent : Type := {
  channelID : option Z;
  eventType : option string;
  eventState : option string;
  dateTime : option string;
  AccessControllerEvent : option AccessControllerEventData;
}.

Section Ingestion.

(** [new Date (s)]: the host's parser of date strings. *)
Variable DateParse : string -> Date.

Definition convertDeviceTimeToUTC (deviceTimezone : option string)
    (localTimeStr : string) : Date :=
  match deviceTimezone with
  | Some tz =>
      if negb (truthy tz) then DateParse localTimeStr
      else
        let date := DateParse (localTimeStr +:+ tz) in
        match toISOString date with       (* in the debug message *)
        | Return _ => date
        | Throw _ => DateParse localTimeStr
        end
  | None => DateParse localTimeStr
  end.

Definition processAlertStreamEvent (now : Z) (eventData : AlertStreamEvent)
  : list Effect :=
  let cameraNumber :=
    match channelID eventData with
    | Some n => pretty n
    | None => "1"
    end in
  let eventType := default "" (eventType eventData) in
  let eventState := default "" (eventState eventData) in
  let inactive := String.eqb eventState "inactive" in
  let old :=
    match dateTime eventData with
    | Some dt => truthy dt && tooOld now (DateParse dt)
    | None => false
    end in
  if old then []
  else if String.eqb eventType "videoloss" then []
  else
    match AccessControllerEvent eventData with
    | Some ace =>
        if String.eqb eventType "AccessControllerEvent" then
          let eventKey := numberToString (majorEventType ace) +:+ ","
                            +:+ numberToString (subEventType ace) in
          match EventCodeMap !! eventKey with
          | Some doorbellEvent =>
              Emit doorbellEvent cameraNumber inactive
                :: (if bool_decide (doorbellEvent = Motion) && negb inactive
                    then [StartCallStatusPolling] else [])
          | None => []
          end
        else []
    | None => []
    end.

Definition processAcsEvent (deviceTimezone : option string) (now : Z)
    (eventInfo : AcsEventInfo) : list Effect :=
  let eventKey := pretty (major eventInfo) +:+ "," +:+ pretty (minor eventInfo) in
  let doorbellEvent := EventCodeMap !! eventKey in
  if truthy (time eventInfo)
     && tooOld now (convertDeviceTimeToUTC deviceTimezone (time eventInfo))
  then []
  else
    match doorbellEvent with
    | Some ev =>
        let inactive := false in
        let cameraNumber := "1" in
        Emit ev cameraNumber inactive
          :: (if bool_decide (ev = Motion) then [StartCallStatusPolling] else [])
    | None => []
    end.

(** The state of the loop of [pollAndProcessAcsEvents]: [forwarded] records
    the entries handed to [processAcsEvent], [emitted] what those calls
    did. *)
Record PollLoop : Type := {
  forwarded : list AcsEventInfo;
  emitted : list Effect;
  latestEventTime : option Date;
}.

Definition pollLoopBody (deviceTimezone : option string)
    (lastEventTime : option Date) (now : Z) (st : PollLoop)
    (eventInfo : AcsEventInfo) : PollLoop :=
  let eventTime := DateParse (time eventInfo) in
  let skip :=
    match lastEventTime with
    | Some w => date_le eventTime w
    | None => false
    end in
  if skip then st
  else
    {| forwarded := forwarded st ++ [eventInfo];
       emitted := emitted st ++ processAcsEvent deviceTimezone now eventInfo;
       latestEventTime :=
         match latestEventTime st with
         | None => Some eventTime
         | Some latest =>
             if date_gt eventTime latest then Some eventTime else Some latest
         end |}.

(** [clock i] is the reading of [new Date ()] while entry [i] is processed. *)
Fixpoint pollLoop (deviceTimezone : option string) (lastEventTime : option Date)
    (clock : nat -> Z) (i : nat) (InfoList : list AcsEventInfo) (st : PollLoop)
  : PollLoop :=
  match InfoList with
  | [] => st
  | eventInfo :: rest =>
      pollLoop deviceTimezone lastEventTime clock (S i) rest
        (pollLoopBody deviceTimezone lastEventTime (clock i) st eventInfo)
  end.

Record PollResult : Type := {
  lastAcsEventTime' : Date;       (* [this.lastAcsEventTime] afterwards *)
  pollForwarded : list AcsEventInfo;
  pollEmitted : list Effect;
  pollCompletion : Completion unit;
}.

(** [pollAndProcessAcsEvents (lastEventTime)] with [this.lastAcsEventTime]
    equal to [stored] at entry. [response] is the outcome of [getAcsEvents]:
    [Return None] when [AcsEvent] or its [InfoList] is missing. *)
Definition pollAndProcessAcsEvents (deviceTimezone : option string)
    (stored : Date) (lastEventTime : option Date) (clock : nat -> Z)
    (response : Completion (option (list AcsEventInfo))) : PollResult :=
  match response with
  | Throw e =>
      {| lastAcsEventTime' := stored; pollForwarded := []; pollEmitted := [];
         pollCompletion := Throw e |}
  | Return infoList =>
      let st :=
        pollLoop deviceTimezone lastEventTime clock 0 (default [] infoList)
          {| forwarded := []; emitted := []; latestEventTime := None |} in
      match latestEventTime st with
      | Some latest =>
          {| lastAcsEventTime' := latest;
             pollForwarded := forwarded st; pollEmitted := emitted st;
             pollCompletion := toISOString latest |}
      | None =>
          {| lastAcsEventTime' := stored;
             pollForwarded := forwarded st; pollEmitted := emitted st;
             pollCompletion := Return tt |}
      end
  end.

(** One tick of the interval of [startAcsEventPolling], taken on its own:
    the poll is given [this.lastAcsEventTime], no other poll writes the
    field before this one has settled, its rejection is logged. *)
Definition acsPollingTick (deviceTimezone : option string) (stored : Date)
    (clock : nat -> Z) (response : Completion (option (list AcsEventInfo)))
  : PollResult :=
  pollAndProcessAcsEvents deviceTimezone stored (Some stored) clock response.

(** A poll of that interval from the arrival of its response on. The
    interval starts a poll every 1.3 seconds whether or not the one before
    has settled, so polls overlap when the device is slow: [captured] is
    [this.lastAcsEventTime] as it was when this poll was started, the
    argument it was given, and [stored] is the field when the response
    arrives, which a poll that settled in between may have written. *)
Definition acsPollResumes (deviceTimezone : option string) (captured stored : Date)
    (clock : nat -> Z) (response : Completion (option (list AcsEventInfo)))
  : PollResult :=
  pollAndProcessAcsEvents deviceTimezone stored (Some captured) clock response.

(** The time of a raw event as the specification has it: the time string
    of the record resolved through the timezone resolver, which in the code
    is [convertDeviceTimeToUTC]; [None] when the record carries no time or
    an unreadable one. [processAcsEvent] computes it for a log entry;
    [processAlertStreamEvent] does not compute it, it reads the time
    string with [new Date] alone. *)
Definition streamOccurredAt (deviceTimezone : option string)
    (eventData : AlertStreamEvent) : Date :=
  match dateTime eventData with
  | Some dt => if truthy dt then convertDeviceTimeToUTC deviceTimezone dt else None
  | None => None
  end.

Definition acsOccurredAt (deviceTimezone : option string)
    (eventInfo : AcsEventInfo) : Date :=
  if truthy (time eventInfo)
  then convertDeviceTimeToUTC deviceTimezone (time eventInfo)
  else None.

(** The time the poller compares with the watermark:
    [new Date (eventInfo.time)], the time string read as it stands. *)
Definition rawTime (eventInfo : AcsEventInfo) : Date := DateParse (time eventInfo).

Definition newerThan (w : Date) (eventInfo : AcsEventInfo) : bool :=
  negb (date_le (rawTime eventInfo) w).

(** [latest] is the greatest raw time among the entries [fw]. *)
Definition isLatestOf (latest : option Date) (fw : list AcsEventInfo) : Prop :=
  match latest with
  | None => fw = []
  | Some d =>
      exists m, d = Some m
        /\ (exists e, e ∈ fw /\ rawTime e = Some m)
        /\ (forall e t, e ∈ fw -> rawTime e = Some t -> t <= m)
  end.

End Ingestion.

(** *** A date parser for the examples

    The ISO 8601 subset [YYYY-MM-DDTHH:mm:ss] with an optional [Z] or
    [+HH:mm] / [-HH:mm] suffix, as [new Date (s)] reads it on a host whose
    [getTimezoneOffset ()] is [hostOffset] minutes: a string with no suffix
    is local time. Everything else is an invalid date here. *)
Module IsoDate.

Definition num2 (a b : ascii) : option Z :=
  if isDigit a && isDigit b then Some (digitValue a * 10 + digitValue b) else None.

Definition num4 (a b c d : ascii) : option Z :=
  hi ← num2 a b; lo ← num2 c d; Some (hi * 100 + lo).

(** Days from 1970-01-01 to the civil date [y]-[m]-[d]. *)
Definition daysFromCivil (y m d : Z) : Z :=
  let y' := if m <=? 2 then y - 1 else y in
  let era := y' / 400 in
  let yoe := y' - era * 400 in
  let doy := (153 * (m + (if 2 <? m then -3 else 9)) + 2) / 5 + d - 1 in
  let doe := yoe * 365 + yoe / 4 - yoe / 100 + doy in
  era * 146097 + doe - 719468.

(** The suffix, as minutes to add to the local time to reach UTC. *)
Definition suffixMinutes (hostOffset : Z) (l : list ascii) : option Z :=
  match l with
  | [] => Some hostOffset
  | ["Z"%char] => Some 0
  | [sg; h1; h2; ":"%char; m1; m2] =>
      hh ← num2 h1 h2; mm ← num2 m1 m2;
      if (hh <=? 23) && (mm <=? 59) then
        if Ascii.eqb sg "+"%char then Some (- (hh * 60 + mm))
        else if Ascii.eqb sg "-"%char then Some (hh * 60 + mm)
        else None
      else None
  | _ => None
  end.

Definition parse (hostOffset : Z) (s : string) : Date :=
  match chars s with
  | y1 :: y2 :: y3 :: y4 :: "-"%char :: mo1 :: mo2 :: "-"%char :: d1 :: d2
      :: "T"%char :: h1 :: h2 :: ":"%char :: mi1 :: mi2 :: ":"%char
      :: s1 :: s2 :: suffix =>
      y ← num4 y1 y2 y3 y4; mo ← num2 mo1 mo2; d ← num2 d1 d2;
      h ← num2 h1 h2; mi ← num2 mi1 mi2; sec ← num2 s1 s2;
      off ← suffixMinutes hostOffset suffix;
      if (1 <=? mo) && (mo <=? 12) && (1 <=? d) && (d <=? 31)
         && (h <=? 23) && (mi <=? 59) && (sec <=? 59)
      then Some ((((daysFromCivil y mo d * 24 + h) * 60 + mi + off) * 60 + sec) * 1000)
      else None
  | _ => None
  end.

End IsoDate.

(** ** Call status poller *)

(** The body of the call-status response after [JSON.parse]: [null], on
    which a property access throws, or a value whose
    [CallStatus?.status] is [status] ([None] when either is missing). *)
Inductive CallData : Type :=
  | CallDataNull
  | CallDataValue (status : option string).

Record CallStatus : Type := {
  isRinging : bool;
  callState : string;
}.

(** [getCallStatus]: [response] is the outcome of the request and of
    [JSON.parse]. *)
Definition getCallStatus (response : Completion CallData) : Completion CallStatus :=
  try_catch
    (let* callData := response in
     let* status :=
       match callData with
       | CallDataNull => Throw (TypeError "Cannot read properties of null")
       | CallDataValue status => Return status
       end in
     let callState :=
       match status with
       | Some s => if truthy s then s else "idle"
       | None => "idle"
       end in
     Return {| isRinging := String.eqb callState "ringing"; callState := callState |})
    (fun _ => Return {| isRinging := false; callState := "idle" |}).

(** The callback of the interval of [startCallStatusPolling], run when the
    response has arrived; yields the effects and [this.lastCallState]. *)
Definition callStatusTick (lastCallState : string) (response : Completion CallData)
  : list Effect * string :=
  match getCallStatus response with
  | Return status =>
      let callState := callState status in
      if negb (String.eqb callState lastCallState) then
        (if String.eqb callState "ringing" && String.eqb lastCallState "idle"
         then [Emit TalkInvite "1" false]
         else if String.eqb lastCallState "ringing" && String.eqb callState "idle"
         then [Emit TalkHangup "1" false]
         else [],
         callState)
      else ([], lastCallState)
  | Throw _ => ([], lastCallState)        (* logged *)
  end.

(** Successive ticks. *)
Fixpoint callStatusPolling (lastCallState : string)
    (responses : list (Completion CallData)) : list Effect * string :=
  match responses with
  | [] => ([], lastCallState)
  | response :: rest =>
      let '(effects, lastCallState') := callStatusTick lastCallState response in
      let '(effects', final) := callStatusPolling lastCallState' rest in
      (effects ++ effects', final)
  end.

(** ** Capability store *)

(** An element as xml2js delivers it: its text when it has no attribute,
    an object with the attributes under [$] otherwise. *)
Inductive XmlElement : Type :=
  | XmlText (text : string)
  | XmlAttributes (attributes : gmap string string).

(** [parsedXml.RemoteControlDoor?.doorNo?.[0]] and [...?.cmd?.[0]];
    [None] is [undefined]. *)
Record DoorCapabilitiesXml : Type := {
  doorNoElement : option XmlElement;
  cmdElement : option XmlElement;
}.

(** The capability fields of [HikvisionDoorbellAPI]; a promise is known by
    its handle. *)
Record Capabilities : Type := {
  doorMinNo : Z;
  doorMaxNo : Z;
  availableCommands : list string;
  capabilitiesLoaded : bool;
  loadCapabilitiesPromise : option nat;
}.

Definition initialCapabilities : Capabilities :=
  {| doorMinNo := 1; doorMaxNo := 1;
     availableCommands := ["open"; "close"; "alwaysOpen"; "alwaysClose"];
     capabilitiesLoaded := false;
     loadCapabilitiesPromise := None |}.

Definition setDoorRange (api : Capabilities) (lo hi : Z) : Capabilities :=
  {| doorMinNo := lo; doorMaxNo := hi;
     availableCommands := availableCommands api;
     capabilitiesLoaded := capabilitiesLoaded api;
     loadCapabilitiesPromise := loadCapabilitiesPromise api |}.

Definition setAvailableCommands (api : Capabilities) (cmds : list string)
  : Capabilities :=
  {| doorMinNo := doorMinNo api; doorMaxNo := doorMaxNo api;
     availableCommands := cmds;
     capabilitiesLoaded := capabilitiesLoaded api;
     loadCapabilitiesPromise := loadCapabilitiesPromise api |}.

Definition setCapabilitiesLoaded (api : Capabilities) (b : bool) : Capabilities :=
  {| doorMinNo := doorMinNo api; doorMaxNo := doorMaxNo api;
     availableCommands := availableCommands api;
     capabilitiesLoaded := b;
     loadCapabilitiesPromise := loadCapabilitiesPromise api |}.

Definition setLoadCapabilitiesPromise (api : Capabilities) (p : option nat)
  : Capabilities :=
  {| doorMinNo := doorMinNo api; doorMaxNo := doorMaxNo api;
     availableCommands := availableCommands api;
     capabilitiesLoaded := capabilitiesLoaded api;
     loadCapabilitiesPromise := p |}.

(** [parseInt (x)] of an attribute that may be missing. *)
Definition parseIntAttribute (a : option string) : option Z :=
  match a with
  | Some v => parseInt v
  | None => None
  end.

(** [performCapabilitiesLoad] from the arrival of the response on.
    [response] is the outcome of the request and of the XML parse. A throw
    leaves the fields assigned before it in place. *)
Definition performCapabilitiesLoad (api : Capabilities)
    (response : Completion DoorCapabilitiesXml) : Capabilities * Completion unit :=
  match response with
  | Throw e => (api, Throw e)
  | Return parsedXml =>
      let api1 :=
        match doorNoElement parsedXml with
        | Some (XmlAttributes a) =>
            setDoorRange api (orOne (parseIntAttribute (a !! "min")))
                             (orOne (parseIntAttribute (a !! "max")))
        | _ => api
        end in
      let opt : Completion (option string) :=
        match cmdElement parsedXml with
        | None => Return None
        | Some (XmlText t) =>
            if truthy t
            then Throw (TypeError "Cannot read properties of undefined (reading 'opt')")
            else Return None
        | Some (XmlAttributes a) =>
            match a !! "opt" with
            | Some o => if truthy o then Return (Some o) else Return None
            | None => Return None
            end
        end in
      match opt with
      | Throw e => (api1, Throw e)
      | Return o =>
          let api2 :=
            match o with
            | Some o => setAvailableCommands api1
                          ((fun c => str (trim c)) <$> splitComma [] (chars o))
            | None => api1
            end in
          (setCapabilitiesLoaded api2 true, Return tt)
      end
  end.

(** *** Promises of the capability load

    JavaScript runs one task at a time; tasks interleave at [await]. The
    world below holds the capability fields, the state of every promise
    created by [performCapabilitiesLoad], the number of capability requests
    sent, the log of the calls of [loadDoorCapabilities] with what each
    caller was handed, and the promises whose creator is suspended at the
    [await] before its [finally]. *)
Inductive PromiseState : Type :=
  | Pending
  | Fulfilled
  | Rejected (e : Error).

Inductive Handed : Type :=
  | Done                (* [return] at once: capabilities already loaded *)
  | Follows (p : nat).  (* settles as promise [p] does *)

Record World : Type := {
  api : Capabilities;
  promises : list PromiseState;
  requestsSent : nat;
  calls : list (nat * Handed);
  suspended : list nat;
}.

Definition initialWorld : World :=
  {| api := initialCapabilities; promises := []; requestsSent := 0;
     calls := []; suspended := [] |}.

Inductive Step : Type :=
  | Call (caller : nat)          (* [loadDoorCapabilities ()] up to its return or await *)
  | Respond (p : nat) (response : Completion DoorCapabilitiesXml)
                                 (* the response for promise [p] arrives *)
  | Resume (p : nat).            (* the creator of [p] runs its [finally] *)

Definition isSettled (s : PromiseState) : bool :=
  match s with
  | Pending => false
  | _ => true
  end.

Definition loadDoorCapabilities (w : World) (caller : nat) : World :=
  if capabilitiesLoaded (api w) then
    {| api := api w; promises := promises w; requestsSent := requestsSent w;
       calls := calls w ++ [(caller, Done)]; suspended := suspended w |}
  else
    match loadCapabilitiesPromise (api w) with
    | Some p =>
        {| api := api w; promises := promises w; requestsSent := requestsSent w;
           calls := calls w ++ [(caller, Follows p)]; suspended := suspended w |}
    | None =>
        let p := length (promises w) in
        {| api := setLoadCapabilitiesPromise (api w) (Some p);
           promises := promises w ++ [Pending];
           requestsSent := S (requestsSent w);
           calls := calls w ++ [(caller, Follows p)];
           suspended := p :: suspended w |}
    end.

Definition step (w : World) (s : Step) : option World :=
  match s with
  | Call caller => Some (loadDoorCapabilities w caller)
  | Respond p response =>
      match promises w !! p with
      | Some Pending =>
          let '(api', completion) := performCapabilitiesLoad (api w) response in
          let settled :=
            match completion with
            | Return _ => Fulfilled
            | Throw e => Rejected e
            end in
          Some {| api := api'; promises := <[p := settled]> (promises w);
                  requestsSent := requestsSent w; calls := calls w;
                  suspended := suspended w |}
      | _ => None
      end
  | Resume p =>
      match promises w !! p with
      | Some st =>
          if isSettled st && bool_decide (p ∈ suspended w) then
            Some {| api := setLoadCapabilitiesPromise (api w) None;
                    promises := promises w; requestsSent := requestsSent w;
                    calls := calls w;
                    suspended := List.filter (fun q => negb (Nat.eqb q p)) (suspended w) |}
          else None
      | None => None
      end
  end.

Fixpoint run (w : World) (steps : list Step) : option World :=
  match steps with
  | [] => Some w
  | s :: rest =>
      match step w s with
      | Some w' => run w' rest
      | None => None
      end
  end.

(** What a caller observes: [None] while its promise is pending. *)
Definition observed (w : World) (h : Handed) : option (Completion unit) :=
  match h with
  | Done => Some (Return tt)
  | Follows p =>
      match promises w !! p with
      | Some Fulfilled => Some (Return tt)
      | Some (Rejected e) => Some (Throw e)
      | _ => None
      end
  end.

(** ** Fallback to the cache *)

(** The injected [Storage]: [getItem] is the lookup ([None] is [null]),
    [setItem] the insertion. *)
Section Fallback.

(** [Number (parsedXml.DoorParam?.openDuration?.[0])] after
    [xml2js.parseStringPromise (xml)]: the duration in seconds, [None] for
    NaN, or the throw of the parser or of a property access. *)
Variable parseDoorParam : string -> Completion (option Z).

Definition doorOutOfRange (api : Capabilities) (doorNo : string) : bool :=
  match parseInt doorNo with
  | Some doorNum => (doorNum <? doorMinNo api) || (doorMaxNo api <? doorNum)
  | None => false            (* comparisons with NaN are false *)
  end.

(** [if (!this.capabilitiesLoaded) await this.loadDoorCapabilities ()]:
    the fields once the awaited load has settled, and its outcome.
    [loadResponse] is the response that settles that load. *)
Definition ensureCapabilities (api : Capabilities)
    (loadResponse : Completion DoorCapabilitiesXml) : Capabilities * Completion unit :=
  if capabilitiesLoaded api then (api, Return tt)
  else performCapabilitiesLoad api loadResponse.

(** [getDoorOpenDuration (doorNo)]; [response] is the outcome of the
    request for the door parameters. *)
Definition getDoorOpenDuration (api : Capabilities)
    (loadResponse : Completion DoorCapabilitiesXml)
    (storage : gmap string string) (doorNo : string)
    (response : Completion string)
  : Capabilities * gmap string string * Completion (option Z) :=
  let '(api1, loaded) := ensureCapabilities api loadResponse in
  match loaded with
  | Throw e => (api1, storage, Throw e)
  | Return _ =>
      if doorOutOfRange api1 doorNo then
        (api1, storage,
         Throw (UserError ("Door number " +:+ doorNo
                           +:+ " is out of range. Valid range: "
                           +:+ pretty (doorMinNo api1) +:+ "-"
                           +:+ pretty (doorMaxNo api1))))
      else
        let storageKey := "doorOpenDuration_" +:+ doorNo in
        match response with
        | Return xml => (api1, <[storageKey := xml]> storage, parseDoorParam xml)
        | Throw e =>
            match storage !! storageKey with
            | Some xml =>
                if truthy xml then (api1, storage, parseDoorParam xml)
                else (api1, storage, Throw e)
            | None => (api1, storage, Throw e)
            end
        end
  end.

(** [MediaStreamOptions] and its JSON form. *)
Variable MediaStreamOptions : Type.
Variable id : MediaStreamOptions -> string.
Variable stringify : list MediaStreamOptions -> string.
Variable parseChannels : string -> Completion (list MediaStreamOptions).

Definition channelMap (channels : list MediaStreamOptions)
  : gmap string MediaStreamOptions :=
  foldl (fun ret streamingChannel => <[id streamingChannel := streamingChannel]> ret)
        ∅ channels.

(** [getVideoChannels (camNumber)]; [codecs] is the outcome of
    [this.getCodecs (camNumber)]. *)
Definition getVideoChannels (storage : gmap string string)
    (codecs : Completion (list MediaStreamOptions))
  : gmap string string * Completion (gmap string MediaStreamOptions) :=
  match codecs with
  | Return channels =>
      (<["channelsJSON" := stringify channels]> storage, Return (channelMap channels))
  | Throw e =>
      match storage !! "channelsJSON" with
      | Some raw =>
          if truthy raw
          then (storage, let* channels := parseChannels raw in Return (channelMap channels))
          else (storage, Throw e)
      | None => (storage, Throw e)
      end
  end.

End Fallback.

(** A reader of door parameters for the examples: a fixed duration for any
    document, the TypeError of [parsedXml.DoorParam] on the [null] that the
    parser yields for the empty string. *)
Definition sampleDoorParam (seconds : Z) (xml : string) : Completion (option Z) :=
  if truthy xml then Return (Some seconds)
  else Throw (TypeError "Cannot read properties of null (reading 'DoorParam')").

Definition loadedCapabilities : Capabilities :=
  setCapabilitiesLoaded initialCapabilities true.

(** ** Entity reconciler

    The handler that [HikvisionCameraDoorbell.listenEvents] attaches to
    the ['event'] emissions, with the timers it sets. The handler is
    [async]: it runs up to [await getDoorOpenDuration (doorNo)] when the
    event is delivered, and its remainder runs when the duration has
    arrived. *)

Inductive LockState : Type := Locked | Unlocked.

(** [entryOpen] of an entry sensor: [false], [true] or ['jammed']. *)
Inductive EntryOpen : Type := EntryClosed | EntryOpened | EntryJammed.

(** The two properties of a [HikvisionEntrySensor] that matter here:
    [entryOpen], the state of the EntrySensor interface, initialized to
    [false] by the constructor, and [binaryState]. *)
Record EntrySensor : Type := {
  entryOpen : EntryOpen;
  sensorBinaryState : option bool;
}.

Inductive TimerAction : Type :=
  | Relock (lockNativeId : string)      (* [lock.lockState = LockState.Locked] *)
  | StopRinging                         (* [this.stopRinging ()] *)
  | MotionReset                         (* motion off, pings to 0 *)
  | ControlEvent (event : HikvisionDoorbellEvent).   (* [controlEvents.emit] *)

(** A pending timer: the delay passed to [setTimeout] in milliseconds
    ([None] is NaN) and its callback. *)
Record Timer : Type := {
  delay : option Z;
  action : TimerAction;
}.

Record Doorbell : Type := {
  nativeId : string;
  locks : gmap string LockState;
  entrySensors : gmap string EntrySensor;
  tamperAlert : option bool;   (* the tamper device, and whether it is on *)
  motionDetected : bool;
  binaryState : bool;   (* the doorbell is ringing *)
  doorOpenDurationTimeout : option nat;   (* a timer handle *)
  motionTimeout : option nat;   (* closure variable of [listenEvents] *)
  motionPings : Z;   (* closure variable of [listenEvents] *)
  timers : list (nat * Timer);   (* the timers pending, by handle *)
  nextTimer : nat;   (* the next handle *)
  awaitingDuration : list (string * string);   (* handlers suspended at [await getDoorOpenDuration]: lock id, doorNo *)
  fired : list TimerAction;   (* the callbacks run so far *)
}.

Definition setLocks (d : Doorbell) (locks' : gmap string LockState) : Doorbell :=
  {| nativeId := nativeId d; locks := locks'; entrySensors := entrySensors d;
     tamperAlert := tamperAlert d; motionDetected := motionDetected d;
     binaryState := binaryState d;
     doorOpenDurationTimeout := doorOpenDurationTimeout d;
     motionTimeout := motionTimeout d; motionPings := motionPings d;
     timers := timers d; nextTimer := nextTimer d;
     awaitingDuration := awaitingDuration d; fired := fired d |}.

Definition setEntrySensors (d : Doorbell) (entrySensors' : gmap string EntrySensor) : Doorbell :=
  {| nativeId := nativeId d; locks := locks d; entrySensors := entrySensors';
     tamperAlert := tamperAlert d; motionDetected := motionDetected d;
     binaryState := binaryState d;
     doorOpenDurationTimeout := doorOpenDurationTimeout d;
     motionTimeout := motionTimeout d; motionPings := motionPings d;
     timers := timers d; nextTimer := nextTimer d;
     awaitingDuration := awaitingDuration d; fired := fired d |}.

Definition setTamperAlert (d : Doorbell) (tamperAlert' : option bool) : Doorbell :=
  {| nativeId := nativeId d; locks := locks d; entrySensors := entrySensors d;
     tamperAlert := tamperAlert'; motionDetected := motionDetected d;
     binaryState := binaryState d;
     doorOpenDurationTimeout := doorOpenDurationTimeout d;
     motionTimeout := motionTimeout d; motionPings := motionPings d;
     timers := timers d; nextTimer := nextTimer d;
     awaitingDuration := awaitingDuration d; fired := fired d |}.

Definition setMotion (d : Doorbell) (motionDetected' : bool) (motionPings' : Z) : Doorbell :=
  {| nativeId := nativeId d; locks := locks d; entrySensors := entrySensors d;
     tamperAlert := tamperAlert d; motionDetected := motionDetected';
     binaryState := binaryState d;
     doorOpenDurationTimeout := doorOpenDurationTimeout d;
     motionTimeout := motionTimeout d; motionPings := motionPings'; timers := timers d;
     nextTimer := nextTimer d; awaitingDuration := awaitingDuration d;
     fired := fired d |}.

Definition setBinaryState (d : Doorbell) (binaryState' : bool) : Doorbell :=
  {| nativeId := nativeId d; locks := locks d; entrySensors := entrySensors d;
     tamperAlert := tamperAlert d; motionDetected := motionDetected d;
     binaryState := binaryState'; doorOpenDurationTimeout := doorOpenDurationTimeout d;
     motionTimeout := motionTimeout d; motionPings := motionPings d;
     timers := timers d; nextTimer := nextTimer d;
     awaitingDuration := awaitingDuration d; fired := fired d |}.

Definition setDoorOpenDurationTimeout (d : Doorbell) (doorOpenDurationTimeout' : option nat) : Doorbell :=
  {| nativeId := nativeId d; locks := locks d; entrySensors := entrySensors d;
     tamperAlert := tamperAlert d; motionDetected := motionDetected d;
     binaryState := binaryState d; doorOpenDurationTimeout := doorOpenDurationTimeout';
     motionTimeout := motionTimeout d; motionPings := motionPings d;
     timers := timers d; nextTimer := nextTimer d;
     awaitingDuration := awaitingDuration d; fired := fired d |}.

Definition setMotionTimeout (d : Doorbell) (motionTimeout' : option nat) : Doorbell :=
  {| nativeId := nativeId d; locks := locks d; entrySensors := entrySensors d;
     tamperAlert := tamperAlert d; motionDetected := motionDetected d;
     binaryState := binaryState d;
     doorOpenDurationTimeout := doorOpenDurationTimeout d;
     motionTimeout := motionTimeout'; motionPings := motionPings d; timers := timers d;
     nextTimer := nextTimer d; awaitingDuration := awaitingDuration d;
     fired := fired d |}.

Definition setTimers (d : Doorbell) (timers' : list (nat * Timer)) (nextTimer' : nat) : Doorbell :=
  {| nativeId := nativeId d; locks := locks d; entrySensors := entrySensors d;
     tamperAlert := tamperAlert d; motionDetected := motionDetected d;
     binaryState := binaryState d;
     doorOpenDurationTimeout := doorOpenDurationTimeout d;
     motionTimeout := motionTimeout d; motionPings := motionPings d; timers := timers';
     nextTimer := nextTimer'; awaitingDuration := awaitingDuration d;
     fired := fired d |}.

Definition setAwaitingDuration (d : Doorbell) (awaitingDuration' : list (string * string)) : Doorbell :=
  {| nativeId := nativeId d; locks := locks d; entrySensors := entrySensors d;
     tamperAlert := tamperAlert d; motionDetected := motionDetected d;
     binaryState := binaryState d;
     doorOpenDurationTimeout := doorOpenDurationTimeout d;
     motionTimeout := motionTimeout d; motionPings := motionPings d;
     timers := timers d; nextTimer := nextTimer d;
     awaitingDuration := awaitingDuration'; fired := fired d |}.

Definition setFired (d : Doorbell) (fired' : list TimerAction) : Doorbell :=
  {| nativeId := nativeId d; locks := locks d; entrySensors := entrySensors d;
     tamperAlert := tamperAlert d; motionDetected := motionDetected d;
     binaryState := binaryState d;
     doorOpenDurationTimeout := doorOpenDurationTimeout d;
     motionTimeout := motionTimeout d; motionPings := motionPings d;
     timers := timers d; nextTimer := nextTimer d;
     awaitingDuration := awaitingDuration d; fired := fired' |}.

Definition OPEN_LOCK_AUDIO_NOTIFY_DURASTION : Z := 3000.

Definition setTimeout (d : Doorbell) (a : TimerAction) (ms : option Z)
  : Doorbell * nat :=
  let handle := nextTimer d in
  (setTimers d (timers d ++ [(handle, {| delay := ms; action := a |})]) (S handle),
   handle).

(** [clearTimeout (h)]: no effect for [undefined], a fired or a cleared
    timer. The variable that holds the handle keeps it. *)
Definition clearTimeout (d : Doorbell) (h : option nat) : Doorbell :=
  match h with
  | Some handle =>
      setTimers d (List.filter (fun t => negb (Nat.eqb (fst t) handle)) (timers d))
                (nextTimer d)
  | None => d
  end.

(** The handler, from the delivery of [(event, doorNo)] to its end or to
    its [await]. [motionPingsNeeded] and [motionTimeoutDuration] are read
    from the settings when [listenEvents] starts. *)
Definition onEvent (motionPingsNeeded motionTimeoutDuration : Z) (d : Doorbell)
    (event : HikvisionDoorbellEvent) (doorNo : string) : Doorbell :=
  let '(d, event) :=
    match event with
    | CaseTamperAlert =>
        match tamperAlert d with
        | Some _ => (setTamperAlert d (Some true), event)
        | None => (d, Motion)
        end
    | _ => (d, event)
    end in
  match event with
  | Motion =>
      let pings := motionPings d + 1 in
      let d := setMotion d (motionPingsNeeded <=? pings) pings in
      let d := clearTimeout d (motionTimeout d) in
      let '(d, h) := setTimeout d MotionReset (Some motionTimeoutDuration) in
      setMotionTimeout d (Some h)
  | TalkInvite =>
      fst (setTimeout (setBinaryState d true) (ControlEvent event) (Some 0))
  | TalkHangup =>
      fst (setTimeout (setBinaryState d false) (ControlEvent event) (Some 0))
  | Unlock | Lock =>
      let lockNativeId := nativeId d +:+ "-lock-" +:+ doorNo in
      match locks d !! lockNativeId with
      | Some _ =>
          let isUnlock := bool_decide (event = Unlock) in
          let d := setLocks d (<[lockNativeId := if isUnlock then Unlocked else Locked]>
                                 (locks d)) in
          let d := clearTimeout d (doorOpenDurationTimeout d) in
          if isUnlock
          then setAwaitingDuration d (awaitingDuration d ++ [(lockNativeId, doorNo)])
          else d
      | None => d                       (* warning logged *)
      end
  | DoorOpened | DoorClosed =>
      let sensorNativeId := nativeId d +:+ "-entry-" +:+ doorNo in
      match entrySensors d !! sensorNativeId with
      | Some entrySensor =>
          let isOpen := bool_decide (event = DoorOpened) in
          setEntrySensors d
            (<[sensorNativeId := {| entryOpen := entryOpen entrySensor;
                                    sensorBinaryState := Some isOpen |}]>
               (entrySensors d))
      | None => d                       (* warning logged *)
      end
  | _ => d
  end.

(** The remainder of the handler of an Unlock: the [k]-th suspended
    handler receives the outcome of [getDoorOpenDuration]. A rejection
    ends the handler. *)
Definition onDuration (d : Doorbell) (k : nat) (duration : Completion (option Z))
  : option Doorbell :=
  match awaitingDuration d !! k with
  | Some (lockNativeId, doorNo) =>
      let d := setAwaitingDuration d (delete k (awaitingDuration d)) in
      match duration with
      | Return seconds =>
          let timeout := (fun s => s * 1000) <$> seconds in
          let '(d, h) := setTimeout d (Relock lockNativeId) timeout in
          let d := setDoorOpenDurationTimeout d (Some h) in
          Some (fst (setTimeout d StopRinging (Some OPEN_LOCK_AUDIO_NOTIFY_DURASTION)))
      | Throw _ => Some d
      end
  | None => None
  end.

Definition runAction (d : Doorbell) (a : TimerAction) : Doorbell :=
  match a with
  | Relock lockNativeId => setLocks d (alter (fun _ => Locked) lockNativeId (locks d))
  | MotionReset => setMotion d false 0
  | StopRinging | ControlEvent _ => d
  end.

(** The timer [handle] fires. *)
Definition fire (d : Doorbell) (handle : nat) : option Doorbell :=
  match List.find (fun t => Nat.eqb (fst t) handle) (timers d) with
  | Some (_, t) =>
      let d := clearTimeout d (Some handle) in
      Some (runAction (setFired d (fired d ++ [action t])) (action t))
  | None => None
  end.

Inductive ReconcilerStep : Type :=
  | Deliver (event : HikvisionDoorbellEvent) (doorNo : string)
  | Duration (k : nat) (duration : Completion (option Z))
  | Fire (handle : nat).

Definition reconcilerStep (motionPingsNeeded motionTimeoutDuration : Z)
    (d : Doorbell) (s : ReconcilerStep) : option Doorbell :=
  match s with
  | Deliver event doorNo =>
      Some (onEvent motionPingsNeeded motionTimeoutDuration d event doorNo)
  | Duration k duration => onDuration d k duration
  | Fire handle => fire d handle
  end.

Fixpoint reconcile (motionPingsNeeded motionTimeoutDuration : Z) (d : Doorbell)
    (steps : list ReconcilerStep) : option Doorbell :=
  match steps with
  | [] => Some d
  | s :: rest =>
      match reconcilerStep motionPingsNeeded motionTimeoutDuration d s with
      | Some d' => reconcile motionPingsNeeded motionTimeoutDuration d' rest
      | None => None
      end
  end.

Definition isRelock (a : TimerAction) : bool :=
  match a with
  | Relock _ => true
  | _ => false
  end.

(** The auto-relock timers pending, and the relocks that have fired. *)
Definition pendingRelocks (d : Doorbell) : list (nat * Timer) :=
  List.filter (fun t => isRelock (action (snd t))) (timers d).

Definition firedRelocks (d : Doorbell) : list TimerAction :=
  List.filter isRelock (fired d).

(** A doorbell with one lock and one entry sensor for door 1, freshly
    constructed. *)
Definition sampleDoorbell : Doorbell :=
  {| nativeId := "bell";
     locks := {["bell-lock-1" := Locked]};
     entrySensors := {["bell-entry-1" := {| entryOpen := EntryClosed;
                                            sensorBinaryState := None |}]};
     tamperAlert := None; motionDetected := false; binaryState := false;
     doorOpenDurationTimeout := None; motionTimeout := None; motionPings := 0;
     timers := []; nextTimer := 0; awaitingDuration := []; fired := [] |}.

(** Two Unlock entries of the ACS log, one and two seconds after noon. *)
Definition unlockAt (t : string) : AcsEventInfo :=
  {| major := 5; minor := 214; time := t |}.

(** The call state a poll reports. *)
Definition polledState (response : Completion CallData) : string :=
  match getCallStatus response with
  | Return status => callState status
  | Throw _ => "idle"
  end.

(** The signal the specification attaches to a transition. *)
Definition edgeSignal (previous current : string) : list Effect :=
  if bool_decide (previous = "idle" /\ current = "ringing")
  then [Emit TalkInvite "1" false]
  else if bool_decide (previous = "ringing" /\ current = "idle")
  then [Emit TalkHangup "1" false]
  else [].

Fixpoint edgeSignals (previous : string) (states : list string) : list Effect :=
  match states with
  | [] => []
  | current :: rest => edgeSignal previous current ++ edgeSignals current rest
  end.

(** An Unlock entry of the ACS log that carries no time. *)
Definition freshUnlock : AcsEventInfo := {| major := 5; minor := 214; time := "" |}.

(** Every pending timer with action [a] is the one whose handle the
    variable [holder] holds: the discipline of [clearTimeout] before
    [setTimeout]. *)
Definition timersTracked (a : TimerAction -> bool) (holder : option nat)
    (d : Doorbell) : Prop :=
  forall h t, (h, t) ∈ timers d -> a (action t) = true -> holder = Some h.

Definition isMotionReset (a : TimerAction) : bool :=
  match a with
  | MotionReset => true
  | _ => false
  end.

Definition pendingMotionResets (d : Doorbell) : list (nat * Timer) :=
  List.filter (fun t => isMotionReset (action (snd t))) (timers d).

(** Timer handles are handed out in increasing order. *)
Definition handlesFresh (d : Doorbell) : Prop :=
  forall h t, (h, t) ∈ timers d -> (h < nextTimer d)%nat.

(** The entities of a doorbell: its identifier and the identifiers of its
    locks and entry sensors. *)
Definition entities (d : Doorbell) : string * gset string * gset string :=
  (nativeId d, dom (locks d), dom (entrySensors d)).

(** ** Door control and the lock entity *)

(** [l.join (', ')] *)
Fixpoint joinComma (l : list string) : string :=
  match l with
  | [] => ""
  | [x] => x
  | x :: rest => x +:+ ", " +:+ joinComma rest
  end.

Definition validateDoorControl (api : Capabilities) (doorNo command : string)
  : Completion unit :=
  if doorOutOfRange api doorNo then
    Throw (UserError ("Door number " +:+ doorNo
                      +:+ " is out of range. Valid range: "
                      +:+ pretty (doorMinNo api) +:+ "-" +:+ pretty (doorMaxNo api)))
  else if negb (bool_decide (command ∈ availableCommands api)) then
    Throw (UserError ("Command '" +:+ command
                      +:+ "' is not supported. Available commands: "
                      +:+ joinComma (availableCommands api)))
  else Return tt.

(** A PUT request of [controlDoor]. *)
Record DoorRequest : Type := {
  doorUrl : string;
  doorData : string;
}.

Definition controlDoorRequest (endpoint doorNo command : string) : DoorRequest :=
  {| doorUrl := "http://" +:+ endpoint
                  +:+ "/ISAPI/AccessControl/RemoteControl/door/" +:+ doorNo;
     doorData := "<RemoteControlDoor>" +:+ "<cmd>" +:+ command +:+ "</cmd>"
                   +:+ "</RemoteControlDoor>" |}.

(** [getDoorControlCapabilities ()] *)
Definition getDoorControlCapabilities (api : Capabilities)
    (loadResponse : Completion DoorCapabilitiesXml)
  : Capabilities * Completion (Z * Z * list string) :=
  let '(api1, loaded) := ensureCapabilities api loadResponse in
  (api1,
   let* _ := loaded in
   Return (doorMinNo api1, doorMaxNo api1, availableCommands api1)).

Section DoorControl.

(** The device's answer to a PUT. *)
Variable Response : Type.
Variable endpoint : string.

(** [controlDoor (doorNo, command)]: the fields afterwards, the requests
    sent, the outcome. [response] is the outcome of the PUT, if it is
    sent. *)
Definition controlDoor (api : Capabilities)
    (loadResponse : Completion DoorCapabilitiesXml) (doorNo command : string)
    (response : Completion Response)
  : Capabilities * list DoorRequest * Completion Response :=
  let '(api1, loaded) := ensureCapabilities api loadResponse in
  match (let* _ := loaded in validateDoorControl api1 doorNo command) with
  | Throw e => (api1, [], Throw e)
  | Return _ => (api1, [controlDoorRequest endpoint doorNo command], response)
  end.

(** [HikvisionLock.lock ()] for the lock of door [doorNumber] whose state
    is [lockState]: also the state afterwards. *)
Definition lock (api : Capabilities) (loadResponse : Completion DoorCapabilitiesXml)
    (lockState : LockState) (doorNumber : string) (response : Completion Response)
  : Capabilities * list DoorRequest * LockState * Completion unit :=
  let '(api1, capabilities) := getDoorControlCapabilities api loadResponse in
  match capabilities with
  | Throw e => (api1, [], lockState, Throw e)
  | Return (_, _, commands) =>
      let command := if bool_decide ("close" ∈ commands) then "close" else "resume" in
      let '(api2, requests, result) :=
        controlDoor api1 loadResponse doorNumber command response in
      match result with
      | Return _ => (api2, requests, Locked, Return tt)
      | Throw e => (api2, requests, lockState, Throw e)
      end
  end.

(** [HikvisionLock.unlock ()] *)
Definition unlock (api : Capabilities) (loadResponse : Completion DoorCapabilitiesXml)
    (lockState : LockState) (doorNumber : string) (response : Completion Response)
  : Capabilities * list DoorRequest * LockState * Completion unit :=
  let '(api1, requests, result) :=
    controlDoor api loadResponse doorNumber "open" response in
  match result with
  | Return _ => (api1, requests, Unlocked, Return tt)
  | Throw e => (api1, requests, lockState, Throw e)
  end.

End DoorControl.

(** ** Life cycle of the call status poller *)

(** The fields that [startCallStatusPolling], [resetCallStatusPollingTimeout]
    and [stopCallStatusPolling] use, with the intervals that are running
    and the timeouts that are pending in the host. *)
Record CallPolling : Type := {
  callStatusInterval : option nat;
  callStatusStopTimeout : option nat;
  isCallPollingActive : bool;
  runningIntervals : list nat;
  pendingTimeouts : list nat;
  nextHandle : nat;
}.

Definition initialCallPolling : CallPolling :=
  {| callStatusInterval := None; callStatusStopTimeout := None;
     isCallPollingActive := false; runningIntervals := []; pendingTimeouts := [];
     nextHandle := 0 |}.

Definition removeHandle (h : nat) (l : list nat) : list nat :=
  List.filter (fun x => negb (Nat.eqb x h)) l.

Definition resetCallStatusPollingTimeout (p : CallPolling) : CallPolling :=
  let pending :=
    match callStatusStopTimeout p with
    | Some h => removeHandle h (pendingTimeouts p)     (* clearTimeout *)
    | None => pendingTimeouts p
    end in
  {| callStatusInterval := callStatusInterval p;
     callStatusStopTimeout := Some (nextHandle p);
     isCallPollingActive := isCallPollingActive p;
     runningIntervals := runningIntervals p;
     pendingTimeouts := pending ++ [nextHandle p];
     nextHandle := S (nextHandle p) |}.

Definition startCallStatusPolling (p : CallPolling) : CallPolling :=
  if bool_decide (is_Some (callStatusInterval p)) || isCallPollingActive p then
    resetCallStatusPollingTimeout p
  else
    resetCallStatusPollingTimeout
      {| callStatusInterval := Some (nextHandle p);
         callStatusStopTimeout := callStatusStopTimeout p;
         isCallPollingActive := true;
         runningIntervals := runningIntervals p ++ [nextHandle p];
         pendingTimeouts := pendingTimeouts p;
         nextHandle := S (nextHandle p) |}.

Definition stopCallStatusPolling (p : CallPolling) : CallPolling :=
  {| callStatusInterval := None;
     callStatusStopTimeout := None;
     isCallPollingActive := false;
     runningIntervals :=
       match callStatusInterval p with
       | Some h => removeHandle h (runningIntervals p)   (* clearInterval *)
       | None => runningIntervals p
       end;
     pendingTimeouts :=
       match callStatusStopTimeout p with
       | Some h => removeHandle h (pendingTimeouts p)    (* clearTimeout *)
       | None => pendingTimeouts p
       end;
     nextHandle := nextHandle p |}.

(** The pending timeout [h] fires: its callback stops the polling. *)
Definition expireCallStatusPolling (p : CallPolling) (h : nat) : option CallPolling :=
  if bool_decide (h ∈ pendingTimeouts p) then
    Some (stopCallStatusPolling
            {| callStatusInterval := callStatusInterval p;
               callStatusStopTimeout := callStatusStopTimeout p;
               isCallPollingActive := isCallPollingActive p;
               runningIntervals := runningIntervals p;
               pendingTimeouts := removeHandle h (pendingTimeouts p);
               nextHandle := nextHandle p |})
  else None.

Inductive CallPollingOp : Type :=
  | StartPolling
  | StopPolling
  | ExpirePolling (h : nat).

Definition callPollingOp (p : CallPolling) (op : CallPollingOp) : option CallPolling :=
  match op with
  | StartPolling => Some (startCallStatusPolling p)
  | StopPolling => Some (stopCallStatusPolling p)
  | ExpirePolling h => expireCallStatusPolling p h
  end.

Fixpoint callPollingOps (p : CallPolling) (ops : list CallPollingOp)
  : option CallPolling :=
  match ops with
  | [] => Some p
  | op :: rest =>
      match callPollingOp p op with
      | Some p' => callPollingOps p' rest
      | None => None
      end
  end.

(** The running interval and the pending timeout are the ones the fields
    hold, and they exist together, exactly while the poller is active. *)
Definition callPollingConsistent (p : CallPolling) : Prop :=
  runningIntervals p = option_list (callStatusInterval p)
  /\ pendingTimeouts p = option_list (callStatusStopTimeout p)
  /\ (isCallPollingActive p = true <-> is_Some (callStatusInterval p))
  /\ (isCallPollingActive p = true <-> is_Some (callStatusStopTimeout p)).

(** ** RTP multiplexer

    [RtpMultiplexer]: the map [targets] in insertion order, the packet
    counter, and around them the UDP sockets that are open in the host
    (with the type each was created with) and the datagrams handed to
    them. *)

Record Target : Type := {
  targetIp : string;
  targetPort : Z;
  targetSocket : nat;
}.

Record Datagram : Type := {
  viaSocket : nat;
  toPort : Z;
  toIp : string;
  payload : string;
}.

Record RtpMultiplexer : Type := {
  targets : list (string * Target);
  packetCount : Z;
  openSockets : list (nat * string);
  nextSocket : nat;
  sent : list Datagram;
}.

Definition emptyMultiplexer : RtpMultiplexer :=
  {| targets := []; packetCount := 0; openSockets := []; nextSocket := 0; sent := [] |}.

(** [this.targets.get (id)] *)
Definition getTarget (m : RtpMultiplexer) (id : string) : option Target :=
  snd <$> List.find (fun kv => String.eqb (fst kv) id) (targets m).

(** [removeTarget (id)]: closing the socket may throw, which is ignored. *)
Definition removeTarget (m : RtpMultiplexer) (id : string) : RtpMultiplexer :=
  match getTarget m id with
  | Some target =>
      {| targets := List.filter (fun kv => negb (String.eqb (fst kv) id)) (targets m);
         packetCount := packetCount m;
         openSockets :=
           List.filter (fun s => negb (Nat.eqb (fst s) (targetSocket target)))
                       (openSockets m);
         nextSocket := nextSocket m;
         sent := sent m |}
  | None => m
  end.

Section Multiplexer.

(** [udpSocketType (ip)], from [./utils]. *)
Variable udpSocketType : string -> string.

(** [addTarget (id, ip, port)]; an 'error' event of the socket calls
    [removeTarget (id)]. *)
Definition addTarget (m : RtpMultiplexer) (id ip : string) (port : Z)
  : RtpMultiplexer :=
  let m :=
    match getTarget m id with
    | Some _ => removeTarget m id
    | None => m
    end in
  let socket := nextSocket m in
  {| targets := targets m ++ [(id, {| targetIp := ip; targetPort := port;
                                      targetSocket := socket |})];
     packetCount := packetCount m;
     openSockets := openSockets m ++ [(socket, udpSocketType ip)];
     nextSocket := S socket;
     sent := sent m |}.

(** [sendRtp (rtp)]; [throws s] tells whether [send] on socket [s] throws,
    which is logged. *)
Definition sendRtp (m : RtpMultiplexer) (rtp : string) (throws : nat -> bool)
  : RtpMultiplexer :=
  let count := packetCount m + 1 in
  match targets m with
  | [] =>
      {| targets := targets m; packetCount := count; openSockets := openSockets m;
         nextSocket := nextSocket m; sent := sent m |}
  | _ =>
      {| targets := targets m; packetCount := count; openSockets := openSockets m;
         nextSocket := nextSocket m;
         sent := sent m
                 ++ omap (fun kv =>
                            let target := snd kv in
                            if throws (targetSocket target) then None
                            else Some {| viaSocket := targetSocket target;
                                         toPort := targetPort target;
                                         toIp := targetIp target;
                                         payload := rtp |})
                         (targets m) |}
  end.

(** [getTargets ()] *)
Definition getTargets (m : RtpMultiplexer) : list string := fst <$> targets m.

(** [destroy ()]: [removeTarget] for each key. *)
Definition destroyMultiplexer (m : RtpMultiplexer) : RtpMultiplexer :=
  foldl removeTarget m (getTargets m).

Inductive MultiplexerOp : Type :=
  | AddTarget (id ip : string) (port : Z)
  | RemoveTarget (id : string)
  | SendRtp (rtp : string) (throws : nat -> bool)
  | DestroyMultiplexer.

Definition multiplexerOp (m : RtpMultiplexer) (op : MultiplexerOp) : RtpMultiplexer :=
  match op with
  | AddTarget id ip port => addTarget m id ip port
  | RemoveTarget id => removeTarget m id
  | SendRtp rtp throws => sendRtp m rtp throws
  | DestroyMultiplexer => destroyMultiplexer m
  end.

End Multiplexer.

(** Target ids are distinct, targets have distinct sockets, and the open
    sockets are exactly the sockets of the targets. *)
Definition multiplexerConsistent (m : RtpMultiplexer) : Prop :=
  NoDup (fst <$> targets m)
  /\ NoDup ((fun kv => targetSocket (snd kv)) <$> targets m)
  /\ (fst <$> openSockets m) = ((fun kv => targetSocket (snd kv)) <$> targets m)
  /\ (forall s, s ∈ (fst <$> openSockets m) -> (s < nextSocket m)%nat).

Definition isSendRtp (op : MultiplexerOp) : bool :=
  match op with
  | SendRtp _ _ => true
  | _ => false
  end.

(** ** Framing of the alert stream

    Text is handled as the list of its characters, a character outside
    ASCII as the bytes of its UTF-8 form. The boundary, the content-type
    marker and the braces are ASCII, and no byte of a longer UTF-8
    sequence is, so splitting and matching act on this text as they do on
    the string. *)

Section Split.

(** The separator, not empty. *)
Variable sep : list ascii.

Fixpoint startsWith (p l : list ascii) : bool :=
  match p, l with
  | [], _ => true
  | _ :: _, [] => false
  | a :: p', b :: l' => Ascii.eqb a b && startsWith p' l'
  end.

(** The first occurrence of [sep] in [l]: what is before and after it. *)
Fixpoint findSep (l : list ascii) : option (list ascii * list ascii) :=
  if startsWith sep l then Some ([], drop (length sep) l)
  else
    match l with
    | [] => None
    | c :: l' => (fun ba => (c :: fst ba, snd ba)) <$> findSep l'
    end.

Fixpoint splitFuel (fuel : nat) (l : list ascii) : list (list ascii) :=
  match fuel with
  | O => [l]
  | S fuel' =>
      match findSep l with
      | Some (before, after) => before :: splitFuel fuel' after
      | None => [l]
      end
  end.

(** [l.split (sep)]: each occurrence consumes at least one character, so
    the length of [l] is fuel enough. *)
Definition split (l : list ascii) : list (list ascii) := splitFuel (length l) l.

End Split.

Definition MIME_boundary : list ascii := chars "--MIME_boundary".
Definition jsonMarker : list ascii := chars "Content-Type: application/json".

(** The prefix of [l] that ends with its last ["}"], if there is one. *)
Fixpoint upToLastBrace (l : list ascii) : option (list ascii) :=
  match l with
  | [] => None
  | c :: l' =>
      match upToLastBrace l' with
      | Some r => Some (c :: r)
      | None => if Ascii.eqb c "}"%char then Some [c] else None
      end
  end.

(** The suffix of [l] from its first ["{"] on, without that brace. *)
Fixpoint afterFirstBrace (l : list ascii) : option (list ascii) :=
  match l with
  | [] => None
  | c :: l' => if Ascii.eqb c "{"%char then Some l' else afterFirstBrace l'
  end.

(** [part.match (/Content-Type: application\/json[^{]*(\{.*\})/s)[1]]: after
    the first occurrence of the marker, from the first ["{"] to the last
    ["}"]. When that fails at the first occurrence of the marker it fails
    at every later one, as those see the same braces. *)
Definition jsonMatch (part : list ascii) : option (list ascii) :=
  match findSep jsonMarker part with
  | Some (_, after) =>
      match afterFirstBrace after with
      | Some body => (fun r => "{"%char :: r) <$> upToLastBrace body
      | None => None
      end
  | None => None
  end.

(** [buffer += chunk; parts = buffer.split (...); buffer = parts.pop () || ''] *)
Definition frame (buffer chunk : list ascii) : list (list ascii) * list ascii :=
  let parts := split MIME_boundary (buffer ++ chunk) in
  (removelast parts, List.last parts []).

(** [chunk.toString ('utf8')] of a [Buffer], as the decoder of the host
    does it: a well-formed sequence gives its character; every ill-formed
    sequence, cut where it stops being a prefix of a well-formed one, and
    a sequence that the end of the buffer truncates give U+FFFD, whose
    UTF-8 form is EF BF BD. Each call decodes its buffer on its own. *)
Module Utf8.

(** The bytes seen of the sequence being read, the number of bytes it
    still needs, and the range the next byte must lie in. *)
Record Decoder : Type := {
  seen : list Byte.byte;
  needed : nat;
  lower : N;
  upper : N;
}.

Definition initial : Decoder :=
  {| seen := []; needed := 0; lower := 0x80; upper := 0xBF |}.

Definition replacement : list ascii :=
  ascii_of_byte <$> [Byte.xef; Byte.xbf; Byte.xbd].

Definition within (lo hi n : N) : bool := ((lo <=? n) && (n <=? hi))%N.

(** A byte met between two sequences. *)
Definition start (b : Byte.byte) : list ascii * Decoder :=
  let n := Byte.to_N b in
  if within 0x00 0x7F n then ([ascii_of_byte b], initial)
  else if within 0xC2 0xDF n then
    ([], {| seen := [b]; needed := 1; lower := 0x80; upper := 0xBF |})
  else if within 0xE0 0xEF n then
    ([], {| seen := [b]; needed := 2;
            lower := if (n =? 0xE0)%N then 0xA0 else 0x80;
            upper := if (n =? 0xED)%N then 0x9F else 0xBF |})
  else if within 0xF0 0xF4 n then
    ([], {| seen := [b]; needed := 3;
            lower := if (n =? 0xF0)%N then 0x90 else 0x80;
            upper := if (n =? 0xF4)%N then 0x8F else 0xBF |})
  else (replacement, initial).

(** A byte that does not continue the sequence ends it with U+FFFD and is
    read again as the start of the next one. *)
Definition next (d : Decoder) (b : Byte.byte) : list ascii * Decoder :=
  match needed d with
  | O => start b
  | S remaining =>
      if within (lower d) (upper d) (Byte.to_N b) then
        match remaining with
        | O => (ascii_of_byte <$> (seen d ++ [b]), initial)
        | S _ => ([], {| seen := seen d ++ [b]; needed := remaining;
                         lower := 0x80; upper := 0xBF |})
        end
      else
        let '(out, d') := start b in (replacement ++ out, d')
  end.

Fixpoint decode (d : Decoder) (buffer : list Byte.byte) : list ascii * Decoder :=
  match buffer with
  | [] => ([], d)
  | b :: rest =>
      let '(out, d') := next d b in
      let '(out', d'') := decode d' rest in
      (out ++ out', d'')
  end.

(** At the end of the buffer. *)
Definition flush (d : Decoder) : list ascii :=
  match needed d with
  | O => []
  | S _ => replacement
  end.

Definition toString (buffer : list Byte.byte) : list ascii :=
  let '(out, d) := decode initial buffer in out ++ flush d.

(** The buffer does not end inside a sequence. *)
Definition complete (buffer : list Byte.byte) : bool :=
  Nat.eqb (needed (snd (decode initial buffer))) 0.

End Utf8.

Section AlertStream.

Variable DateParse : string -> Date.

(** [JSON.parse (text)] read as the properties of an event. *)
Variable parseEvent : list ascii -> Completion AlertStreamEvent.

(** The body of the loop over the parts; a throw of [JSON.parse] is
    logged. *)
Definition processPart (now : Z) (part : list ascii) : list Effect :=
  match trim part with
  | [] => []
  | _ =>
      match jsonMatch part with
      | Some json =>
          match parseEvent json with
          | Return eventData => processAlertStreamEvent DateParse now eventData
          | Throw _ => []
          end
      | None => []
      end
  end.

(** [chunk.toString ('utf8')]. *)
Variable toString : list Byte.byte -> list ascii.

(** The ['data'] handler of [listenAlertStream]: the effects and the
    buffer kept for the next chunk. *)
Definition onData (now : Z) (buffer : list ascii) (chunk : list Byte.byte)
  : list Effect * list ascii :=
  let '(parts, buffer') := frame buffer (toString chunk) in
  (flat_map (processPart now) parts, buffer').

End AlertStream.

(** The invariant of the capability store: one request per promise; the
    creator of the promise in the field is the only one suspended; every
    promise before the last one was rejected; a pending promise is the one
    in the field, while nothing is loaded; a fulfilled promise means the
    capabilities are loaded; the promise in the field is the last one. *)
Definition storeConsistent (w : World) : Prop :=
  requestsSent w = length (promises w)
  /\ suspended w = option_list (loadCapabilitiesPromise (api w))
  /\ (forall i s, promises w !! i = Some s -> (S i < length (promises w))%nat ->
        exists e, s = Rejected e)
  /\ (forall p, promises w !! p = Some Pending ->
        loadCapabilitiesPromise (api w) = Some p
        /\ capabilitiesLoaded (api w) = false)
  /\ (forall p, promises w !! p = Some Fulfilled -> capabilitiesLoaded (api w) = true)
  /\ (forall p, loadCapabilitiesPromise (api w) = Some p ->
        S p = length (promises w)).

(** The door range and the commands, the values the store serves. *)
Definition served (a : Capabilities) : Z * Z * list string :=
  (doorMinNo a, doorMaxNo a, availableCommands a).

(** A capabilities document without door range and without commands. *)
Definition bareCapabilitiesXml : DoorCapabilitiesXml :=
  {| doorNoElement := None; cmdElement := None |}.

(** ** Shared clients

    [HikvisionDoorbellProvider.createSharedClient]: the map [clients] and,
    by handle, the connection identities for which a client was
    constructed. *)

Record Identity : Type := {
  identityIp : string;
  identityPort : string;
  identityUsername : string;
  identityPassword : string;
}.

Record Provider : Type := {
  clients : gmap string nat;
  constructed : list Identity;
}.

Definition emptyProvider : Provider := {| clients := ∅; constructed := [] |}.

Definition clientKey (i : Identity) : string :=
  identityIp i +:+ "#" +:+ identityPort i +:+ "#" +:+ identityUsername i
    +:+ "#" +:+ identityPassword i.

Definition createSharedClient (prov : Provider) (i : Identity) : Provider * nat :=
  let key := clientKey i in
  match clients prov !! key with
  | Some check => (prov, check)
  | None =>
      let client := length (constructed prov) in
      ({| clients := <[key := client]> (clients prov);
          constructed := constructed prov ++ [i] |}, client)
  end.

(** The string has no ["#"]. *)
Fixpoint hashFree (s : string) : bool :=
  match s with
  | EmptyString => true
  | String c s' => negb (Ascii.eqb c "#"%char) && hashFree s'
  end.

(** Distinct keys hold distinct clients, all constructed. *)
Definition providerConsistent (prov : Provider) : Prop :=
  (forall k1 k2 c, clients prov !! k1 = Some c -> clients prov !! k2 = Some c ->
                   k1 = k2)
  /\ (forall k c, clients prov !! k = Some c -> (c < length (constructed prov))%nat).

(** ** Properties *)

(** The sign of a well-formed device offset is inverted, whatever the
    digits are. *)
Lemma parseDeviceTimezone_inverts (sign h1 h2 m1 m2 s1 s2 : ascii) :
  isSign sign = true ->
  isDigit h1 = true -> isDigit h2 = true ->
  isDigit m1 = true -> isDigit m2 = true ->
  isDigit s1 = true -> isDigit s2 = true ->
  parseDeviceTimezone
    (Some (str ("C" :: "S" :: "T" :: sign :: h1 :: h2 :: ":" :: m1 :: m2
                 :: ":" :: s1 :: [s2])%char))
  = Return (str ((if Ascii.eqb sign "-"%char then "+" else "-")%char
                  :: h1 :: h2 :: ":"%char :: [m1; m2])).
Proof.
  intros Hs H1 H2 M1 M2 S1 S2.
  unfold parseDeviceTimezone, chars, str.
  cbn -[isDigit isSign Ascii.eqb].
  rewrite Hs, H1, H2, M1, M2, S1, S2. reflexivity.
Qed.

(** C3. Timezone parsing inverts the device's sign convention:
    "CST-3:00:00" resolves to "+03:00" and "CST+5:30:00" to "-05:30",
    whatever the host offset is. *)
Theorem C3_timezone_sign_inverted (systemOffset : Z) :
  getDeviceTimezone (Return (Some "CST-3:00:00")) systemOffset = "+03:00"
  /\ getDeviceTimezone (Return (Some "CST+5:30:00")) systemOffset = "-05:30".
Proof. split; reflexivity. Qed.

Example iso_utc : IsoDate.parse 0 "2024-01-01T12:00:00" = Some 1704110400000.
Proof. reflexivity. Qed.

Example iso_offset : IsoDate.parse 0 "2024-01-01T12:00:00+03:00" = Some 1704099600000.
Proof. reflexivity. Qed.

Example iso_epoch : IsoDate.parse 0 "1970-01-01T00:00:00Z" = Some 0.
Proof. reflexivity. Qed.

(** *** Age filter *)

Lemma tooOld_spec (now t : Z) :
  tooOld now (Some t) = true <-> maxEventAgeSeconds * 1000 < now - t.
Proof.
  unfold tooOld, ageInSeconds, maxEventAgeSeconds.
  rewrite negb_true_iff, <- not_true_iff_false, Qle_bool_iff.
  unfold Qle, Qdiv, Qmult, Qinv, inject_Z; cbn. lia.
Qed.

(** Case analysis on membership in an explicit list of effects. *)
Ltac emitted_cases H :=
  repeat (apply elem_of_cons in H; destruct H as [H|H]);
  first [ by apply elem_of_nil in H | congruence ].

Section IngestionFacts.

Variable DateParse : string -> Date.

(** A log entry of the ACS poller whose time, resolved through the device
    timezone, lies more than 30 seconds before the clock reading at
    normalization has no effect at all: nothing is emitted for it. *)
Lemma processAcsEvent_drops_stale (deviceTimezone : option string) (now t : Z)
    (eventInfo : AcsEventInfo) :
  maxEventAgeSeconds * 1000 < now - t ->
  acsOccurredAt DateParse deviceTimezone eventInfo = Some t ->
  processAcsEvent DateParse deviceTimezone now eventInfo = [].
Proof.
  intros Hage He. apply tooOld_spec in Hage.
  unfold acsOccurredAt in He. unfold processAcsEvent.
  destruct (truthy (time eventInfo)); [|discriminate].
  rewrite He, Hage. reflexivity.
Qed.

(** What decides for a stream event is its time string as [new Date]
    reads it on the host: the event is dropped exactly when that reading
    lies more than 30 seconds before the clock reading. *)
Lemma processAlertStreamEvent_drops_by_host_reading (now t : Z) (dt : string)
    (eventData : AlertStreamEvent) :
  dateTime eventData = Some dt -> truthy dt = true -> DateParse dt = Some t ->
  maxEventAgeSeconds * 1000 < now - t ->
  processAlertStreamEvent DateParse now eventData = [].
Proof.
  intros Hdt Htruthy Hparse Hage. apply tooOld_spec in Hage.
  unfold processAlertStreamEvent. rewrite Hdt, Htruthy, Hparse, Hage. reflexivity.
Qed.

(** C8, as amended. The boolean that accompanies every emission is the
    [inactive] flag: for the alert stream it is [eventState == "inactive"],
    for the ACS poller it is always false. An active event is delivered
    with [false]. *)
Theorem C8_delivered_flag_is_inactive (deviceTimezone : option string) (now : Z)
    (ev : HikvisionDoorbellEvent) (ch : string) (b : bool) :
  (forall eventData,
     Emit ev ch b ∈ processAlertStreamEvent DateParse now eventData ->
     b = String.eqb (default "" (eventState eventData)) "inactive")
  /\ (forall eventInfo,
     Emit ev ch b ∈ processAcsEvent DateParse deviceTimezone now eventInfo ->
     b = false).
Proof.
  split.
  - intros e. unfold processAlertStreamEvent.
    repeat match goal with
      | |- context [match ?x with _ => _ end] => destruct x
      end; intros Hin; emitted_cases Hin.
  - intros e. unfold processAcsEvent.
    repeat match goal with
      | |- context [match ?x with _ => _ end] => destruct x
      end; intros Hin; emitted_cases Hin.
Qed.

End IngestionFacts.

(** C2, at an input where it fails. The device timezone is +03:00, the
    host runs in UTC, and the alert stream delivers an Unlock whose
    [dateTime] is the device-local 2024-01-01T15:00:00, that is
    12:00:00Z, while the clock reads 12:05:00Z. Resolved through the
    timezone resolver the event is 300 seconds old and nothing may be
    emitted for it; [processAcsEvent] drops a log entry with that very
    time string. [processAlertStreamEvent] reads the string with
    [new Date] alone, takes it for 15:00:00Z, and emits the event. *)
Theorem C2_stale_stream_event_emitted :
  let parse := IsoDate.parse 0 in
  let deviceTimezone := Some "+03:00" in
  let now := 1704110700000 in
  let eventData :=
    {| channelID := Some 1; eventType := Some "AccessControllerEvent";
       eventState := Some "active"; dateTime := Some "2024-01-01T15:00:00";
       AccessControllerEvent :=
         Some {| majorEventType := Some 5; subEventType := Some 214 |} |} in
  let eventInfo := {| major := 5; minor := 214; time := "2024-01-01T15:00:00" |} in
  streamOccurredAt parse deviceTimezone eventData = Some (now - 300000)
  /\ acsOccurredAt parse deviceTimezone eventInfo = Some (now - 300000)
  /\ maxEventAgeSeconds * 1000 < now - (now - 300000)
  /\ processAcsEvent parse deviceTimezone now eventInfo = []
  /\ processAlertStreamEvent parse now eventData = [Emit Unlock "1" false].
Proof.
  cbv zeta. repeat split; vm_compute; reflexivity.
Qed.

(** C8 as stated fails: a fresh Unlock entry of the ACS log is emitted with
    [false] in the third position, not with [true]. *)
Lemma C8_acs_flag_not_true :
  ~ (forall DateParse deviceTimezone now eventInfo ev ch b,
       Emit ev ch b ∈ processAcsEvent DateParse deviceTimezone now eventInfo ->
       b = true).
Proof.
  intros H.
  specialize (H (fun _ => None) None 0 freshUnlock Unlock "1" false).
  assert (false = true) by (apply H; vm_compute; constructor).
  discriminate.
Qed.

Lemma C8_delivered_flag_is_inactive_witness :
  Emit Unlock "1" false ∈ processAcsEvent (fun _ => None) None 0 freshUnlock
  /\ false = false.
Proof.
  assert (Hin : Emit Unlock "1" false
                ∈ processAcsEvent (fun _ => None) None 0 freshUnlock)
    by (vm_compute; constructor).
  split; [exact Hin|].
  exact (proj2 (C8_delivered_flag_is_inactive (fun _ => None) None 0
                  Unlock "1" false) freshUnlock Hin).
Defined.

(** *** The watermark of the ACS poller

    The poller compares [new Date (eventInfo.time)], the time string read
    as it stands, with the watermark. The facts below are about that raw
    time. *)
Section Watermark.

Variable DateParse : string -> Date.
Variable deviceTimezone : option string.
Variable clock : nat -> Z.

Lemma pollLoop_forwarded (w : Date) (l : list AcsEventInfo) :
  forall (i : nat) (st : PollLoop),
    forwarded (pollLoop DateParse deviceTimezone (Some w) clock i l st)
    = forwarded st ++ List.filter (newerThan DateParse w) l.
Proof.
  induction l as [|e l IH]; intros i st; cbn [pollLoop List.filter].
  - symmetry. apply app_nil_r.
  - rewrite IH. unfold pollLoopBody, newerThan, rawTime.
    destruct (date_le (DateParse (time e)) w); cbn [negb forwarded].
    + reflexivity.
    + rewrite <- app_assoc. reflexivity.
Qed.

Lemma pollLoopBody_latest (w : Date) (now : Z) (st : PollLoop)
    (e : AcsEventInfo) :
  is_Some (rawTime DateParse e) ->
  isLatestOf DateParse (latestEventTime st) (forwarded st) ->
  let st' := pollLoopBody DateParse deviceTimezone (Some w) now st e in
  isLatestOf DateParse (latestEventTime st') (forwarded st').
Proof.
  intros [t Ht] Hinv. unfold pollLoopBody. fold (rawTime DateParse e). rewrite Ht.
  destruct (date_le (Some t) w); [exact Hinv|].
  cbn [latestEventTime forwarded].
  destruct (latestEventTime st) as [d|]; cbn [isLatestOf] in *.
  - destruct Hinv as (m & -> & (e0 & Hin & He0) & Hmax).
    cbn [date_gt]. destruct (Z.ltb_spec m t) as [Hlt|Hge].
    + exists t. split; [reflexivity|]. split.
      * exists e. split; [apply elem_of_app; right; apply list_elem_of_singleton; reflexivity|exact Ht].
      * intros e' t' Hin' Ht'. apply elem_of_app in Hin' as [Hin'|Hin'].
        -- specialize (Hmax e' t' Hin' Ht'). lia.
        -- apply list_elem_of_singleton in Hin'. subst e'. rewrite Ht in Ht'.
           injection Ht' as <-. lia.
    + exists m. split; [reflexivity|]. split.
      * exists e0. split; [apply elem_of_app; left; exact Hin|exact He0].
      * intros e' t' Hin' Ht'. apply elem_of_app in Hin' as [Hin'|Hin'].
        -- exact (Hmax e' t' Hin' Ht').
        -- apply list_elem_of_singleton in Hin'. subst e'. rewrite Ht in Ht'.
           injection Ht' as <-. lia.
  - rewrite Hinv. cbn [app]. exists t. split; [reflexivity|]. split.
    + exists e. split; [apply list_elem_of_singleton; reflexivity|exact Ht].
    + intros e' t' Hin' Ht'. apply list_elem_of_singleton in Hin'. subst e'.
      rewrite Ht in Ht'. injection Ht' as <-. lia.
Qed.

Lemma pollLoop_latest (w : Date) (l : list AcsEventInfo) :
  forall (i : nat) (st : PollLoop),
    (forall e, e ∈ l -> is_Some (rawTime DateParse e)) ->
    isLatestOf DateParse (latestEventTime st) (forwarded st) ->
    let st' := pollLoop DateParse deviceTimezone (Some w) clock i l st in
    isLatestOf DateParse (latestEventTime st') (forwarded st').
Proof.
  induction l as [|e l IH]; intros i st Hvalid Hinv; cbn [pollLoop].
  - exact Hinv.
  - apply IH.
    + intros e' He'. apply Hvalid. apply elem_of_cons. right. exact He'.
    + apply pollLoopBody_latest; [|exact Hinv].
      apply Hvalid. apply elem_of_cons. left. reflexivity.
Qed.

(** One cycle that no other poll overlaps, over a batch of readable time
    strings, with a valid watermark [w] in the field from its start to its
    end: the entries forwarded are those whose raw time is strictly
    greater than [w]; the watermark afterwards is the greatest raw time
    forwarded, or [w] when nothing was forwarded. *)
Theorem acsPollingTick_raw_watermark (w : Z) (l : list AcsEventInfo) :
  (forall e, e ∈ l -> is_Some (rawTime DateParse e)) ->
  let r := acsPollingTick DateParse deviceTimezone (Some w) clock (Return (Some l)) in
  pollForwarded r = List.filter (newerThan DateParse (Some w)) l
  /\ (forall e, e ∈ pollForwarded r -> exists t, rawTime DateParse e = Some t /\ w < t)
  /\ (pollForwarded r = [] -> lastAcsEventTime' r = Some w)
  /\ (pollForwarded r <> [] ->
      exists m, lastAcsEventTime' r = Some m
        /\ (exists e, e ∈ pollForwarded r /\ rawTime DateParse e = Some m)
        /\ (forall e t, e ∈ pollForwarded r -> rawTime DateParse e = Some t -> t <= m))
  /\ (exists m, lastAcsEventTime' r = Some m /\ w <= m)
  /\ pollCompletion r = Return tt.
Proof.
  intros Hvalid r.
  set (st0 := {| forwarded := []; emitted := []; latestEventTime := None |}).
  set (st := pollLoop DateParse deviceTimezone (Some (Some w)) clock 0 l st0).
  assert (Hfw : forwarded st = List.filter (newerThan DateParse (Some w)) l)
    by (unfold st; rewrite pollLoop_forwarded; reflexivity).
  assert (Hlat : isLatestOf DateParse (latestEventTime st) (forwarded st))
    by (apply pollLoop_latest; [exact Hvalid|reflexivity]).
  assert (Hnew : forall e, e ∈ forwarded st -> exists t, rawTime DateParse e = Some t /\ w < t).
  { intros e He. rewrite Hfw in He. apply list_elem_of_In, filter_In in He as [He Hn].
    apply list_elem_of_In, Hvalid in He as [t Ht]. exists t. split; [exact Ht|].
    unfold newerThan in Hn. rewrite Ht in Hn. cbn in Hn.
    apply negb_true_iff, Z.leb_gt in Hn. exact Hn. }
  assert (Hr : r = match latestEventTime st with
                   | Some latest =>
                       {| lastAcsEventTime' := latest; pollForwarded := forwarded st;
                          pollEmitted := emitted st; pollCompletion := toISOString latest |}
                   | None =>
                       {| lastAcsEventTime' := Some w; pollForwarded := forwarded st;
                          pollEmitted := emitted st; pollCompletion := Return tt |}
                   end) by reflexivity.
  destruct (latestEventTime st) as [d|]; cbn [isLatestOf] in Hlat; rewrite Hr;
    cbn [pollForwarded lastAcsEventTime' pollCompletion].
  - destruct Hlat as (m & -> & (e0 & Hin0 & He0) & Hmax).
    destruct (Hnew e0 Hin0) as (t0 & Ht0 & Hlt). rewrite He0 in Ht0. injection Ht0 as <-.
    repeat split; try assumption.
    + intros Hnil. rewrite Hnil in Hin0. by apply elem_of_nil in Hin0.
    + intros _. exists m. repeat split; try assumption. exists e0. by split.
    + exists m. split; [reflexivity|lia].
  - repeat split; try assumption.
    + intros Hne. contradiction.
    + exists w. split; [reflexivity|lia].
Qed.

(** X4. A poll that was started with the valid watermark [w], resuming
    over a batch of readable time strings while the field holds [stored]:
    it forwards exactly the entries whose raw time is strictly greater
    than [w], the watermark it captured. When it forwards nothing it
    leaves the field as it finds it. Otherwise it overwrites the field
    with the greatest raw time it forwarded, which is greater than [w],
    whatever the field holds. So the field does not decrease when it
    still holds a time that is at most [w], as it does when no other poll
    has written it meanwhile; a poll that overlaps one which advanced the
    field further can set it back. *)
Theorem X4_poll_relative_to_captured_watermark (w : Z) (stored : Date)
    (l : list AcsEventInfo) :
  (forall e, e ∈ l -> is_Some (rawTime DateParse e)) ->
  let r := acsPollResumes DateParse deviceTimezone (Some w) stored clock
             (Return (Some l)) in
  pollForwarded r = List.filter (newerThan DateParse (Some w)) l
  /\ (forall e, e ∈ pollForwarded r -> exists t, rawTime DateParse e = Some t /\ w < t)
  /\ (pollForwarded r = [] -> lastAcsEventTime' r = stored)
  /\ (pollForwarded r <> [] ->
      exists m, lastAcsEventTime' r = Some m
        /\ w < m
        /\ (exists e, e ∈ pollForwarded r /\ rawTime DateParse e = Some m)
        /\ (forall e t, e ∈ pollForwarded r -> rawTime DateParse e = Some t -> t <= m))
  /\ (forall s, stored = Some s -> s <= w ->
        exists m, lastAcsEventTime' r = Some m /\ s <= m)
  /\ pollCompletion r = Return tt.
Proof.
  intros Hvalid r.
  set (st0 := {| forwarded := []; emitted := []; latestEventTime := None |}).
  set (st := pollLoop DateParse deviceTimezone (Some (Some w)) clock 0 l st0).
  assert (Hfw : forwarded st = List.filter (newerThan DateParse (Some w)) l)
    by (unfold st; rewrite pollLoop_forwarded; reflexivity).
  assert (Hlat : isLatestOf DateParse (latestEventTime st) (forwarded st))
    by (apply pollLoop_latest; [exact Hvalid|reflexivity]).
  assert (Hnew : forall e, e ∈ forwarded st -> exists t, rawTime DateParse e = Some t /\ w < t).
  { intros e He. rewrite Hfw in He. apply list_elem_of_In, filter_In in He as [He Hn].
    apply list_elem_of_In, Hvalid in He as [t Ht]. exists t. split; [exact Ht|].
    unfold newerThan in Hn. rewrite Ht in Hn. cbn in Hn.
    apply negb_true_iff, Z.leb_gt in Hn. exact Hn. }
  assert (Hr : r = match latestEventTime st with
                   | Some latest =>
                       {| lastAcsEventTime' := latest; pollForwarded := forwarded st;
                          pollEmitted := emitted st; pollCompletion := toISOString latest |}
                   | None =>
                       {| lastAcsEventTime' := stored; pollForwarded := forwarded st;
                          pollEmitted := emitted st; pollCompletion := Return tt |}
                   end) by reflexivity.
  destruct (latestEventTime st) as [d|]; cbn [isLatestOf] in Hlat; rewrite Hr;
    cbn [pollForwarded lastAcsEventTime' pollCompletion].
  - destruct Hlat as (m & -> & (e0 & Hin0 & He0) & Hmax).
    destruct (Hnew e0 Hin0) as (t0 & Ht0 & Hlt). rewrite He0 in Ht0. injection Ht0 as <-.
    split; [exact Hfw|]. split; [exact Hnew|]. split.
    { intros Hnil. rewrite Hnil in Hin0. by apply elem_of_nil in Hin0. }
    split.
    { intros _. exists m. split; [reflexivity|]. split; [exact Hlt|].
      split; [exists e0; by split|exact Hmax]. }
    split; [|reflexivity].
    intros s _ Hs. exists m. split; [reflexivity|lia].
  - split; [exact Hfw|]. split; [exact Hnew|]. split; [reflexivity|].
    split; [intros Hne; contradiction|]. split; [|reflexivity].
    intros s -> _. exists s. split; [reflexivity|lia].
Qed.

End Watermark.

(** C1, at an input where it fails. The device reports [CST+5:00:00]
    (offset -05:00), the host runs in UTC, the watermark is
    2024-01-01T12:00:00Z and the log holds one Unlock entry stamped
    07:00:10 device time, that is 12:00:10Z: ten seconds after the
    watermark, and one second old when it is polled. [processAcsEvent]
    resolves that time through the device timezone and would emit the
    event, but the poller compares the unconverted [new Date (time)] with
    the watermark, skips the entry and leaves the watermark where it was. *)
Theorem C1_poller_skips_newer_entry :
  let parse := IsoDate.parse 0 in
  let deviceTimezone := Some (getDeviceTimezone (Return (Some "CST+5:00:00")) 0) in
  let W := 1704110400000 in
  let entry := {| major := 5; minor := 214; time := "2024-01-01T07:00:10" |} in
  let clock := fun _ : nat => 1704110411000 in
  let r := acsPollingTick parse deviceTimezone (Some W) clock (Return (Some [entry])) in
  convertDeviceTimeToUTC parse deviceTimezone (time entry) = Some (W + 10000)
  /\ processAcsEvent parse deviceTimezone (clock 0%nat) entry = [Emit Unlock "1" false]
  /\ pollForwarded r = []
  /\ pollEmitted r = []
  /\ lastAcsEventTime' r = Some W.
Proof. vm_compute. repeat split. Qed.

(** *** Call status poller *)

Lemma getCallStatus_returns (response : Completion CallData) :
  exists status, getCallStatus response = Return status.
Proof.
  destruct response as [[|status]|e]; cbn; eauto.
Qed.

Lemma last_cons_default {A} (l : list A) (x d : A) :
  List.last (x :: l) d = List.last l x.
Proof.
  revert x d. induction l as [|y l IH]; intros x d; [reflexivity|].
  change (List.last (x :: y :: l) d) with (List.last (y :: l) d).
  rewrite (IH y d), (IH y x). reflexivity.
Qed.

Lemma callStatusTick_edge (lastCallState : string) (response : Completion CallData) :
  callStatusTick lastCallState response
  = (edgeSignal lastCallState (polledState response), polledState response).
Proof.
  unfold callStatusTick, polledState, edgeSignal.
  destruct (getCallStatus_returns response) as [[ring cs] ->]. cbn [callState].
  destruct (String.eqb_spec cs lastCallState) as [->|Hne]; cbn [negb].
  - repeat case_bool_decide; try reflexivity;
      repeat match goal with H : _ /\ _ |- _ => destruct H end; congruence.
  - destruct (String.eqb_spec cs "ringing"), (String.eqb_spec lastCallState "idle"),
      (String.eqb_spec lastCallState "ringing"), (String.eqb_spec cs "idle");
      cbn [andb]; repeat case_bool_decide; try reflexivity;
      repeat match goal with H : _ /\ _ |- _ => destruct H end;
      try congruence; exfalso; tauto.
Qed.

(** C5. The call status poller is edge-triggered: over any sequence of
    polls, started from any remembered state, the emissions are exactly
    one TalkInvite for each transition idle -> ringing and one TalkHangup
    for each transition ringing -> idle between a polled state and the one
    before it, in order, and nothing else; the sequence idle, ringing,
    ringing, idle emits one invite and one hangup. *)
Theorem C5_call_poller_edge_triggered :
  (forall lastCallState responses,
     callStatusPolling lastCallState responses
     = (edgeSignals lastCallState (polledState <$> responses),
        List.last (polledState <$> responses) lastCallState))
  /\ (forall previous current,
        (Emit TalkInvite "1" false ∈ edgeSignal previous current
           <-> previous = "idle" /\ current = "ringing")
        /\ (Emit TalkHangup "1" false ∈ edgeSignal previous current
           <-> previous = "ringing" /\ current = "idle")
        /\ (forall f, f ∈ edgeSignal previous current ->
              f = Emit TalkInvite "1" false \/ f = Emit TalkHangup "1" false))
  /\ fst (callStatusPolling "idle"
            (Return <$> [CallDataValue (Some "idle"); CallDataValue (Some "ringing");
                         CallDataValue (Some "ringing"); CallDataValue (Some "idle")]))
     = [Emit TalkInvite "1" false; Emit TalkHangup "1" false].
Proof.
  split; [|split].
  - intros last responses. revert last.
    induction responses as [|r rs IH]; intros last; cbn [callStatusPolling fmap list_fmap].
    + reflexivity.
    + rewrite callStatusTick_edge, IH. cbn [edgeSignals].
      f_equal. symmetry. apply last_cons_default.
  - intros previous current. unfold edgeSignal.
    repeat case_bool_decide;
      repeat match goal with H : _ /\ _ |- _ => destruct H end; subst;
      rewrite ?list_elem_of_singleton, ?elem_of_nil;
      repeat split; try (intros; congruence); try tauto;
      try (intros f Hf; apply list_elem_of_singleton in Hf; tauto);
      try (intros f Hf; by apply elem_of_nil in Hf);
      try (intros [? ?]; congruence).
  - vm_compute. reflexivity.
Qed.

(** C10. [getCallStatus] never throws: a failed request, an unreadable
    body or a null body all yield [{isRinging: false, callState: 'idle'}].
    A failed poll is therefore processed exactly as a poll that reports
    idle, and with 'ringing' remembered it emits TalkHangup. *)
Theorem C10_failed_poll_reads_as_idle :
  (forall response, exists status, getCallStatus response = Return status)
  /\ (forall e, getCallStatus (Throw e) = Return {| isRinging := false; callState := "idle" |})
  /\ getCallStatus (Return CallDataNull) = Return {| isRinging := false; callState := "idle" |}
  /\ (forall e lastCallState,
        callStatusTick lastCallState (Throw e)
        = callStatusTick lastCallState (Return (CallDataValue (Some "idle"))))
  /\ (forall e, callStatusTick "ringing" (Throw e) = ([Emit TalkHangup "1" false], "idle")).
Proof.
  split; [exact getCallStatus_returns|].
  repeat split; reflexivity.
Qed.

(** *** Capability store *)

Ltac performCapabilitiesLoad_cases response :=
  unfold performCapabilitiesLoad;
  destruct response as [xml|?]; [|reflexivity];
  destruct (doorNoElement xml) as [[?|?]|];
  destruct (cmdElement xml) as [[t|a']|];
  try destruct (truthy t);
  try (destruct (a' !! "opt") as [o|]; [destruct (truthy o)|]);
  reflexivity.

Lemma performCapabilitiesLoad_promise (a : Capabilities)
    (response : Completion DoorCapabilitiesXml) :
  loadCapabilitiesPromise (fst (performCapabilitiesLoad a response))
  = loadCapabilitiesPromise a.
Proof.
  performCapabilitiesLoad_cases response.
Qed.

Lemma performCapabilitiesLoad_loaded (a : Capabilities)
    (response : Completion DoorCapabilitiesXml) :
  capabilitiesLoaded (fst (performCapabilitiesLoad a response))
  = match snd (performCapabilitiesLoad a response) with
    | Return _ => true
    | Throw _ => capabilitiesLoaded a
    end.
Proof.
  performCapabilitiesLoad_cases response.
Qed.

(** Whether the load succeeds depends on the response alone. *)
Lemma performCapabilitiesLoad_outcome (a b : Capabilities)
    (response : Completion DoorCapabilitiesXml) :
  snd (performCapabilitiesLoad a response) = snd (performCapabilitiesLoad b response).
Proof.
  performCapabilitiesLoad_cases response.
Qed.

Lemma run_app (steps1 steps2 : list Step) :
  forall w, run w (steps1 ++ steps2)
            = match run w steps1 with
              | Some w' => run w' steps2
              | None => None
              end.
Proof.
  induction steps1 as [|s steps1 IH]; intros w; cbn [run app]; [reflexivity|].
  destruct (step w s); [apply IH|reflexivity].
Qed.

(** Calls made while a load is in flight are handed its promise and change
    nothing else. *)
Lemma run_calls_in_flight (p : nat) (cs : list nat) :
  forall w,
    capabilitiesLoaded (api w) = false ->
    loadCapabilitiesPromise (api w) = Some p ->
    run w (Call <$> cs)
    = Some {| api := api w; promises := promises w; requestsSent := requestsSent w;
              calls := calls w ++ ((fun c => (c, Follows p)) <$> cs);
              suspended := suspended w |}.
Proof.
  induction cs as [|c cs IH]; intros w Hl Hp; cbn [run fmap list_fmap step].
  - destruct w; cbn. rewrite app_nil_r. reflexivity.
  - unfold loadDoorCapabilities. rewrite Hl, Hp.
    rewrite IH by assumption. cbn. rewrite <- app_assoc. reflexivity.
Qed.

(** Calls made once the capabilities are loaded return at once. *)
Lemma run_calls_loaded (cs : list nat) :
  forall w,
    capabilitiesLoaded (api w) = true ->
    run w (Call <$> cs)
    = Some {| api := api w; promises := promises w; requestsSent := requestsSent w;
              calls := calls w ++ ((fun c => (c, Done)) <$> cs);
              suspended := suspended w |}.
Proof.
  induction cs as [|c cs IH]; intros w Hl; cbn [run fmap list_fmap step].
  - destruct w; cbn. rewrite app_nil_r. reflexivity.
  - unfold loadDoorCapabilities. rewrite Hl.
    rewrite IH by assumption. cbn. rewrite <- app_assoc. reflexivity.
Qed.

(** C4. Capability loading is single-flight. Any number of calls made
    before the response arrives send one request and are all handed the
    same promise; calls made between the settlement and the creator's
    [finally] send none either; every caller observes the outcome of that
    one load. That outcome is the failure of the fetch itself when the
    fetch fails, and success for every document but one whose [cmd]
    element is bare text. After a success the capabilities are loaded.
    After a failure the store is as before the first call, and the next
    call sends a second request whose outcome is that of its own
    response. *)
Theorem C4_single_flight (c0 : nat) (cs gap : list nat)
    (response : Completion DoorCapabilitiesXml) :
  let outcome := fun r => snd (performCapabilitiesLoad initialCapabilities r) in
  let result := outcome response in
  (forall e, outcome (Throw e) = Throw e)
  /\ (forall xml,
        (forall t, cmdElement xml = Some (XmlText t) -> truthy t = false) ->
        outcome (Return xml) = Return tt)
  /\ exists w1 w3,
    run initialWorld (Call c0 :: (Call <$> cs)) = Some w1
    /\ requestsSent w1 = 1%nat
    /\ calls w1 = (fun c => (c, Follows 0)) <$> (c0 :: cs)
    /\ run w1 (Respond 0 response :: (Call <$> gap) ++ [Resume 0]) = Some w3
    /\ requestsSent w3 = 1%nat
    /\ fst <$> calls w3 = c0 :: cs ++ gap
    /\ (forall c h, (c, h) ∈ calls w3 ->
          observed w3 h = Some result
          /\ forall e, response = Throw e -> observed w3 h = Some (Throw e))
    /\ loadCapabilitiesPromise (api w3) = None
    /\ (result = Return tt -> capabilitiesLoaded (api w3) = true)
    /\ (forall e, result = Throw e ->
          capabilitiesLoaded (api w3) = false
          /\ forall c' response',
               exists w5,
                 run w3 [Call c'; Respond 1 response'] = Some w5
                 /\ requestsSent w5 = 2%nat
                 /\ (c', Follows 1) ∈ calls w5
                 /\ observed w5 (Follows 1) = Some (outcome response')).
Proof.
  intros outcome result.
  split; [reflexivity|]. split.
  { intros xml Hcmd. unfold outcome, performCapabilitiesLoad.
    destruct (doorNoElement xml) as [[?|?]|];
      destruct (cmdElement xml) as [[t|a']|];
      try (rewrite (Hcmd t eq_refl));
      try (destruct (a' !! "opt") as [o|]; [destruct (truthy o)|]);
      reflexivity. }
  unfold result, outcome. clear result outcome.
  set (result := snd (performCapabilitiesLoad initialCapabilities response)).
  set (a0 := setLoadCapabilitiesPromise initialCapabilities (Some 0%nat)).
  set (w1 := {| api := a0; promises := [Pending]; requestsSent := 1;
                calls := (fun c => (c, Follows 0)) <$> (c0 :: cs);
                suspended := [0%nat] |}).
  assert (H1 : run initialWorld (Call c0 :: (Call <$> cs)) = Some w1).
  { cbn [run step]. unfold loadDoorCapabilities. cbn.
    rewrite (run_calls_in_flight 0) by reflexivity. reflexivity. }
  pose proof (performCapabilitiesLoad_promise a0 response) as Hp.
  pose proof (performCapabilitiesLoad_loaded a0 response) as Hl.
  pose proof (performCapabilitiesLoad_outcome a0 initialCapabilities response) as Ho.
  fold result in Ho.
  destruct (performCapabilitiesLoad a0 response) as [a1 completion] eqn:Hload.
  cbn [fst snd] in Hp, Hl, Ho. subst completion.
  destruct result as [[]|e] eqn:Hres.
  - (* the load succeeds *)
    set (w3 := {| api := setLoadCapabilitiesPromise a1 None; promises := [Fulfilled];
                  requestsSent := 1;
                  calls := calls w1 ++ ((fun c => (c, Done)) <$> gap);
                  suspended := [] |}).
    exists w1, w3. split; [exact H1|]. split; [reflexivity|]. split; [reflexivity|].
    split.
    { cbn [run step]. change (promises w1 !! 0%nat) with (Some Pending).
      change (api w1) with a0. rewrite Hload.
      rewrite run_app, run_calls_loaded by exact Hl. reflexivity. }
    split; [reflexivity|]. split.
    { cbn [calls w3 w1]. rewrite !fmap_app, <- !list_fmap_compose.
      cbn. rewrite !list_fmap_id. reflexivity. }
    split.
    { assert (Hthrow : forall e0, response = Throw e0 -> result = Throw e0)
        by (intros e0 ->; reflexivity).
      intros c h Hin. cbn [calls w3 w1] in Hin.
      apply elem_of_app in Hin as [Hin|Hin];
        apply list_elem_of_fmap in Hin as (c1 & Heq & _); injection Heq as -> ->;
        (split; [reflexivity|]); intros e0 He0; apply Hthrow in He0;
        rewrite Hres in He0; first [discriminate | injection He0 as ->; reflexivity]. }
    split; [reflexivity|]. split; [intros _; exact Hl|]. intros e He. discriminate.
  - (* the load fails *)
    change (capabilitiesLoaded a0) with false in Hl.
    change (loadCapabilitiesPromise a0) with (Some 0%nat) in Hp.
    set (w3 := {| api := setLoadCapabilitiesPromise a1 None; promises := [Rejected e];
                  requestsSent := 1;
                  calls := calls w1 ++ ((fun c => (c, Follows 0)) <$> gap);
                  suspended := [] |}).
    exists w1, w3. split; [exact H1|]. split; [reflexivity|]. split; [reflexivity|].
    split.
    { cbn [run step]. change (promises w1 !! 0%nat) with (Some Pending).
      change (api w1) with a0. rewrite Hload.
      rewrite run_app, (run_calls_in_flight 0) by assumption. reflexivity. }
    split; [reflexivity|]. split.
    { cbn [calls w3 w1]. rewrite !fmap_app, <- !list_fmap_compose.
      cbn. rewrite !list_fmap_id. reflexivity. }
    split.
    { assert (Hthrow : forall e0, response = Throw e0 -> result = Throw e0)
        by (intros e0 ->; reflexivity).
      intros c h Hin. cbn [calls w3 w1] in Hin.
      apply elem_of_app in Hin as [Hin|Hin];
        apply list_elem_of_fmap in Hin as (c1 & Heq & _); injection Heq as -> ->;
        (split; [reflexivity|]); intros e0 He0; apply Hthrow in He0;
        rewrite Hres in He0; first [discriminate | injection He0 as ->; reflexivity]. }
    split; [reflexivity|]. split; [intros Hok; discriminate|].
    intros e' _. split; [exact Hl|].
    intros c' response'.
    set (a4 := setLoadCapabilitiesPromise (setLoadCapabilitiesPromise a1 None)
                 (Some 1%nat)).
    set (w4 := {| api := a4; promises := [Rejected e; Pending]; requestsSent := 2;
                  calls := calls w3 ++ [(c', Follows 1)]; suspended := [1%nat] |}).
    assert (Hcall : step w3 (Call c') = Some w4).
    { cbn [step]. unfold loadDoorCapabilities.
      change (capabilitiesLoaded (api w3)) with (capabilitiesLoaded a1).
      rewrite Hl. reflexivity. }
    pose proof (performCapabilitiesLoad_outcome a4 initialCapabilities response') as Ho'.
    destruct (performCapabilitiesLoad a4 response') as [a5 completion'] eqn:Hload'.
    cbn [snd] in Ho'. rewrite <- Ho'.
    eexists. split.
    { cbn [run]. rewrite Hcall. cbn [step].
      change (promises w4 !! 1%nat) with (Some Pending).
      change (api w4) with a4. rewrite Hload'. reflexivity. }
    split; [reflexivity|]. split.
    { cbn [calls]. apply elem_of_app. right. apply list_elem_of_singleton.
      reflexivity. }
    cbn. destruct completion' as [[]|]; reflexivity.
Qed.

(** *** Fallback to the cache *)

(** C9 as stated fails in three ways. A cache entry that is the empty
    string exists, but [!xml] holds and the lookup rethrows the request
    error where using the entry would have thrown the parser's TypeError.
    And the door lookup checks the capabilities before it fetches
    anything: with the capabilities not loaded and the device unreachable
    it throws the error of the capability load, and with a door number
    out of range it throws the range error, in both cases with a good
    value in the cache that it never reads. *)
Lemma C9_cached_value_not_used :
  ~ (forall parseDoorParam api loadResponse storage doorNo e xml,
       snd (ensureCapabilities api loadResponse) = Return tt ->
       doorOutOfRange (fst (ensureCapabilities api loadResponse)) doorNo = false ->
       storage !! ("doorOpenDuration_" +:+ doorNo) = Some xml ->
       snd (getDoorOpenDuration parseDoorParam api loadResponse storage doorNo (Throw e))
       = parseDoorParam xml)
  /\ ~ (forall parseDoorParam api loadResponse storage doorNo e xml,
       truthy xml = true ->
       doorOutOfRange (fst (ensureCapabilities api loadResponse)) doorNo = false ->
       storage !! ("doorOpenDuration_" +:+ doorNo) = Some xml ->
       snd (getDoorOpenDuration parseDoorParam api loadResponse storage doorNo (Throw e))
       = parseDoorParam xml)
  /\ ~ (forall parseDoorParam api loadResponse storage doorNo e xml,
       truthy xml = true ->
       snd (ensureCapabilities api loadResponse) = Return tt ->
       storage !! ("doorOpenDuration_" +:+ doorNo) = Some xml ->
       snd (getDoorOpenDuration parseDoorParam api loadResponse storage doorNo (Throw e))
       = parseDoorParam xml).
Proof.
  split; [|split]; intros H.
  - specialize (H (sampleDoorParam 5) loadedCapabilities (Throw (RequestError "unused"))
                  {["doorOpenDuration_1" := ""]} "1" (RequestError "timeout") ""
                  eq_refl eq_refl eq_refl).
    vm_compute in H. discriminate.
  - specialize (H (sampleDoorParam 5) initialCapabilities
                  (Throw (RequestError "capabilities: unreachable"))
                  {["doorOpenDuration_1" := "<DoorParam/>"]} "1"
                  (RequestError "door parameters: unreachable") "<DoorParam/>"
                  eq_refl eq_refl eq_refl).
    vm_compute in H. discriminate.
  - specialize (H (sampleDoorParam 5) loadedCapabilities (Throw (RequestError "unused"))
                  {["doorOpenDuration_2" := "<DoorParam/>"]} "2"
                  (RequestError "timeout") "<DoorParam/>"
                  eq_refl eq_refl eq_refl).
    vm_compute in H. discriminate.
Qed.

(** C9, as amended. The channel-list lookup, and the door open-duration
    lookup once its capability check has passed (the capabilities are
    loaded, or load on demand, and the door number is not out of range):
    when the live fetch fails with [e], a cached value that is a non-empty
    string is used in place of the response and the store is left as it
    is; with no cached value, or with the empty string cached, the lookup
    throws [e] itself. A door open-duration lookup whose capability check
    fails throws the error of that check, the error of the capability
    load or the range error, and leaves the cache unread. *)
Theorem C9_fallback_to_cache
    (parseDoorParam : string -> Completion (option Z))
    (MediaStreamOptions : Type) (id : MediaStreamOptions -> string)
    (stringify : list MediaStreamOptions -> string)
    (parseChannels : string -> Completion (list MediaStreamOptions))
    (api : Capabilities) (loadResponse : Completion DoorCapabilitiesXml)
    (storage : gmap string string) (doorNo : string) (e : Error) :
  let checked := snd (ensureCapabilities api loadResponse) in
  let api1 := fst (ensureCapabilities api loadResponse) in
  let duration := getDoorOpenDuration parseDoorParam api loadResponse storage doorNo (Throw e) in
  let channels := getVideoChannels MediaStreamOptions id stringify parseChannels storage (Throw e) in
  (checked = Return tt -> doorOutOfRange api1 doorNo = false ->
     (forall xml, storage !! ("doorOpenDuration_" +:+ doorNo) = Some xml ->
        truthy xml = true -> duration = (api1, storage, parseDoorParam xml))
     /\ (storage !! ("doorOpenDuration_" +:+ doorNo) = None
         \/ storage !! ("doorOpenDuration_" +:+ doorNo) = Some "" ->
         duration = (api1, storage, Throw e)))
  /\ (forall loadError, checked = Throw loadError ->
        duration = (api1, storage, Throw loadError))
  /\ (checked = Return tt -> doorOutOfRange api1 doorNo = true ->
        exists msg, duration = (api1, storage, Throw (UserError msg)))
  /\ (forall raw, storage !! "channelsJSON" = Some raw -> truthy raw = true ->
      channels = (storage,
                  let* list := parseChannels raw in
                  Return (channelMap MediaStreamOptions id list)))
  /\ (storage !! "channelsJSON" = None \/ storage !! "channelsJSON" = Some "" ->
      channels = (storage, Throw e)).
Proof.
  intros checked api1 duration channels.
  unfold duration, getDoorOpenDuration, channels, getVideoChannels, checked, api1.
  destruct (ensureCapabilities api loadResponse) as [a c] eqn:Hens.
  cbn [fst snd]. split; [|split; [|split; [|split]]].
  - intros -> Hrange. rewrite Hrange. split.
    + intros xml -> ->. reflexivity.
    + intros [-> | ->]; reflexivity.
  - intros loadError ->. reflexivity.
  - intros -> Hrange. rewrite Hrange. eexists. reflexivity.
  - intros raw -> ->. reflexivity.
  - intros [-> | ->]; reflexivity.
Qed.

Lemma C9_fallback_to_cache_witness :
  getDoorOpenDuration (sampleDoorParam 5) loadedCapabilities (Throw (RequestError "unused"))
    {["doorOpenDuration_1" := "<DoorParam><openDuration>5</openDuration></DoorParam>"]}
    "1" (Throw (RequestError "timeout"))
  = (loadedCapabilities,
     {["doorOpenDuration_1" := "<DoorParam><openDuration>5</openDuration></DoorParam>"]},
     Return (Some 5))
  /\ getDoorOpenDuration (sampleDoorParam 5) initialCapabilities
       (Throw (RequestError "capabilities: unreachable"))
       {["doorOpenDuration_1" := "<DoorParam><openDuration>5</openDuration></DoorParam>"]}
       "1" (Throw (RequestError "door parameters: unreachable"))
     = (initialCapabilities,
        {["doorOpenDuration_1" := "<DoorParam><openDuration>5</openDuration></DoorParam>"]},
        Throw (RequestError "capabilities: unreachable"))
  /\ getVideoChannels string (fun c => c) (fun _ => "[]") (fun _ => Return [])
       ∅ (Throw (RequestError "timeout"))
     = (∅, Throw (RequestError "timeout")).
Proof.
  pose proof (C9_fallback_to_cache (sampleDoorParam 5) string (fun c => c)
                (fun _ => "[]") (fun _ => Return [])
                loadedCapabilities (Throw (RequestError "unused"))
                {["doorOpenDuration_1" := "<DoorParam><openDuration>5</openDuration></DoorParam>"]}
                "1" (RequestError "timeout")) as (Hused & _).
  pose proof (C9_fallback_to_cache (sampleDoorParam 5) string (fun c => c)
                (fun _ => "[]") (fun _ => Return [])
                initialCapabilities (Throw (RequestError "capabilities: unreachable"))
                {["doorOpenDuration_1" := "<DoorParam><openDuration>5</openDuration></DoorParam>"]}
                "1" (RequestError "door parameters: unreachable")) as (_ & Hcheck & _).
  pose proof (C9_fallback_to_cache (sampleDoorParam 5) string (fun c => c)
                (fun _ => "[]") (fun _ => Return [])
                loadedCapabilities (Throw (RequestError "unused")) ∅
                "1" (RequestError "timeout")) as (_ & _ & _ & _ & Hnone).
  split; [|split].
  - exact (proj1 (Hused eq_refl eq_refl) _ eq_refl eq_refl).
  - exact (Hcheck _ eq_refl).
  - exact (Hnone (or_introl eq_refl)).
Defined.

(** *** Entity reconciler *)

(** The handler never writes [entryOpen]: DoorOpened and DoorClosed set
    the sensor's [binaryState], the other events leave the sensors alone. *)
Lemma onEvent_entryOpen (n t : Z) (d : Doorbell) (event : HikvisionDoorbellEvent)
    (doorNo key : string) :
  entryOpen <$> (entrySensors (onEvent n t d event doorNo) !! key)
  = entryOpen <$> (entrySensors d !! key).
Proof.
  assert (Hsensor : forall isOpen,
            entryOpen <$> (entrySensors
              (match entrySensors d !! (nativeId d +:+ "-entry-" +:+ doorNo) with
               | Some entrySensor =>
                   setEntrySensors d
                     (<[nativeId d +:+ "-entry-" +:+ doorNo :=
                          {| entryOpen := entryOpen entrySensor;
                             sensorBinaryState := Some isOpen |}]> (entrySensors d))
               | None => d
               end) !! key)
            = entryOpen <$> (entrySensors d !! key)).
  { intros isOpen.
    destruct (entrySensors d !! (nativeId d +:+ "-entry-" +:+ doorNo))
      as [sensor|] eqn:Hs; [|reflexivity].
    cbn [setEntrySensors entrySensors].
    rewrite lookup_insert. case_decide as Hk; [|reflexivity].
    subst key. rewrite Hs. reflexivity. }
  unfold onEvent. destruct event.
  - (* Motion *) cbn -[Z.add Z.leb]. destruct (motionTimeout d); reflexivity.
  - (* CaseTamperAlert *)
    destruct (tamperAlert d); [reflexivity|].
    cbn -[Z.add Z.leb]. destruct (motionTimeout d); reflexivity.
  - (* TalkInvite *) reflexivity.
  - (* TalkHangup *) reflexivity.
  - (* Unlock *)
    destruct (locks d !! (nativeId d +:+ "-lock-" +:+ doorNo)); [|reflexivity].
    cbn. destruct (doorOpenDurationTimeout d); reflexivity.
  - (* Lock *)
    destruct (locks d !! (nativeId d +:+ "-lock-" +:+ doorNo)); [|reflexivity].
    cbn. destruct (doorOpenDurationTimeout d); reflexivity.
  - (* DoorOpened *) apply Hsensor.
  - (* DoorClosed *) apply Hsensor.
  - (* DoorAbnormalOpened *) reflexivity.
  - (* AccessDenied *) reflexivity.
Qed.

(** C7, on the code. A DoorAbnormalOpened event changes nothing at all,
    whether or not the channel has an entry sensor: no branch of the
    handler handles it, and the sensor of door 1 stays Closed instead of
    becoming Jammed. DoorOpened and DoorClosed reach the sensor but set
    its [binaryState], and no event ever changes [entryOpen]. *)
Theorem C7_abnormal_open_not_handled :
  (forall n t d doorNo, onEvent n t d DoorAbnormalOpened doorNo = d)
  /\ entrySensors (onEvent 1 10000 sampleDoorbell DoorAbnormalOpened "1") !! "bell-entry-1"
     = Some {| entryOpen := EntryClosed; sensorBinaryState := None |}
  /\ entrySensors (onEvent 1 10000 sampleDoorbell DoorOpened "1") !! "bell-entry-1"
     = Some {| entryOpen := EntryClosed; sensorBinaryState := Some true |}
  /\ (forall n t d event doorNo key,
        entryOpen <$> (entrySensors (onEvent n t d event doorNo) !! key)
        = entryOpen <$> (entrySensors d !! key)).
Proof.
  split; [reflexivity|]. split; [reflexivity|]. split; [reflexivity|].
  exact onEvent_entryOpen.
Qed.

(** C6, at an input where it fails. One poll of the ACS log returns two
    fresh Unlock entries; both are emitted in the same loop, so the second
    handler runs its [clearTimeout] before the first has set its timer.
    When the two durations (5 s) arrive, two auto-relock timers of 5000 ms
    are pending, only the second one is remembered, and both fire. *)
Theorem C6_two_unlocks_two_relocks :
  let W := 1704110400000 in
  let batch := [unlockAt "2024-01-01T12:00:01"; unlockAt "2024-01-01T12:00:02"] in
  let r := acsPollingTick (IsoDate.parse 0) None (Some W) (fun _ => W + 3000)
             (Return (Some batch)) in
  let relock := {| delay := Some 5000; action := Relock "bell-lock-1" |} in
  pollEmitted r = [Emit Unlock "1" false; Emit Unlock "1" false]
  /\ exists d d',
       reconcile 1 10000 sampleDoorbell
         [Deliver Unlock "1"; Deliver Unlock "1";
          Duration 0 (Return (Some 5)); Duration 0 (Return (Some 5))] = Some d
       /\ pendingRelocks d = [(0%nat, relock); (2%nat, relock)]
       /\ doorOpenDurationTimeout d = Some 2%nat
       /\ reconcile 1 10000 d [Fire 0; Fire 2] = Some d'
       /\ firedRelocks d' = [Relock "bell-lock-1"; Relock "bell-lock-1"].
Proof.
  cbv zeta. split; [vm_compute; reflexivity|].
  eexists. eexists.
  split; [vm_compute; reflexivity|].
  split; [vm_compute; reflexivity|].
  split; [vm_compute; reflexivity|].
  split; vm_compute; reflexivity.
Qed.

(** When the second Unlock is delivered after the first handler has set
    its timer, the auto-relock is as specified: the first timer is
    cancelled, one auto-relock timer is pending, at the duration fetched
    for the second Unlock, and when it fires the lock is Locked. *)
Lemma sequential_unlocks_one_relock (D1 D2 : Z) :
  exists d d',
    reconcile 1 10000 sampleDoorbell
      [Deliver Unlock "1"; Duration 0 (Return (Some D1));
       Deliver Unlock "1"; Duration 0 (Return (Some D2))] = Some d
    /\ pendingRelocks d
       = [(2%nat, {| delay := Some (D2 * 1000); action := Relock "bell-lock-1" |})]
    /\ doorOpenDurationTimeout d = Some 2%nat
    /\ locks d !! "bell-lock-1" = Some Unlocked
    /\ fire d 2 = Some d'
    /\ locks d' !! "bell-lock-1" = Some Locked
    /\ pendingRelocks d' = []
    /\ firedRelocks d' = [Relock "bell-lock-1"].
Proof.
  eexists. eexists.
  split; [vm_compute; reflexivity|].
  split; [vm_compute; reflexivity|].
  split; [vm_compute; reflexivity|].
  split; [vm_compute; reflexivity|].
  split; [vm_compute; reflexivity|].
  repeat split; vm_compute; reflexivity.
Qed.

(** ** Further properties of the ingestion path *)

Section IngestionMore.

Variable DateParse : string -> Date.

(** X1. Whatever an ACS log entry makes the poller emit is the table's
    event for its (major, minor) pair, on channel "1": a pair outside the
    table emits nothing. *)
Theorem X1_acs_emission_from_table (deviceTimezone : option string) (now : Z)
    (eventInfo : AcsEventInfo) (ev : HikvisionDoorbellEvent) (ch : string)
    (b : bool) :
  Emit ev ch b ∈ processAcsEvent DateParse deviceTimezone now eventInfo ->
  EventCodeMap !! (pretty (major eventInfo) +:+ "," +:+ pretty (minor eventInfo))
  = Some ev /\ ch = "1".
Proof.
  unfold processAcsEvent.
  destruct (truthy (time eventInfo)
            && tooOld now (convertDeviceTimeToUTC DateParse deviceTimezone
                             (time eventInfo))).
  - intros H. by apply elem_of_nil in H.
  - destruct (EventCodeMap !! _) as [ev'|].
    + case_bool_decide as Hm; intros H; split; emitted_cases H.
    + intros H. by apply elem_of_nil in H.
Qed.

Lemma processAlertStreamEvent_shape (now : Z) (eventData : AlertStreamEvent) :
  processAlertStreamEvent DateParse now eventData = []
  \/ exists ev ch inactive,
       processAlertStreamEvent DateParse now eventData
       = Emit ev ch inactive
           :: (if bool_decide (ev = Motion) && negb inactive
               then [StartCallStatusPolling] else []).
Proof.
  unfold processAlertStreamEvent.
  repeat match goal with
    | |- context [match ?x with Some _ => _ | None => _ end] => destruct x
    | |- context [if ?x then _ else _] =>
        lazymatch x with
        | bool_decide _ && _ => fail
        | _ => destruct x eqn:?
        end
    end; eauto.
Qed.

(** X2. The call status poller is started by the normalizer exactly when
    an active Motion event is emitted: for an ACS entry when Motion is
    emitted, for a stream event when Motion is emitted with [inactive]
    false. *)
Theorem X2_call_polling_started_by_motion (deviceTimezone : option string)
    (now : Z) :
  (forall eventInfo,
     StartCallStatusPolling ∈ processAcsEvent DateParse deviceTimezone now eventInfo
     <-> Emit Motion "1" false
         ∈ processAcsEvent DateParse deviceTimezone now eventInfo)
  /\ (forall eventData,
     StartCallStatusPolling ∈ processAlertStreamEvent DateParse now eventData
     <-> exists ch, Emit Motion ch false
                    ∈ processAlertStreamEvent DateParse now eventData).
Proof.
  split.
  - intros e. unfold processAcsEvent.
    destruct (truthy (time e) && tooOld now _).
    { split; intros H; by apply elem_of_nil in H. }
    destruct (EventCodeMap !! _) as [ev|].
    2:{ split; intros H; by apply elem_of_nil in H. }
    case_bool_decide as Hm.
    + subst ev. split; intros _.
      * apply elem_of_cons. left. reflexivity.
      * apply elem_of_cons. right. apply list_elem_of_singleton. reflexivity.
    + split; intros H; emitted_cases H.
  - intros e.
    destruct (processAlertStreamEvent_shape now e) as [->|(ev & ch & inactive & ->)].
    { split; [intros H|intros [ch H]]; by apply elem_of_nil in H. }
    case_bool_decide as Hm; destruct inactive; cbn [andb negb];
      try (split; [intros H; emitted_cases H|intros [ch' H]; emitted_cases H]).
    subst ev. split; intros _.
    + exists ch. apply elem_of_cons. left. reflexivity.
    + apply elem_of_cons. right. apply list_elem_of_singleton. reflexivity.
Qed.

(** X3. An ACS entry whose time string cannot be read is never filtered
    by age: whatever the clock reads, a mapped entry is emitted. *)
Theorem X3_unreadable_time_not_filtered (deviceTimezone : option string)
    (now : Z) (eventInfo : AcsEventInfo) (ev : HikvisionDoorbellEvent) :
  convertDeviceTimeToUTC DateParse deviceTimezone (time eventInfo) = None ->
  EventCodeMap !! (pretty (major eventInfo) +:+ "," +:+ pretty (minor eventInfo))
  = Some ev ->
  Emit ev "1" false ∈ processAcsEvent DateParse deviceTimezone now eventInfo.
Proof.
  intros Hnone Hev. unfold processAcsEvent. rewrite Hnone, Hev.
  cbn [tooOld]. rewrite andb_false_r. apply elem_of_cons. left. reflexivity.
Qed.

End IngestionMore.

Lemma X1_acs_emission_from_table_witness :
  EventCodeMap !! "5,214" = Some Unlock /\ "1" = "1".
Proof.
  apply (X1_acs_emission_from_table (fun _ => None) None 0 freshUnlock Unlock "1" false).
  vm_compute. constructor.
Defined.

Lemma X3_unreadable_time_not_filtered_witness :
  Emit Unlock "1" false
  ∈ processAcsEvent (fun _ => None) (Some "+03:00") 0
      {| major := 5; minor := 214; time := "yesterday" |}.
Proof.
  apply (X3_unreadable_time_not_filtered (fun _ => None) (Some "+03:00") 0
           {| major := 5; minor := 214; time := "yesterday" |} Unlock);
    reflexivity.
Defined.

Lemma X4_poll_relative_to_captured_watermark_witness :
  let entries := [unlockAt "2024-01-01T12:00:13"; unlockAt "2024-01-01T11:00:00";
                  unlockAt "2024-01-01T12:00:02"] in
  let r := acsPollResumes (IsoDate.parse 0) None (Some 1704110400000)
             (Some 1704110415000) (fun _ => 1704110416000) (Return (Some entries)) in
  pollForwarded r = [unlockAt "2024-01-01T12:00:13"; unlockAt "2024-01-01T12:00:02"]
  /\ lastAcsEventTime' r = Some 1704110413000.
Proof.
  cbv zeta.
  pose proof (X4_poll_relative_to_captured_watermark (IsoDate.parse 0) None
                (fun _ => 1704110416000) 1704110400000 (Some 1704110415000)
                [unlockAt "2024-01-01T12:00:13"; unlockAt "2024-01-01T11:00:00";
                 unlockAt "2024-01-01T12:00:02"]) as H.
  destruct H as (Hfw & _).
  { intros e He. repeat (apply elem_of_cons in He; destruct He as [->|He]);
      [eexists; reflexivity ..|by apply elem_of_nil in He]. }
  split; [exact Hfw|reflexivity].
Defined.

Section WatermarkEdge.

Variable DateParse : string -> Date.
Variable deviceTimezone : option string.
Variable clock : nat -> Z.

Lemma pollLoop_latest_invalid (lastEventTime : option Date) (l : list AcsEventInfo) :
  forall i st,
    latestEventTime st = Some None ->
    latestEventTime (pollLoop DateParse deviceTimezone lastEventTime clock i l st)
    = Some None.
Proof.
  induction l as [|e l IH]; intros i st Hst; cbn [pollLoop]; [exact Hst|].
  apply IH. unfold pollLoopBody.
  destruct (match lastEventTime with Some w => _ | None => _ end); [exact Hst|].
  cbn [latestEventTime]. rewrite Hst.
  destruct (DateParse (time e)); reflexivity.
Qed.

(** X5. Once the watermark is an invalid date, a poll forwards every entry
    of the batch, whatever its time: no comparison with NaN holds. *)
Theorem X5_invalid_watermark_forwards_all (l : list AcsEventInfo) :
  pollForwarded (acsPollingTick DateParse deviceTimezone None clock (Return (Some l)))
  = l.
Proof.
  assert (Hall : List.filter (newerThan DateParse None) l = l).
  { induction l as [|e l IH]; [reflexivity|].
    cbn [List.filter]. unfold newerThan at 1.
    destruct (rawTime DateParse e); cbn [date_le negb]; f_equal; exact IH. }
  unfold acsPollingTick, pollAndProcessAcsEvents. cbn [default].
  set (st := pollLoop _ _ _ _ _ _ _).
  assert (Hfw : forwarded st = l).
  { unfold st. rewrite pollLoop_forwarded. cbn [forwarded app]. exact Hall. }
  destruct (latestEventTime st); exact Hfw.
Qed.

(** X6. When the first entry of a batch has a time string that cannot be
    read, it is forwarded, the watermark becomes an invalid date whatever
    the other entries are, and the poll ends by throwing the RangeError of
    [toISOString]. *)
Theorem X6_unreadable_time_invalidates_watermark (stored : Date)
    (e : AcsEventInfo) (l : list AcsEventInfo) :
  rawTime DateParse e = None ->
  let r := acsPollingTick DateParse deviceTimezone stored clock
             (Return (Some (e :: l))) in
  e ∈ pollForwarded r
  /\ lastAcsEventTime' r = None
  /\ pollCompletion r = Throw (RangeError "Invalid time value").
Proof.
  intros He r. unfold r, acsPollingTick, pollAndProcessAcsEvents.
  change (default [] (Some (e :: l))) with (e :: l). cbn [pollLoop].
  set (st1 := pollLoopBody _ _ _ _ _ e).
  assert (H1 : latestEventTime st1 = Some None /\ forwarded st1 = [e]).
  { unfold st1, pollLoopBody. fold (rawTime DateParse e). rewrite He.
    split; reflexivity. }
  destruct H1 as [Hl1 Hf1].
  rewrite (pollLoop_latest_invalid (Some stored) l 1 st1 Hl1).
  cbn [pollForwarded lastAcsEventTime' pollCompletion toISOString].
  split; [|split; reflexivity].
  rewrite pollLoop_forwarded, Hf1. apply elem_of_app. left.
  apply list_elem_of_singleton. reflexivity.
Qed.

End WatermarkEdge.

Lemma X6_unreadable_time_invalidates_watermark_witness :
  let r := acsPollingTick (IsoDate.parse 0) None (Some 1704110400000) (fun _ => 0)
             (Return (Some [freshUnlock])) in
  freshUnlock ∈ pollForwarded r
  /\ lastAcsEventTime' r = None
  /\ pollCompletion r = Throw (RangeError "Invalid time value").
Proof.
  exact (X6_unreadable_time_invalidates_watermark (IsoDate.parse 0) None (fun _ => 0)
           (Some 1704110400000) freshUnlock [] eq_refl).
Defined.

(** ** Further properties of the entity reconciler *)

Lemma filter_none {A} (f : A -> bool) (l : list A) :
  (forall x, x ∈ l -> f x = false) -> List.filter f l = [].
Proof.
  induction l as [|x l IH]; intros H; [reflexivity|]. cbn [List.filter].
  rewrite (H x) by (apply elem_of_cons; left; reflexivity).
  apply IH. intros y Hy. apply H. apply elem_of_cons. right. exact Hy.
Qed.

Lemma elem_of_filter_bool {A} (f : A -> bool) (l : list A) (x : A) :
  x ∈ List.filter f l <-> x ∈ l /\ f x = true.
Proof. rewrite !list_elem_of_In. apply filter_In. Qed.

(** After [clearTimeout (holder)], no timer of a tracked kind is pending. *)
Lemma clearTimeout_tracked (a : TimerAction -> bool) (d : Doorbell)
    (holder : option nat) :
  timersTracked a holder d ->
  List.filter (fun t => a (action (snd t))) (timers (clearTimeout d holder)) = [].
Proof.
  intros Htr. apply filter_none. intros [h t] Hin.
  destruct (a (action t)) eqn:Ha; [|exact Ha]. exfalso.
  destruct holder as [h0|]; cbn [clearTimeout] in Hin.
  - destruct d; cbn in Hin. apply elem_of_filter_bool in Hin as [Hin Hne].
    specialize (Htr h t Hin Ha). injection Htr as ->.
    cbn in Hne. rewrite Nat.eqb_refl in Hne. discriminate.
  - specialize (Htr h t Hin Ha). discriminate.
Qed.

Lemma clearTimeout_fresh (d : Doorbell) (holder : option nat) :
  handlesFresh d -> handlesFresh (clearTimeout d holder).
Proof.
  intros Hf h t Hin. destruct holder as [h0|]; [|exact (Hf h t Hin)].
  destruct d; cbn in *. apply elem_of_filter_bool in Hin as [Hin _].
  exact (Hf h t Hin).
Qed.

Lemma find_fresh_handle (l : list (nat * Timer)) (n : nat) (t : Timer)
    (rest : list (nat * Timer)) :
  (forall h t', (h, t') ∈ l -> (h < n)%nat) ->
  List.find (fun x => Nat.eqb (fst x) n) (l ++ (n, t) :: rest) = Some (n, t).
Proof.
  induction l as [|[h t'] l IH]; intros Hf; cbn [app List.find fst].
  - rewrite Nat.eqb_refl. reflexivity.
  - assert (h < n)%nat as Hlt by (apply (Hf h t'), elem_of_cons; left; reflexivity).
    destruct (Nat.eqb_spec h n); [lia|].
    apply IH. intros h' t'' Hin. apply (Hf h' t''), elem_of_cons. right. exact Hin.
Qed.

(** X7. With no handler suspended and the pending auto-relock timer, if
    any, held in [doorOpenDurationTimeout], an Unlock for any door that
    has a lock, followed by the arrival of its duration, leaves exactly
    one auto-relock timer pending, whichever door the earlier one was
    for: the new one, for this door, at 1000 times the duration. When it
    fires, the lock is Locked and no auto-relock is left. *)
Theorem X7_unlock_replaces_relock (n t : Z) (d : Doorbell) (doorNo : string)
    (ls : LockState) (seconds : option Z) :
  let lockNativeId := nativeId d +:+ "-lock-" +:+ doorNo in
  timersTracked isRelock (doorOpenDurationTimeout d) d ->
  handlesFresh d ->
  awaitingDuration d = [] ->
  locks d !! lockNativeId = Some ls ->
  exists d' d'',
    onDuration (onEvent n t d Unlock doorNo) 0 (Return seconds) = Some d'
    /\ locks d' !! lockNativeId = Some Unlocked
    /\ pendingRelocks d'
       = [(nextTimer d, {| delay := (fun s => s * 1000) <$> seconds;
                           action := Relock lockNativeId |})]
    /\ timersTracked isRelock (doorOpenDurationTimeout d') d'
    /\ handlesFresh d'
    /\ awaitingDuration d' = []
    /\ fire d' (nextTimer d) = Some d''
    /\ locks d'' !! lockNativeId = Some Locked
    /\ pendingRelocks d'' = [].
Proof.
  intros lockId Htr Hfresh Haw Hlock.
  pose proof (clearTimeout_tracked isRelock d (doorOpenDurationTimeout d) Htr) as Hclr.
  pose proof (clearTimeout_fresh d (doorOpenDurationTimeout d) Hfresh) as Hcf.
  set (old := timers (clearTimeout d (doorOpenDurationTimeout d))) in *.
  assert (Hold : timers (clearTimeout d (doorOpenDurationTimeout d)) = old) by reflexivity.
  assert (Hnext : nextTimer (clearTimeout d (doorOpenDurationTimeout d)) = nextTimer d)
    by (destruct (doorOpenDurationTimeout d); reflexivity).
  unfold handlesFresh in Hcf. rewrite Hnext in Hcf. fold old in Hcf.
  clearbody old.
  set (relock := {| delay := (fun s => s * 1000) <$> seconds; action := Relock lockId |}).
  set (stop := {| delay := Some OPEN_LOCK_AUDIO_NOTIFY_DURASTION; action := StopRinging |}).
  assert (Hd' : exists d',
             onDuration (onEvent n t d Unlock doorNo) 0 (Return seconds) = Some d'
             /\ locks d' = <[lockId := Unlocked]> (locks d)
             /\ timers d' = old ++ [(nextTimer d, relock); (S (nextTimer d), stop)]
             /\ nextTimer d' = S (S (nextTimer d))
             /\ doorOpenDurationTimeout d' = Some (nextTimer d)
             /\ awaitingDuration d' = []
             /\ fired d' = fired d).
  { unfold onEvent. fold lockId. rewrite Hlock.
    destruct d as [nid lk es ta md bs dot mt mp tm nt aw fr].
    cbn in Haw, Hold |- *. subst aw.
    destruct dot as [h0|]; cbn in Hold |- *; rewrite Hold;
      eexists; (split; [reflexivity|]); cbn; rewrite <- ?app_assoc; repeat split. }
  destruct Hd' as (d' & Hrun & Hlk & Htm & Hnt & Hdot & Haw' & Hfr).
  assert (Hpend : pendingRelocks d' = [(nextTimer d, relock)]).
  { unfold pendingRelocks. rewrite Htm, List.filter_app, Hclr. reflexivity. }
  assert (Hfind : List.find (fun x => Nat.eqb (fst x) (nextTimer d)) (timers d')
                  = Some (nextTimer d, relock)).
  { rewrite Htm. apply find_fresh_handle. exact Hcf. }
  exists d'.
  eexists. split; [exact Hrun|]. split; [rewrite Hlk; apply lookup_insert_eq|].
  split; [exact Hpend|]. split.
  { intros h t' Hin Hrel. rewrite Hdot. f_equal.
    assert (Hp : (h, t') ∈ pendingRelocks d')
      by (apply elem_of_filter_bool; split; assumption).
    rewrite Hpend in Hp. apply list_elem_of_singleton in Hp. congruence. }
  split.
  { intros h t' Hin. rewrite Hnt. rewrite Htm in Hin.
    apply elem_of_app in Hin as [Hin|Hin]; [specialize (Hcf h t' Hin); lia|].
    repeat (apply elem_of_cons in Hin; destruct Hin as [Hin|Hin]);
      [injection Hin as -> _; lia..|by apply elem_of_nil in Hin]. }
  split; [exact Haw'|].
  unfold fire. rewrite Hfind. cbn [action relock runAction].
  split; [reflexivity|]. split.
  - cbn [locks setLocks setFired clearTimeout setTimers].
    rewrite lookup_alter_eq, Hlk, lookup_insert_eq. reflexivity.
  - unfold pendingRelocks. cbn [timers setLocks setFired clearTimeout setTimers].
    rewrite Htm. apply filter_none. intros [h t'] Hin.
    apply elem_of_filter_bool in Hin as [Hin Hne]. cbn [fst snd] in *.
    destruct (isRelock (action t')) eqn:Hrel; [|reflexivity]. exfalso.
    apply elem_of_app in Hin as [Hin|Hin].
    + assert (Hp : (h, t') ∈ List.filter (fun x => isRelock (action (snd x))) old)
        by (apply elem_of_filter_bool; split; assumption).
      rewrite Hclr in Hp. by apply elem_of_nil in Hp.
    + repeat (apply elem_of_cons in Hin; destruct Hin as [Hin|Hin]).
      * injection Hin as -> ->. rewrite Nat.eqb_refl in Hne. discriminate.
      * injection Hin as -> ->. discriminate.
      * by apply elem_of_nil in Hin.
Qed.

Lemma X7_unlock_replaces_relock_witness :
  exists d' d'',
    onDuration (onEvent 1 10000 sampleDoorbell Unlock "1") 0 (Return (Some 5)) = Some d'
    /\ locks d' !! "bell-lock-1" = Some Unlocked
    /\ pendingRelocks d'
       = [(0%nat, {| delay := Some 5000; action := Relock "bell-lock-1" |})]
    /\ timersTracked isRelock (doorOpenDurationTimeout d') d'
    /\ handlesFresh d'
    /\ awaitingDuration d' = []
    /\ fire d' 0 = Some d''
    /\ locks d'' !! "bell-lock-1" = Some Locked
    /\ pendingRelocks d'' = [].
Proof.
  apply (X7_unlock_replaces_relock 1 10000 sampleDoorbell "1" Locked (Some 5)).
  - intros h t H. by apply elem_of_nil in H.
  - intros h t H. by apply elem_of_nil in H.
  - reflexivity.
  - reflexivity.
Defined.

(** X8. A Lock event for a door that has a lock sets it Locked and
    cancels the pending auto-relock timer, when that timer is the one held
    in [doorOpenDurationTimeout]; it suspends no handler. *)
Theorem X8_lock_cancels_relock (n t : Z) (d : Doorbell) (doorNo : string)
    (ls : LockState) :
  let lockNativeId := nativeId d +:+ "-lock-" +:+ doorNo in
  timersTracked isRelock (doorOpenDurationTimeout d) d ->
  locks d !! lockNativeId = Some ls ->
  let d' := onEvent n t d Lock doorNo in
  locks d' !! lockNativeId = Some Locked
  /\ pendingRelocks d' = []
  /\ awaitingDuration d' = awaitingDuration d.
Proof.
  intros lockId Htr Hlock d'.
  pose proof (clearTimeout_tracked isRelock d (doorOpenDurationTimeout d) Htr) as Hclr.
  assert (Hd' : locks d' = <[lockId := Locked]> (locks d)
                /\ timers d' = timers (clearTimeout d (doorOpenDurationTimeout d))
                /\ awaitingDuration d' = awaitingDuration d).
  { unfold d', onEvent. fold lockId. rewrite Hlock.
    destruct d as [nid lk es ta md bs [h0|] mt mp tm nt aw fr]; repeat split. }
  destruct Hd' as (Hlk & Htm & Haw).
  split; [rewrite Hlk; apply lookup_insert_eq|]. split; [|exact Haw].
  unfold pendingRelocks. rewrite Htm. exact Hclr.
Qed.

Lemma X8_lock_cancels_relock_witness :
  locks (onEvent 1 10000 sampleDoorbell Lock "1") !! "bell-lock-1" = Some Locked
  /\ pendingRelocks (onEvent 1 10000 sampleDoorbell Lock "1") = []
  /\ awaitingDuration (onEvent 1 10000 sampleDoorbell Lock "1") = [].
Proof.
  apply (X8_lock_cancels_relock 1 10000 sampleDoorbell "1" Locked).
  - intros h t H. by apply elem_of_nil in H.
  - reflexivity.
Defined.

(** X9. Motion is a decaying pulse. With the pending motion timeout, if
    any, held in [motionTimeout], a Motion event counts one more ping,
    reports motion exactly when the count has reached the number of pings
    needed, and leaves a single motion timeout pending, at the configured
    duration; when that timeout fires, motion is off and the count is 0. *)
Theorem X9_motion_pulse (n t : Z) (d : Doorbell) (doorNo : string) :
  timersTracked isMotionReset (motionTimeout d) d ->
  handlesFresh d ->
  let d' := onEvent n t d Motion doorNo in
  motionPings d' = motionPings d + 1
  /\ motionDetected d' = (n <=? motionPings d + 1)
  /\ pendingMotionResets d'
     = [(nextTimer d, {| delay := Some t; action := MotionReset |})]
  /\ timersTracked isMotionReset (motionTimeout d') d'
  /\ handlesFresh d'
  /\ exists d'',
       fire d' (nextTimer d) = Some d''
       /\ motionDetected d'' = false
       /\ motionPings d'' = 0
       /\ pendingMotionResets d'' = [].
Proof.
  intros Htr Hfresh d'.
  pose proof (clearTimeout_tracked isMotionReset d (motionTimeout d) Htr) as Hclr.
  pose proof (clearTimeout_fresh d (motionTimeout d) Hfresh) as Hcf.
  assert (Hnext : nextTimer (clearTimeout d (motionTimeout d)) = nextTimer d)
    by (destruct (motionTimeout d); reflexivity).
  unfold handlesFresh in Hcf. rewrite Hnext in Hcf.
  set (old := timers (clearTimeout d (motionTimeout d))) in *.
  set (reset := {| delay := Some t; action := MotionReset |}).
  assert (Hd' : motionPings d' = motionPings d + 1
                /\ motionDetected d' = (n <=? motionPings d + 1)
                /\ timers d' = old ++ [(nextTimer d, reset)]
                /\ nextTimer d' = S (nextTimer d)
                /\ motionTimeout d' = Some (nextTimer d)).
  { unfold d', onEvent, old.
    destruct d as [nid lk es ta md bs dot [h0|] mp tm nt aw fr]; repeat split. }
  destruct Hd' as (Hmp & Hmd & Htm & Hnt & Hmt).
  assert (Hpend : pendingMotionResets d' = [(nextTimer d, reset)]).
  { unfold pendingMotionResets. rewrite Htm, List.filter_app, Hclr. reflexivity. }
  assert (Hfind : List.find (fun x => Nat.eqb (fst x) (nextTimer d)) (timers d')
                  = Some (nextTimer d, reset)).
  { rewrite Htm. apply find_fresh_handle. exact Hcf. }
  split; [exact Hmp|]. split; [exact Hmd|]. split; [exact Hpend|]. split.
  { intros h t' Hin Hrel. rewrite Hmt. f_equal.
    assert (Hp : (h, t') ∈ pendingMotionResets d')
      by (apply elem_of_filter_bool; split; assumption).
    rewrite Hpend in Hp. apply list_elem_of_singleton in Hp. congruence. }
  split.
  { intros h t' Hin. rewrite Hnt. rewrite Htm in Hin.
    apply elem_of_app in Hin as [Hin|Hin]; [specialize (Hcf h t' Hin); lia|].
    apply list_elem_of_singleton in Hin. injection Hin as -> _. lia. }
  eexists. unfold fire. rewrite Hfind. cbn [action reset runAction].
  split; [reflexivity|]. split; [reflexivity|]. split; [reflexivity|].
  unfold pendingMotionResets.
  cbn [timers setMotion setFired clearTimeout setTimers].
  rewrite Htm. apply filter_none. intros [h t'] Hin.
  apply elem_of_filter_bool in Hin as [Hin Hne]. cbn [fst snd] in *.
  destruct (isMotionReset (action t')) eqn:Hrel; [|reflexivity]. exfalso.
  apply elem_of_app in Hin as [Hin|Hin].
  - assert (Hp : (h, t') ∈ List.filter (fun x => isMotionReset (action (snd x))) old)
      by (apply elem_of_filter_bool; split; assumption).
    rewrite Hclr in Hp. by apply elem_of_nil in Hp.
  - apply list_elem_of_singleton in Hin. injection Hin as -> ->.
    rewrite Nat.eqb_refl in Hne. discriminate.
Qed.

Lemma X9_motion_pulse_witness :
  let d' := onEvent 2 10000 sampleDoorbell Motion "1" in
  motionPings d' = 1
  /\ motionDetected d' = false
  /\ pendingMotionResets d'
     = [(0%nat, {| delay := Some 10000; action := MotionReset |})]
  /\ timersTracked isMotionReset (motionTimeout d') d'
  /\ handlesFresh d'
  /\ exists d'',
       fire d' 0 = Some d''
       /\ motionDetected d'' = false
       /\ motionPings d'' = 0
       /\ pendingMotionResets d'' = [].
Proof.
  apply (X9_motion_pulse 2 10000 sampleDoorbell "1").
  - intros h t H. by apply elem_of_nil in H.
  - intros h t H. by apply elem_of_nil in H.
Defined.

Lemma onEvent_entities (n t : Z) (d : Doorbell) (event : HikvisionDoorbellEvent)
    (doorNo : string) :
  entities (onEvent n t d event doorNo) = entities d.
Proof.
  assert (Hlock : forall isUnlock : bool,
            entities
              (match locks d !! (nativeId d +:+ "-lock-" +:+ doorNo) with
               | Some _ =>
                   let d1 := clearTimeout
                               (setLocks d (<[nativeId d +:+ "-lock-" +:+ doorNo :=
                                                if isUnlock then Unlocked else Locked]>
                                              (locks d)))
                               (doorOpenDurationTimeout d) in
                   if isUnlock
                   then setAwaitingDuration d1
                          (awaitingDuration d1
                             ++ [(nativeId d +:+ "-lock-" +:+ doorNo, doorNo)])
                   else d1
               | None => d
               end) = entities d).
  { intros isUnlock.
    destruct (locks d !! (nativeId d +:+ "-lock-" +:+ doorNo)) as [ls|] eqn:Hl;
      [|reflexivity].
    unfold entities.
    destruct isUnlock, (doorOpenDurationTimeout d);
      cbn [nativeId locks entrySensors setAwaitingDuration clearTimeout setTimers
           setLocks];
      rewrite dom_insert_lookup_L by (rewrite Hl; eauto); reflexivity. }
  assert (Hsensor : forall isOpen : bool,
            entities
              (match entrySensors d !! (nativeId d +:+ "-entry-" +:+ doorNo) with
               | Some entrySensor =>
                   setEntrySensors d
                     (<[nativeId d +:+ "-entry-" +:+ doorNo :=
                          {| entryOpen := entryOpen entrySensor;
                             sensorBinaryState := Some isOpen |}]> (entrySensors d))
               | None => d
               end) = entities d).
  { intros isOpen.
    destruct (entrySensors d !! (nativeId d +:+ "-entry-" +:+ doorNo))
      as [sensor|] eqn:Hs; [|reflexivity].
    unfold entities. cbn [nativeId locks entrySensors setEntrySensors].
    rewrite dom_insert_lookup_L by (rewrite Hs; eauto). reflexivity. }
  unfold onEvent. destruct event.
  - (* Motion *) cbn -[Z.add Z.leb]. destruct (motionTimeout d); reflexivity.
  - (* CaseTamperAlert *)
    destruct (tamperAlert d); [reflexivity|].
    cbn -[Z.add Z.leb]. destruct (motionTimeout d); reflexivity.
  - (* TalkInvite *) reflexivity.
  - (* TalkHangup *) reflexivity.
  - (* Unlock *) apply (Hlock true).
  - (* Lock *) apply (Hlock false).
  - (* DoorOpened *) apply Hsensor.
  - (* DoorClosed *) apply Hsensor.
  - (* DoorAbnormalOpened *) reflexivity.
  - (* AccessDenied *) reflexivity.
Qed.

Lemma onDuration_entities (d d' : Doorbell) (k : nat)
    (duration : Completion (option Z)) :
  onDuration d k duration = Some d' -> entities d' = entities d.
Proof.
  unfold onDuration. destruct (awaitingDuration d !! k) as [[lockId doorNo]|];
    [|discriminate].
  destruct duration; intros [= <-]; reflexivity.
Qed.

Lemma fire_entities (d d' : Doorbell) (handle : nat) :
  fire d handle = Some d' -> entities d' = entities d.
Proof.
  unfold fire. destruct (List.find _ (timers d)) as [[h t]|]; [|discriminate].
  intros [= <-]. destruct (action t); try reflexivity.
  unfold entities. cbn [runAction nativeId locks entrySensors setLocks setFired
                        clearTimeout setTimers].
  rewrite dom_alter_L. reflexivity.
Qed.

(** X10. The reconciler never creates or removes an entity: over any
    sequence of deliveries, arrivals of durations and firings of timers,
    the doorbell keeps its identifier and the identifiers of its locks and
    of its entry sensors. *)
Theorem X10_entities_preserved (n t : Z) (steps : list ReconcilerStep) :
  forall d d', reconcile n t d steps = Some d' -> entities d' = entities d.
Proof.
  induction steps as [|s steps IH]; intros d d'; cbn [reconcile].
  - intros [= <-]. reflexivity.
  - destruct (reconcilerStep n t d s) as [d1|] eqn:Hstep; [|discriminate].
    intros Hrun. rewrite (IH _ _ Hrun).
    destruct s; cbn [reconcilerStep] in Hstep.
    + injection Hstep as <-. apply onEvent_entities.
    + exact (onDuration_entities _ _ _ _ Hstep).
    + exact (fire_entities _ _ _ Hstep).
Qed.

Lemma X10_entities_preserved_witness :
  exists d',
    reconcile 1 10000 sampleDoorbell
      [Deliver Unlock "1"; Deliver Unlock "7"; Duration 0 (Return (Some 5)); Fire 0]
    = Some d'
    /\ entities d' = entities sampleDoorbell.
Proof.
  eexists. split; [vm_compute; reflexivity|].
  apply (X10_entities_preserved 1 10000
           [Deliver Unlock "1"; Deliver Unlock "7"; Duration 0 (Return (Some 5)); Fire 0]).
  vm_compute. reflexivity.
Defined.

(** ** Door control and the lock entity *)

Lemma ensureCapabilities_loaded (api : Capabilities)
    (loadResponse : Completion DoorCapabilitiesXml) (u : unit) :
  snd (ensureCapabilities api loadResponse) = Return u ->
  capabilitiesLoaded (fst (ensureCapabilities api loadResponse)) = true.
Proof.
  unfold ensureCapabilities. destruct (capabilitiesLoaded api) eqn:Hl; [intros _; exact Hl|].
  intros H. rewrite performCapabilitiesLoad_loaded, H. reflexivity.
Qed.

Lemma ensureCapabilities_idem (api : Capabilities)
    (loadResponse : Completion DoorCapabilitiesXml) :
  capabilitiesLoaded api = true ->
  ensureCapabilities api loadResponse = (api, Return tt).
Proof. intros H. unfold ensureCapabilities. rewrite H. reflexivity. Qed.

Section DoorControlFacts.

Variable Response : Type.
Variable endpoint : string.

Lemma controlDoor_cases (api : Capabilities)
    (loadResponse : Completion DoorCapabilitiesXml) (doorNo command : string)
    (response : Completion Response) :
  let api1 := fst (ensureCapabilities api loadResponse) in
  (exists e, controlDoor Response endpoint api loadResponse doorNo command response
             = (api1, [], Throw e))
  \/ (controlDoor Response endpoint api loadResponse doorNo command response
      = (api1, [controlDoorRequest endpoint doorNo command], response)
      /\ capabilitiesLoaded api1 = true
      /\ doorOutOfRange api1 doorNo = false
      /\ command ∈ availableCommands api1).
Proof.
  intros api1. unfold controlDoor.
  pose proof (ensureCapabilities_loaded api loadResponse) as Hl. fold api1 in Hl.
  subst api1. destruct (ensureCapabilities api loadResponse) as [a loaded].
  cbn [fst snd] in *. destruct loaded as [u|e]; cbn [bind]; [|left; eauto].
  unfold validateDoorControl.
  destruct (doorOutOfRange a doorNo) eqn:Hr; [left; eauto|].
  case_bool_decide as Hc; cbn [negb]; [|left; eauto].
  right. repeat split; eauto.
Qed.


(** X12. A lock entity changes state only when the device has accepted
    the command. [lock ()] that returns has sent one PUT, with 'close'
    when the capabilities list it and with 'resume' otherwise, a command
    the capabilities list, and the state is Locked; [unlock ()] that
    returns has sent 'open' and the state is Unlocked. When either throws,
    the state is what it was. *)
Theorem X12_lock_state_follows_device (api : Capabilities)
    (loadResponse : Completion DoorCapabilitiesXml) (lockState : LockState)
    (doorNumber : string) (response : Completion Response) :
  (let '(api2, requests, lockState', result) :=
     lock Response endpoint api loadResponse lockState doorNumber response in
   match result with
   | Return _ =>
       lockState' = Locked
       /\ (exists r, response = Return r)
       /\ exists command,
            requests = [controlDoorRequest endpoint doorNumber command]
            /\ command ∈ availableCommands api2
            /\ (command = "close"
                \/ command = "resume" /\ "close" ∉ availableCommands api2)
   | Throw _ => lockState' = lockState
   end)
  /\ (let '(api1, requests, lockState', result) :=
        unlock Response endpoint api loadResponse lockState doorNumber response in
      match result with
      | Return _ =>
          lockState' = Unlocked
          /\ (exists r, response = Return r)
          /\ requests = [controlDoorRequest endpoint doorNumber "open"]
          /\ "open" ∈ availableCommands api1
      | Throw _ => lockState' = lockState
      end).
Proof.
  split.
  - unfold lock, getDoorControlCapabilities.
    pose proof (ensureCapabilities_loaded api loadResponse) as Hl.
    destruct (ensureCapabilities api loadResponse) as [a loaded].
    cbn [fst snd] in Hl. destruct loaded as [[]|e]; cbn [bind]; [|reflexivity].
    specialize (Hl tt eq_refl).
    set (command := if bool_decide ("close" ∈ availableCommands a)
                    then "close" else "resume").
    pose proof (controlDoor_cases a loadResponse doorNumber command response) as Hc.
    rewrite (ensureCapabilities_idem a loadResponse Hl) in Hc. cbn [fst] in Hc.
    destruct Hc as [[e ->]|(-> & _ & _ & Hin)]; [reflexivity|].
    destruct response as [r|e]; [|reflexivity].
    split; [reflexivity|]. split; [eauto|]. exists command.
    split; [reflexivity|]. split; [exact Hin|].
    unfold command. case_bool_decide; [left; reflexivity|right; split; [reflexivity|assumption]].
  - unfold unlock.
    destruct (controlDoor_cases api loadResponse doorNumber "open" response)
      as [[e ->]|(-> & _ & _ & Hin)]; [reflexivity|].
    destruct response as [r|e]; [|reflexivity].
    repeat split; eauto.
Qed.

(** X13. A door number that [parseInt] cannot read is not rejected by the
    range check: with the capabilities loaded and a listed command, the
    PUT is sent to the URL built from that string. *)
Theorem X13_unreadable_door_number_passes (api : Capabilities)
    (loadResponse : Completion DoorCapabilitiesXml) (doorNo command : string)
    (response : Completion Response) :
  parseInt doorNo = None ->
  capabilitiesLoaded api = true ->
  command ∈ availableCommands api ->
  controlDoor Response endpoint api loadResponse doorNo command response
  = (api, [controlDoorRequest endpoint doorNo command], response).
Proof.
  intros Hp Hl Hc. unfold controlDoor.
  rewrite (ensureCapabilities_idem api loadResponse Hl). cbn [bind].
  unfold validateDoorControl, doorOutOfRange. rewrite Hp.
  rewrite bool_decide_true by exact Hc. reflexivity.
Qed.

End DoorControlFacts.

Lemma X13_unreadable_door_number_passes_witness :
  controlDoor string "192.0.2.1:80" loadedCapabilities (Throw (RequestError "unused"))
    "front" "open" (Return "OK")
  = (loadedCapabilities,
     [controlDoorRequest "192.0.2.1:80" "front" "open"], Return "OK").
Proof.
  apply (X13_unreadable_door_number_passes string "192.0.2.1:80" loadedCapabilities
           (Throw (RequestError "unused")) "front" "open" (Return "OK")).
  - reflexivity.
  - reflexivity.
  - apply elem_of_cons. left. reflexivity.
Defined.

(** ** Life cycle of the call status poller *)

Lemma removeHandle_singleton (h : nat) : removeHandle h [h] = [].
Proof. unfold removeHandle. cbn. rewrite Nat.eqb_refl. reflexivity. Qed.

Ltac polling_finish :=
  unfold callPollingConsistent; cbn; rewrite ?Nat.eqb_refl; cbn;
  repeat split; try reflexivity; try tauto;
  try (intros; discriminate); try (intros [? ?]; discriminate); eauto.

Lemma reset_consistent (p : CallPolling) :
  callPollingConsistent p -> isCallPollingActive p = true ->
  callPollingConsistent (resetCallStatusPollingTimeout p)
  /\ callStatusInterval (resetCallStatusPollingTimeout p) = callStatusInterval p.
Proof.
  intros (Hi & Ht & Hai & Hat) Hact.
  destruct p as [i t a ri pt nh]; cbn in *. subst.
  unfold resetCallStatusPollingTimeout.
  destruct t as [h|]; polling_finish.
Qed.

Lemma start_consistent (p : CallPolling) :
  callPollingConsistent p ->
  callPollingConsistent (startCallStatusPolling p)
  /\ isCallPollingActive (startCallStatusPolling p) = true.
Proof.
  intros Hc. unfold startCallStatusPolling.
  destruct (bool_decide (is_Some (callStatusInterval p)) || isCallPollingActive p)
    eqn:Hguard.
  - assert (Hact : isCallPollingActive p = true).
    { destruct Hc as (_ & _ & Hai & _).
      apply orb_true_iff in Hguard as [Hg|Hg]; [|exact Hg].
      apply bool_decide_eq_true in Hg. apply Hai. exact Hg. }
    split; [apply reset_consistent; assumption|exact Hact].
  - apply orb_false_iff in Hguard as [_ Hina].
    destruct Hc as (Hi & Ht & Hai & Hat).
    destruct p as [i t a ri pt nh]; cbn in *. subst.
    assert (i = None) as ->
      by (destruct i; [exfalso; assert (false = true) by (apply Hai; eauto);
                       discriminate|reflexivity]).
    assert (t = None) as ->
      by (destruct t; [exfalso; assert (false = true) by (apply Hat; eauto);
                       discriminate|reflexivity]).
    unfold resetCallStatusPollingTimeout. polling_finish.
Qed.

Lemma stop_clean (p : CallPolling) :
  callPollingConsistent p ->
  let p' := stopCallStatusPolling p in
  callPollingConsistent p'
  /\ runningIntervals p' = [] /\ pendingTimeouts p' = []
  /\ isCallPollingActive p' = false.
Proof.
  intros (Hi & Ht & Hai & Hat).
  destruct p as [[i|] [t|] a ri pt nh]; cbn in *; subst; polling_finish.
Qed.

Lemma expire_clean (p p' : CallPolling) (h : nat) :
  callPollingConsistent p ->
  expireCallStatusPolling p h = Some p' ->
  callPollingConsistent p'
  /\ runningIntervals p' = [] /\ pendingTimeouts p' = []
  /\ isCallPollingActive p' = false.
Proof.
  intros (Hi & Ht & Hai & Hat). unfold expireCallStatusPolling.
  case_bool_decide as Hin; [|discriminate]. intros [= <-].
  destruct p as [[i|] [t|] a ri pt nh]; cbn in *; subst;
    try (by apply elem_of_nil in Hin).
  - apply list_elem_of_singleton in Hin. subst h.
    polling_finish.
  - apply list_elem_of_singleton in Hin. subst h.
    polling_finish.
Qed.

Lemma callPollingOp_consistent (p p' : CallPolling) (op : CallPollingOp) :
  callPollingConsistent p -> callPollingOp p op = Some p' ->
  callPollingConsistent p'.
Proof.
  intros Hc. destruct op; cbn [callPollingOp].
  - intros [= <-]. apply start_consistent. exact Hc.
  - intros [= <-]. apply stop_clean. exact Hc.
  - intros He. exact (proj1 (expire_clean _ _ _ Hc He)).
Qed.

Lemma callPollingOps_consistent (ops : list CallPollingOp) :
  forall p p', callPollingConsistent p -> callPollingOps p ops = Some p' ->
               callPollingConsistent p'.
Proof.
  induction ops as [|op ops IH]; intros p p' Hc; cbn [callPollingOps].
  - intros [= <-]. exact Hc.
  - destruct (callPollingOp p op) as [p1|] eqn:Hop; [|discriminate].
    apply IH. exact (callPollingOp_consistent _ _ _ Hc Hop).
Qed.

Lemma initialCallPolling_consistent : callPollingConsistent initialCallPolling.
Proof.
  polling_finish.
Qed.

(** X14. However starts, stops and expiries of the idle timer follow one
    another, the call status poller has at most one interval running and
    at most one idle timer pending: those held in its fields, present
    together exactly while the poller is marked active. *)
Theorem X14_call_polling_single_loop (ops : list CallPollingOp) (p : CallPolling) :
  callPollingOps initialCallPolling ops = Some p ->
  runningIntervals p = option_list (callStatusInterval p)
  /\ pendingTimeouts p = option_list (callStatusStopTimeout p)
  /\ (isCallPollingActive p = true <-> is_Some (callStatusInterval p))
  /\ (isCallPollingActive p = true <-> is_Some (callStatusStopTimeout p)).
Proof.
  exact (callPollingOps_consistent ops _ _ initialCallPolling_consistent).
Qed.

(** X15. After any history: a start leaves the poller active and, when it
    was already active, keeps the running interval and only replaces the
    idle timer by a new one; a stop, or the expiry of the idle timer,
    leaves nothing running and nothing pending. *)
Theorem X15_call_polling_start_stop (ops : list CallPollingOp) (p : CallPolling) :
  callPollingOps initialCallPolling ops = Some p ->
  (isCallPollingActive (startCallStatusPolling p) = true
   /\ (isCallPollingActive p = true ->
       callStatusInterval (startCallStatusPolling p) = callStatusInterval p
       /\ pendingTimeouts (startCallStatusPolling p) = [nextHandle p]))
  /\ (runningIntervals (stopCallStatusPolling p) = []
      /\ pendingTimeouts (stopCallStatusPolling p) = []
      /\ isCallPollingActive (stopCallStatusPolling p) = false)
  /\ (forall h p', expireCallStatusPolling p h = Some p' ->
        runningIntervals p' = [] /\ pendingTimeouts p' = []
        /\ isCallPollingActive p' = false).
Proof.
  intros Hrun.
  pose proof (callPollingOps_consistent ops _ _ initialCallPolling_consistent Hrun) as Hc.
  split; [split|split].
  - apply start_consistent. exact Hc.
  - intros Hact. unfold startCallStatusPolling. rewrite Hact, orb_true_r.
    split; [apply reset_consistent; assumption|].
    destruct Hc as (_ & Ht & _ & _).
    unfold resetCallStatusPollingTimeout; cbn. rewrite Ht.
    destruct (callStatusStopTimeout p); cbn; rewrite ?Nat.eqb_refl; reflexivity.
  - apply (stop_clean p Hc).
  - intros h p' He. apply (expire_clean p p' h Hc He).
Qed.

Lemma X14_call_polling_single_loop_witness :
  exists p,
    callPollingOps initialCallPolling
      [StartPolling; StartPolling; ExpirePolling 2; StartPolling] = Some p
    /\ runningIntervals p = [3%nat] /\ pendingTimeouts p = [4%nat].
Proof.
  eexists. split; [reflexivity|].
  destruct (X14_call_polling_single_loop
              [StartPolling; StartPolling; ExpirePolling 2; StartPolling] _ eq_refl)
    as (Hi & Ht & _).
  split; [exact Hi|exact Ht].
Defined.

Lemma X15_call_polling_start_stop_witness :
  runningIntervals
    (stopCallStatusPolling (startCallStatusPolling (startCallStatusPolling initialCallPolling)))
  = [].
Proof.
  exact (proj1 (proj1 (proj2 (X15_call_polling_start_stop
                                [StartPolling; StartPolling] _ eq_refl)))).
Defined.

(** ** RTP multiplexer *)

Lemma fmap_inj_on_NoDup {A B} (f : A -> B) (l : list A) :
  NoDup (f <$> l) -> forall x y, x ∈ l -> y ∈ l -> f x = f y -> x = y.
Proof.
  induction l as [|a l IH]; intros Hnd x y Hx Hy Hf.
  - by apply elem_of_nil in Hx.
  - cbn in Hnd. apply NoDup_cons in Hnd as [Hna Hnd].
    apply elem_of_cons in Hx as [->|Hx]; apply elem_of_cons in Hy as [->|Hy].
    + reflexivity.
    + exfalso. apply Hna. rewrite Hf. apply list_elem_of_fmap. eauto.
    + exfalso. apply Hna. rewrite <- Hf. apply list_elem_of_fmap. eauto.
    + exact (IH Hnd x y Hx Hy Hf).
Qed.

Lemma fmap_filter_bool {A B} (f : A -> B) (p : A -> bool) (q : B -> bool)
    (l : list A) :
  (forall x, x ∈ l -> p x = q (f x)) ->
  f <$> List.filter p l = List.filter q (f <$> l).
Proof.
  induction l as [|a l IH]; intros H; [reflexivity|]. cbn.
  rewrite <- (H a) by (apply elem_of_cons; left; reflexivity).
  rewrite <- IH by (intros x Hx; apply H, elem_of_cons; right; exact Hx).
  destruct (p a); reflexivity.
Qed.

Lemma NoDup_fmap_filter_bool {A B} (f : A -> B) (p : A -> bool) (l : list A) :
  NoDup (f <$> l) -> NoDup (f <$> List.filter p l).
Proof.
  induction l as [|a l IH]; intros Hnd; [exact Hnd|]. cbn in *.
  apply NoDup_cons in Hnd as [Hna Hnd]. destruct (p a); [|exact (IH Hnd)].
  cbn. apply NoDup_cons. split; [|exact (IH Hnd)].
  intros Hin. apply Hna. apply list_elem_of_fmap in Hin as (x & -> & Hx).
  apply elem_of_filter_bool in Hx as [Hx _]. apply list_elem_of_fmap. eauto.
Qed.

Lemma getTarget_Some (m : RtpMultiplexer) (id : string) (t : Target) :
  getTarget m id = Some t -> (id, t) ∈ targets m.
Proof.
  unfold getTarget. destruct (List.find _ (targets m)) as [[k t']|] eqn:Hf;
    [|discriminate].
  intros [= <-]. apply find_some in Hf as [Hin Hk]. cbn in Hk.
  apply String.eqb_eq in Hk. subst k. apply list_elem_of_In. exact Hin.
Qed.

Lemma getTarget_None (m : RtpMultiplexer) (id : string) :
  getTarget m id = None -> id ∉ (fst <$> targets m).
Proof.
  unfold getTarget. destruct (List.find _ (targets m)) as [kv|] eqn:Hf;
    [discriminate|]. intros _ Hin.
  apply list_elem_of_fmap in Hin as ([k t] & -> & Hin).
  apply list_elem_of_In in Hin.
  pose proof (find_none _ _ Hf _ Hin) as Hk. cbn in Hk.
  rewrite String.eqb_refl in Hk. discriminate.
Qed.

Lemma filter_key_absent (l : list (string * Target)) (id : string) :
  id ∉ (fst <$> l) ->
  List.filter (fun kv => negb (String.eqb (fst kv) id)) l = l.
Proof.
  induction l as [|[k t] l IH]; intros Hn; [reflexivity|]. cbn.
  destruct (String.eqb_spec k id) as [->|Hne]; cbn.
  - exfalso. apply Hn. cbn. apply elem_of_cons. left. reflexivity.
  - f_equal. apply IH. intros Hin. apply Hn. cbn. apply elem_of_cons. right. exact Hin.
Qed.

(** [removeTarget] filters the targets, whether or not the id is there. *)
Lemma removeTarget_targets (m : RtpMultiplexer) (id : string) :
  targets (removeTarget m id)
  = List.filter (fun kv => negb (String.eqb (fst kv) id)) (targets m).
Proof.
  unfold removeTarget. destruct (getTarget m id) eqn:Hg; [reflexivity|].
  symmetry. apply filter_key_absent, getTarget_None. exact Hg.
Qed.

Lemma removeTarget_consistent (m : RtpMultiplexer) (id : string) :
  multiplexerConsistent m -> multiplexerConsistent (removeTarget m id).
Proof.
  intros (Hk & Hs & Ho & Hf). unfold removeTarget.
  destruct (getTarget m id) as [t|] eqn:Hg; [|repeat split; assumption].
  apply getTarget_Some in Hg.
  assert (Hcorr : forall kv, kv ∈ targets m ->
            negb (String.eqb (fst kv) id)
            = negb (Nat.eqb (targetSocket (snd kv)) (targetSocket t))).
  { intros [k t'] Hin. cbn. f_equal.
    destruct (String.eqb_spec k id) as [->|Hne].
    - assert ((id, t') = (id, t))
        by (apply (fmap_inj_on_NoDup fst (targets m) Hk); auto).
      symmetry. apply Nat.eqb_eq. congruence.
    - symmetry. apply Nat.eqb_neq. intros Heq. apply Hne.
      assert ((k, t') = (id, t))
        by (apply (fmap_inj_on_NoDup (fun kv => targetSocket (snd kv))
                     (targets m) Hs); auto).
      congruence. }
  unfold multiplexerConsistent; cbn [targets openSockets nextSocket].
  split; [apply NoDup_fmap_filter_bool; exact Hk|].
  split; [apply NoDup_fmap_filter_bool; exact Hs|].
  assert (Hopen : fst <$> List.filter
                    (fun s => negb (Nat.eqb (fst s) (targetSocket t))) (openSockets m)
                  = List.filter (fun s => negb (Nat.eqb s (targetSocket t)))
                      (fst <$> openSockets m))
    by (apply fmap_filter_bool; reflexivity).
  split.
  - rewrite Hopen, Ho. symmetry.
    apply (fmap_filter_bool (fun kv => targetSocket (snd kv))). exact Hcorr.
  - intros s Hin. apply Hf. rewrite Hopen in Hin.
    apply elem_of_filter_bool in Hin as [Hin _]. exact Hin.
Qed.

Section MultiplexerFacts.

Variable udpSocketType : string -> string.

Lemma addTarget_fresh (m : RtpMultiplexer) (id ip : string) (port : Z) :
  multiplexerConsistent m -> id ∉ (fst <$> targets m) ->
  multiplexerConsistent
    {| targets := targets m ++ [(id, {| targetIp := ip; targetPort := port;
                                        targetSocket := nextSocket m |})];
       packetCount := packetCount m;
       openSockets := openSockets m ++ [(nextSocket m, udpSocketType ip)];
       nextSocket := S (nextSocket m);
       sent := sent m |}.
Proof.
  intros (Hk & Hs & Ho & Hf) Hid.
  unfold multiplexerConsistent; cbn [targets openSockets nextSocket].
  rewrite !fmap_app. cbn [fmap list_fmap fst snd targetSocket].
  assert (Hnew : nextSocket m ∉ (fst <$> openSockets m))
    by (intros Hin; specialize (Hf _ Hin); lia).
  split; [|split; [|split]].
  - apply NoDup_app. split; [exact Hk|]. split; [|apply NoDup_singleton].
    intros x Hx Hx'. apply list_elem_of_singleton in Hx'. subst x. exact (Hid Hx).
  - apply NoDup_app. split; [exact Hs|]. split; [|apply NoDup_singleton].
    intros x Hx Hx'. apply list_elem_of_singleton in Hx'. subst x.
    apply Hnew. rewrite Ho. exact Hx.
  - rewrite Ho. reflexivity.
  - intros s Hin. apply elem_of_app in Hin as [Hin|Hin].
    + specialize (Hf _ Hin). lia.
    + apply list_elem_of_singleton in Hin. subst s. lia.
Qed.

Lemma removeTarget_absent (m : RtpMultiplexer) (id : string) :
  id ∉ (fst <$> targets (removeTarget m id)).
Proof.
  rewrite removeTarget_targets. intros Hin.
  apply list_elem_of_fmap in Hin as ([k t] & -> & Hin).
  apply elem_of_filter_bool in Hin as [_ Hne]. cbn in Hne.
  rewrite String.eqb_refl in Hne. discriminate.
Qed.

Lemma addTarget_consistent (m : RtpMultiplexer) (id ip : string) (port : Z) :
  multiplexerConsistent m ->
  multiplexerConsistent (addTarget udpSocketType m id ip port).
Proof.
  intros Hc. unfold addTarget. destruct (getTarget m id) as [t|] eqn:Hg.
  - apply addTarget_fresh; [apply removeTarget_consistent; exact Hc|].
    apply removeTarget_absent.
  - apply addTarget_fresh; [exact Hc|]. apply getTarget_None. exact Hg.
Qed.

Lemma sendRtp_consistent (m : RtpMultiplexer) (rtp : string) (throws : nat -> bool) :
  multiplexerConsistent m -> multiplexerConsistent (sendRtp m rtp throws).
Proof.
  intros Hc. unfold sendRtp, multiplexerConsistent in *.
  destruct (targets m) eqn:Ht; cbn [targets openSockets nextSocket]; exact Hc.
Qed.

Lemma foldl_removeTarget_consistent (ids : list string) :
  forall m, multiplexerConsistent m ->
            multiplexerConsistent (foldl removeTarget m ids).
Proof.
  induction ids as [|id ids IH]; intros m Hc; [exact Hc|].
  cbn [foldl]. apply IH, removeTarget_consistent, Hc.
Qed.

Lemma foldl_removeTarget_targets (ids : list string) :
  forall m kv, kv ∈ targets (foldl removeTarget m ids) ->
               kv ∈ targets m /\ fst kv ∉ ids.
Proof.
  induction ids as [|id ids IH]; intros m kv Hin; cbn [foldl] in Hin.
  - split; [exact Hin|]. intros H. by apply elem_of_nil in H.
  - apply IH in Hin as [Hin Hni]. rewrite removeTarget_targets in Hin.
    apply elem_of_filter_bool in Hin as [Hin Hne]. split; [exact Hin|].
    intros H. apply elem_of_cons in H as [Heq|H]; [|exact (Hni H)].
    rewrite Heq, String.eqb_refl in Hne. discriminate.
Qed.

Lemma multiplexerOp_consistent (m : RtpMultiplexer) (op : MultiplexerOp) :
  multiplexerConsistent m ->
  multiplexerConsistent (multiplexerOp udpSocketType m op).
Proof.
  intros Hc. destruct op; cbn [multiplexerOp].
  - apply addTarget_consistent, Hc.
  - apply removeTarget_consistent, Hc.
  - apply sendRtp_consistent, Hc.
  - apply foldl_removeTarget_consistent, Hc.
Qed.

Lemma emptyMultiplexer_consistent : multiplexerConsistent emptyMultiplexer.
Proof.
  unfold multiplexerConsistent; cbn. repeat split; try apply NoDup_nil_2.
  intros s H. by apply elem_of_nil in H.
Qed.

Lemma multiplexerOps_consistent (ops : list MultiplexerOp) :
  forall m, multiplexerConsistent m ->
            multiplexerConsistent (foldl (multiplexerOp udpSocketType) m ops).
Proof.
  induction ops as [|op ops IH]; intros m Hc; [exact Hc|].
  cbn [foldl]. apply IH, multiplexerOp_consistent, Hc.
Qed.

(** X16. The multiplexer leaks no socket and keeps no dead one: after any
    sequence of additions, removals (also those triggered by socket
    errors), sends and destroys, the target ids are distinct and the open
    sockets are exactly the sockets of the targets, one each, in the order
    of the targets. *)
Theorem X16_multiplexer_sockets (ops : list MultiplexerOp) :
  let m := foldl (multiplexerOp udpSocketType) emptyMultiplexer ops in
  NoDup (getTargets m)
  /\ (fst <$> openSockets m) = ((fun kv => targetSocket (snd kv)) <$> targets m)
  /\ length (openSockets m) = length (targets m).
Proof.
  intros m.
  destruct (multiplexerOps_consistent ops _ emptyMultiplexer_consistent)
    as (Hk & _ & Ho & _).
  fold m in Hk, Ho. split; [exact Hk|]. split; [exact Ho|].
  apply (f_equal length) in Ho. rewrite !length_fmap in Ho. exact Ho.
Qed.

(** X17. Adding a target under an id that is in use replaces it: the old
    entry and its socket are gone, the id is listed once, last, with the
    new address, on a socket of its own that is open. *)
Theorem X17_add_target_replaces (ops : list MultiplexerOp) (id ip : string)
    (port : Z) :
  let m := foldl (multiplexerOp udpSocketType) emptyMultiplexer ops in
  let m' := addTarget udpSocketType m id ip port in
  getTargets m' = List.filter (fun k => negb (String.eqb k id)) (getTargets m) ++ [id]
  /\ getTarget m' id
     = Some {| targetIp := ip; targetPort := port;
               targetSocket := nextSocket m |}
  /\ (nextSocket m, udpSocketType ip) ∈ openSockets m'
  /\ (forall t, getTarget m id = Some t ->
        targetSocket t ∉ (fst <$> openSockets m')).
Proof.
  intros m m'.
  pose proof (multiplexerOps_consistent ops _ emptyMultiplexer_consistent) as Hc.
  fold m in Hc.
  pose proof (addTarget_consistent m id ip port Hc) as Hc'. fold m' in Hc'.
  assert (Hnext : nextSocket (removeTarget m id) = nextSocket m)
    by (unfold removeTarget; destruct (getTarget m id); reflexivity).
  assert (Ht' : targets m'
                = List.filter (fun kv => negb (String.eqb (fst kv) id)) (targets m)
                    ++ [(id, {| targetIp := ip; targetPort := port;
                                targetSocket := nextSocket m |})]).
  { unfold m', addTarget. destruct (getTarget m id) eqn:Hg; cbn [targets].
    - rewrite removeTarget_targets, Hnext. reflexivity.
    - rewrite (filter_key_absent _ _ (getTarget_None _ _ Hg)). reflexivity. }
  assert (Ho' : exists l, openSockets m' = l ++ [(nextSocket m, udpSocketType ip)]).
  { unfold m', addTarget. destruct (getTarget m id); cbn [openSockets];
      rewrite ?Hnext; eauto. }
  split; [|split; [|split]].
  - unfold getTargets. rewrite Ht', fmap_app. f_equal.
    apply (fmap_filter_bool fst). reflexivity.
  - unfold getTarget. rewrite Ht'.
    assert (Hfind : forall l,
              (forall kv, kv ∈ l -> negb (String.eqb (fst kv) id) = true) ->
              List.find (fun kv => String.eqb (fst kv) id)
                (l ++ [(id, {| targetIp := ip; targetPort := port;
                               targetSocket := nextSocket m |})])
              = Some (id, {| targetIp := ip; targetPort := port;
                             targetSocket := nextSocket m |})).
    { induction l as [|kv l IH]; intros Hl; cbn.
      - rewrite String.eqb_refl. reflexivity.
      - specialize (Hl kv (list_elem_of_here _ _)) as Hkv.
        apply negb_true_iff in Hkv. rewrite Hkv. apply IH.
        intros kv' Hin. apply Hl. apply elem_of_cons. right. exact Hin. }
    rewrite Hfind; [reflexivity|].
    intros kv Hin. apply elem_of_filter_bool in Hin as [_ H]. exact H.
  - destruct Ho' as [l ->]. apply elem_of_app. right.
    apply list_elem_of_singleton. reflexivity.
  - intros t Hg Hin. apply getTarget_Some in Hg.
    destruct Hc' as (_ & _ & Ho & _). rewrite Ho, Ht', fmap_app in Hin.
    destruct Hc as (Hk & Hs & Hom & Hf).
    apply elem_of_app in Hin as [Hin|Hin].
    + apply list_elem_of_fmap in Hin as ([k t2] & Heq & Hin). cbn in Heq.
      apply elem_of_filter_bool in Hin as [Hin Hne]. cbn in Hne.
      assert ((id, t) = (k, t2))
        by (apply (fmap_inj_on_NoDup (fun kv => targetSocket (snd kv))
                     (targets m) Hs); auto).
      injection H as -> ->. rewrite String.eqb_refl in Hne. discriminate.
    + apply list_elem_of_singleton in Hin. cbn in Hin.
      assert (targetSocket t < nextSocket m)%nat; [|lia].
      apply Hf. rewrite Hom. apply list_elem_of_fmap. exists (id, t). eauto.
Qed.

(** Every call of [sendRtp] counts one packet, keeps the targets and
    their sockets, and hands the packet to the socket of each target once,
    in the order of the targets, for its address, leaving out only the
    sockets whose [send] throws. *)
Lemma sendRtp_spec (m : RtpMultiplexer) (rtp : string) (throws : nat -> bool) :
  let m' := sendRtp m rtp throws in
  packetCount m' = packetCount m + 1
  /\ targets m' = targets m
  /\ openSockets m' = openSockets m
  /\ sent m'
     = sent m
       ++ ((fun kv => {| viaSocket := targetSocket (snd kv);
                         toPort := targetPort (snd kv);
                         toIp := targetIp (snd kv); payload := rtp |})
           <$> List.filter (fun kv => negb (throws (targetSocket (snd kv))))
                           (targets m)).
Proof.
  intros m'. unfold m', sendRtp.
  assert (Hmap : forall l : list (string * Target),
            omap (fun kv =>
                    let target := snd kv in
                    if throws (targetSocket target) then None
                    else Some {| viaSocket := targetSocket target;
                                 toPort := targetPort target;
                                 toIp := targetIp target; payload := rtp |}) l
            = (fun kv => {| viaSocket := targetSocket (snd kv);
                            toPort := targetPort (snd kv);
                            toIp := targetIp (snd kv); payload := rtp |})
              <$> List.filter (fun kv => negb (throws (targetSocket (snd kv)))) l).
  { induction l as [|kv l IH]; [reflexivity|]. cbn [List.filter].
    destruct (throws (targetSocket (snd kv))) eqn:Hth; cbn [negb fmap list_fmap];
      rewrite <- IH; cbn; rewrite Hth; reflexivity. }
  destruct (targets m) as [|kv l] eqn:Ht;
    cbn [packetCount targets openSockets sent].
  - cbn. rewrite app_nil_r. repeat split; reflexivity.
  - rewrite Hmap. repeat split; reflexivity.
Qed.

Lemma removeTarget_packetCount (m : RtpMultiplexer) (id : string) :
  packetCount (removeTarget m id) = packetCount m.
Proof. unfold removeTarget. destruct (getTarget m id); reflexivity. Qed.

Lemma multiplexerOp_packetCount (m : RtpMultiplexer) (op : MultiplexerOp) :
  packetCount (multiplexerOp udpSocketType m op)
  = packetCount m + (if isSendRtp op then 1 else 0).
Proof.
  destruct op; cbn [multiplexerOp isSendRtp].
  - unfold addTarget. destruct (getTarget m id); cbn [packetCount];
      rewrite ?removeTarget_packetCount; lia.
  - rewrite removeTarget_packetCount. lia.
  - apply sendRtp_spec.
  - unfold destroyMultiplexer. generalize (getTargets m). intros ids.
    revert m. induction ids as [|id ids IH]; intros m; cbn [foldl]; [lia|].
    rewrite IH, removeTarget_packetCount. reflexivity.
Qed.

Lemma multiplexerOps_packetCount (ops : list MultiplexerOp) :
  forall m,
    packetCount (foldl (multiplexerOp udpSocketType) m ops)
    = packetCount m + Z.of_nat (length (List.filter isSendRtp ops)).
Proof.
  induction ops as [|op ops IH]; intros m; cbn [foldl List.filter]; [cbn; lia|].
  rewrite IH, multiplexerOp_packetCount. destruct (isSendRtp op); cbn [length]; lia.
Qed.

(** X18. After any history the packet counter is the number of calls of
    [sendRtp] so far, with or without targets; and a call whose sends do
    not throw hands the packet to every open socket exactly once, in
    order, each datagram carrying the packet. *)
Theorem X18_send_rtp_reaches_every_socket (ops : list MultiplexerOp) (rtp : string) :
  let m := foldl (multiplexerOp udpSocketType) emptyMultiplexer ops in
  let m' := sendRtp m rtp (fun _ => false) in
  packetCount m = Z.of_nat (length (List.filter isSendRtp ops))
  /\ exists datagrams,
       sent m' = sent m ++ datagrams
       /\ (viaSocket <$> datagrams) = (fst <$> openSockets m)
       /\ NoDup (viaSocket <$> datagrams)
       /\ (forall g, g ∈ datagrams -> payload g = rtp).
Proof.
  intros m m'. split; [apply (multiplexerOps_packetCount ops emptyMultiplexer)|].
  destruct (multiplexerOps_consistent ops _ emptyMultiplexer_consistent)
    as (_ & Hs & Ho & _). fold m in Hs, Ho.
  destruct (sendRtp_spec m rtp (fun _ => false)) as (_ & _ & _ & Hsent).
  fold m' in Hsent. eexists. split; [exact Hsent|].
  assert (Hall : forall l : list (string * Target),
            List.filter (fun kv : string * Target => negb false) l = l).
  { induction l as [|kv l IH]; [reflexivity|]. cbn. f_equal. exact IH. }
  rewrite Hall, <- list_fmap_compose.
  split; [rewrite Ho; reflexivity|]. split; [exact Hs|].
  intros g Hg. apply list_elem_of_fmap in Hg as (kv & -> & _). reflexivity.
Qed.

(** X19. [destroy] after any history leaves no target and no open
    socket. *)
Theorem X19_destroy_closes_all (ops : list MultiplexerOp) :
  let m := destroyMultiplexer
             (foldl (multiplexerOp udpSocketType) emptyMultiplexer ops) in
  targets m = [] /\ openSockets m = [].
Proof.
  intros m. set (m0 := foldl (multiplexerOp udpSocketType) emptyMultiplexer ops) in *.
  pose proof (multiplexerOps_consistent ops _ emptyMultiplexer_consistent) as Hc.
  fold m0 in Hc.
  pose proof (foldl_removeTarget_consistent (getTargets m0) m0 Hc) as Hc'.
  fold (destroyMultiplexer m0) in Hc'. fold m in Hc'.
  assert (Ht : targets m = []).
  { destruct (targets m) as [|kv l] eqn:Hl; [reflexivity|]. exfalso.
    assert (Hin : kv ∈ targets m) by (rewrite Hl; apply list_elem_of_here).
    apply foldl_removeTarget_targets in Hin as [Hin Hni].
    apply Hni. unfold getTargets. apply list_elem_of_fmap. eauto. }
  split; [exact Ht|].
  destruct Hc' as (_ & _ & Ho & _). rewrite Ht in Ho.
  destruct (openSockets m); [reflexivity|discriminate].
Qed.

End MultiplexerFacts.

(** ** Framing of the alert stream *)

Section SplitFacts.

Variable sep : list ascii.
Hypothesis sep_nonempty : sep <> [].

Lemma startsWith_length (p l : list ascii) :
  startsWith p l = true -> (length p <= length l)%nat.
Proof.
  revert l. induction p as [|a p IH]; intros l H; cbn; [lia|].
  destruct l as [|b l]; [discriminate|]. cbn in *.
  apply andb_true_iff in H as [_ H]. specialize (IH l H). lia.
Qed.

Lemma startsWith_eq (p l : list ascii) :
  startsWith p l = true -> l = p ++ drop (length p) l.
Proof.
  revert l. induction p as [|a p IH]; intros l H; [reflexivity|].
  destruct l as [|b l]; [discriminate|]. cbn in *.
  apply andb_true_iff in H as [Hab H]. apply Ascii.eqb_eq in Hab. subst b.
  f_equal. exact (IH l H).
Qed.

Lemma startsWith_app (p l y : list ascii) :
  startsWith p l = true -> startsWith p (l ++ y) = true.
Proof.
  revert l. induction p as [|a p IH]; intros l H; [reflexivity|].
  destruct l as [|b l]; [discriminate|]. cbn in *.
  apply andb_true_iff in H as [Hab H]. rewrite Hab. exact (IH l H).
Qed.

Lemma startsWith_app_short (p l y : list ascii) :
  startsWith p (l ++ y) = true -> (length p <= length l)%nat ->
  startsWith p l = true.
Proof.
  revert l. induction p as [|a p IH]; intros l H Hlen; [reflexivity|].
  destruct l as [|b l]; [cbn in Hlen; lia|]. cbn in *.
  apply andb_true_iff in H as [Hab H]. rewrite Hab. apply IH; [exact H|lia].
Qed.

Lemma findSep_eq (l before after : list ascii) :
  findSep sep l = Some (before, after) -> l = before ++ sep ++ after.
Proof.
  revert before after. induction l as [|c l IH]; intros before after; cbn [findSep].
  - destruct (startsWith sep []) eqn:Hs; [|discriminate].
    intros [= <- <-]. exact (startsWith_eq _ _ Hs).
  - destruct (startsWith sep (c :: l)) eqn:Hs.
    + intros [= <- <-]. exact (startsWith_eq _ _ Hs).
    + destruct (findSep sep l) as [[b a]|]; [|discriminate].
      intros [= <- <-]. cbn. f_equal. apply IH. reflexivity.
Qed.

Lemma findSep_shorter (l before after : list ascii) :
  findSep sep l = Some (before, after) -> (length after < length l)%nat.
Proof.
  intros H. apply findSep_eq in H. subst l. rewrite !length_app.
  destruct sep; [contradiction|]. cbn. lia.
Qed.

Lemma findSep_app (x y before after : list ascii) :
  findSep sep x = Some (before, after) ->
  findSep sep (x ++ y) = Some (before, after ++ y).
Proof.
  revert before after. induction x as [|c x IH]; intros before after; cbn [findSep].
  - destruct (startsWith sep []) eqn:Hs; [|discriminate].
    destruct sep; [contradiction|discriminate].
  - destruct (startsWith sep (c :: x)) eqn:Hs.
    + intros [= <- <-]. change ((c :: x) ++ y) with (c :: x ++ y) at 1.
      cbn [findSep]. change (c :: x ++ y) with ((c :: x) ++ y).
      rewrite (startsWith_app _ _ y Hs). f_equal. f_equal.
      apply drop_app_le. apply startsWith_length. exact Hs.
    + destruct (findSep sep x) as [[b a]|] eqn:Hf; [|discriminate].
      intros [= <- <-]. cbn [app findSep].
      destruct (startsWith sep (c :: x ++ y)) eqn:Hs'.
      * exfalso. change (c :: x ++ y) with ((c :: x) ++ y) in Hs'.
        apply startsWith_app_short in Hs'; [congruence|].
        apply findSep_eq in Hf. subst x. cbn. rewrite !length_app. lia.
      * rewrite (IH b a eq_refl). reflexivity.
Qed.

Lemma findSep_before (l before after : list ascii) :
  findSep sep l = Some (before, after) -> findSep sep before = None.
Proof.
  revert before after. induction l as [|c l IH]; intros before after; cbn [findSep].
  - destruct (startsWith sep []) eqn:Hs; [|discriminate].
    destruct sep; [contradiction|discriminate].
  - destruct (startsWith sep (c :: l)) eqn:Hs.
    + intros [= <- <-]. cbn. destruct sep; [contradiction|reflexivity].
    + destruct (findSep sep l) as [[b a]|] eqn:Hf; [|discriminate].
      intros [= <- <-]. cbn [findSep].
      destruct (startsWith sep (c :: b)) eqn:Hs'.
      * exfalso. apply findSep_eq in Hf. subst l.
        change (c :: b ++ sep ++ a) with ((c :: b) ++ sep ++ a) in Hs.
        rewrite (startsWith_app _ _ _ Hs') in Hs. discriminate.
      * rewrite (IH b a eq_refl). reflexivity.
Qed.

Lemma splitFuel_enough (f1 : nat) :
  forall f2 l, (length l <= f1)%nat -> (length l <= f2)%nat ->
               splitFuel sep f1 l = splitFuel sep f2 l.
Proof.
  induction f1 as [|f1 IH]; intros f2 l H1 H2.
  - destruct l; [|cbn in H1; lia]. destruct f2; cbn; [reflexivity|].
    destruct (startsWith sep []) eqn:Hs; [|reflexivity].
    destruct sep; [contradiction|discriminate].
  - destruct f2 as [|f2].
    + destruct l; [|cbn in H2; lia]. cbn.
      destruct (startsWith sep []) eqn:Hs; [|reflexivity].
      destruct sep; [contradiction|discriminate].
    + cbn [splitFuel]. destruct (findSep sep l) as [[b a]|] eqn:Hf; [|reflexivity].
      f_equal. pose proof (findSep_shorter _ _ _ Hf). apply IH; lia.
Qed.

Lemma split_unfold (l : list ascii) :
  split sep l = match findSep sep l with
                | Some (before, after) => before :: split sep after
                | None => [l]
                end.
Proof.
  unfold split. destruct l as [|c l].
  - cbn. destruct (startsWith sep []) eqn:Hs; [|reflexivity].
    destruct sep; [contradiction|discriminate].
  - cbn [length splitFuel].
    destruct (findSep sep (c :: l)) as [[b a]|] eqn:Hf; [|reflexivity].
    f_equal. pose proof (findSep_shorter _ _ _ Hf) as Hlt. cbn in Hlt.
    apply splitFuel_enough; lia.
Qed.

Lemma split_last (l : list ascii) :
  exists ps r, split sep l = ps ++ [r] /\ findSep sep r = None.
Proof.
  remember (length l) as n eqn:Hn. revert l Hn.
  induction n as [n IH] using lt_wf_ind. intros l ->.
  rewrite split_unfold. destruct (findSep sep l) as [[b a]|] eqn:Hf.
  - destruct (IH (length a) (findSep_shorter _ _ _ Hf) a eq_refl)
      as (ps & r & Hps & Hr).
    exists (b :: ps), r. rewrite Hps. split; [reflexivity|exact Hr].
  - exists [], l. split; [reflexivity|exact Hf].
Qed.

(** Splitting a text that grows at its end: the parts found so far stay,
    and the rest is the split of the last of them with the new text. *)
Lemma split_app (ps : list (list ascii)) :
  forall x r y, split sep x = ps ++ [r] ->
                split sep (x ++ y) = ps ++ split sep (r ++ y).
Proof.
  induction ps as [|p ps IH]; intros x r y Hx; rewrite split_unfold in Hx.
  - destruct (findSep sep x) as [[b a]|] eqn:Hf.
    + destruct (split_last a) as (ps' & r' & Hps' & _). rewrite Hps' in Hx.
      cbn in Hx. injection Hx as _ Hx. destruct ps'; discriminate.
    + injection Hx as <-. reflexivity.
  - destruct (findSep sep x) as [[b a]|] eqn:Hf.
    + cbn in Hx. injection Hx as -> Ha.
      rewrite split_unfold, (findSep_app _ y _ _ Hf). cbn. f_equal.
      exact (IH a r y Ha).
    + cbn in Hx. injection Hx as _ Hx. destruct ps; discriminate.
Qed.

Lemma split_parts_clean (l p : list ascii) :
  p ∈ split sep l -> findSep sep p = None.
Proof.
  remember (length l) as n eqn:Hn. revert l Hn.
  induction n as [n IH] using lt_wf_ind. intros l ->.
  rewrite split_unfold. destruct (findSep sep l) as [[b a]|] eqn:Hf.
  - intros Hin. apply elem_of_cons in Hin as [->|Hin].
    + exact (findSep_before _ _ _ Hf).
    + exact (IH (length a) (findSep_shorter _ _ _ Hf) a eq_refl Hin).
  - intros Hin. apply list_elem_of_singleton in Hin. subst p. exact Hf.
Qed.

Lemma split_join (l : list ascii) :
  forall ps r, split sep l = ps ++ [r] ->
               foldr (fun p acc => p ++ sep ++ acc) r ps = l.
Proof.
  remember (length l) as n eqn:Hn. revert l Hn.
  induction n as [n IH] using lt_wf_ind. intros l ->.
  intros ps r. rewrite split_unfold.
  destruct (findSep sep l) as [[b a]|] eqn:Hf.
  - destruct ps as [|p ps]; cbn.
    + intros [= _ Hs]. destruct (split_last a) as (ps' & r' & Hps' & _).
      rewrite Hps' in Hs. destruct ps'; discriminate.
    + intros [= <- Hs].
      rewrite (IH (length a) (findSep_shorter _ _ _ Hf) a eq_refl ps r Hs).
      symmetry. exact (findSep_eq _ _ _ Hf).
  - destruct ps as [|p ps]; cbn.
    + intros [= <-]. reflexivity.
    + intros [= _ Hs]. destruct ps; discriminate.
Qed.

End SplitFacts.

Lemma MIME_boundary_nonempty : MIME_boundary <> [].
Proof. discriminate. Qed.

Lemma jsonMarker_nonempty : jsonMarker <> [].
Proof. discriminate. Qed.

Lemma frame_spec (buffer chunk : list ascii) (ps : list (list ascii))
    (r : list ascii) :
  split MIME_boundary (buffer ++ chunk) = ps ++ [r] -> frame buffer chunk = (ps, r).
Proof.
  intros H. unfold frame. rewrite H, removelast_last, last_last. reflexivity.
Qed.

(** *** Decoding of chunks *)

Lemma Utf8_start_initial (b : Byte.byte) :
  Utf8.needed (snd (Utf8.start b)) = 0%nat -> snd (Utf8.start b) = Utf8.initial.
Proof.
  unfold Utf8.start.
  repeat match goal with
    | |- context [if ?c then _ else _] => destruct c
    end; cbn; intros H; first [reflexivity | discriminate].
Qed.

Lemma Utf8_next_initial (d : Utf8.Decoder) (b : Byte.byte) :
  Utf8.needed (snd (Utf8.next d b)) = 0%nat -> snd (Utf8.next d b) = Utf8.initial.
Proof.
  unfold Utf8.next. destruct (Utf8.needed d) as [|[|remaining]].
  - apply Utf8_start_initial.
  - destruct (Utf8.within _ _ _); [reflexivity|].
    pose proof (Utf8_start_initial b) as H.
    destruct (Utf8.start b) as [out d']. exact H.
  - destruct (Utf8.within _ _ _); [cbn; discriminate|].
    pose proof (Utf8_start_initial b) as H.
    destruct (Utf8.start b) as [out d']. exact H.
Qed.

Lemma Utf8_decode_initial (buffer : list Byte.byte) :
  forall d,
    (Utf8.needed d = 0%nat -> d = Utf8.initial) ->
    Utf8.needed (snd (Utf8.decode d buffer)) = 0%nat ->
    snd (Utf8.decode d buffer) = Utf8.initial.
Proof.
  induction buffer as [|b rest IH]; intros d Hd; cbn [Utf8.decode snd].
  - exact Hd.
  - pose proof (Utf8_next_initial d b) as Hn.
    destruct (Utf8.next d b) as [out d']. cbn [snd] in Hn.
    specialize (IH d' Hn).
    destruct (Utf8.decode d' rest) as [out' d'']. exact IH.
Qed.

Lemma Utf8_decode_app (chunk1 chunk2 : list Byte.byte) :
  forall d,
    Utf8.decode d (chunk1 ++ chunk2)
    = (fst (Utf8.decode d chunk1)
         ++ fst (Utf8.decode (snd (Utf8.decode d chunk1)) chunk2),
       snd (Utf8.decode (snd (Utf8.decode d chunk1)) chunk2)).
Proof.
  induction chunk1 as [|b chunk1 IH]; intros d; cbn [Utf8.decode app fst snd].
  - destruct (Utf8.decode d chunk2). reflexivity.
  - destruct (Utf8.next d b) as [out d']. rewrite IH.
    destruct (Utf8.decode d' chunk1) as [out1 d1]. cbn [fst snd].
    destruct (Utf8.decode d1 chunk2) as [out2 d2]. cbn [fst snd].
    rewrite app_assoc. reflexivity.
Qed.

(** Decoding two chunks one by one gives the text of the joined chunks
    when the first one does not end inside a character. *)
Lemma Utf8_toString_app (chunk1 chunk2 : list Byte.byte) :
  Utf8.complete chunk1 = true ->
  Utf8.toString (chunk1 ++ chunk2) = Utf8.toString chunk1 ++ Utf8.toString chunk2.
Proof.
  unfold Utf8.complete. intros Hc. apply Nat.eqb_eq in Hc.
  apply Utf8_decode_initial in Hc; [|reflexivity].
  unfold Utf8.toString. rewrite Utf8_decode_app, Hc.
  destruct (Utf8.decode Utf8.initial chunk1) as [out1 d1]. cbn [fst snd] in *. subst d1.
  destruct (Utf8.decode Utf8.initial chunk2) as [out2 d2].
  cbn [fst snd Utf8.flush Utf8.needed Utf8.initial].
  rewrite app_nil_r, app_assoc. reflexivity.
Qed.

(** A character cut in two by the transport: each half decodes to U+FFFD,
    the two bytes together to the character. *)
Example Utf8_cut_character :
  Utf8.toString [Byte.xc3; Byte.xa9] = ascii_of_byte <$> [Byte.xc3; Byte.xa9]
  /\ Utf8.toString [Byte.xc3] ++ Utf8.toString [Byte.xa9]
     = Utf8.replacement ++ Utf8.replacement.
Proof. split; reflexivity. Qed.

Section AlertStreamFacts.

Variable DateParse : string -> Date.
Variable parseEvent : list ascii -> Completion AlertStreamEvent.
Variable toString : list Byte.byte -> list ascii.

(** X20. Two chunks whose decodings, joined, are the decoding of the
    joined chunks, as is the case when the transport cuts the stream
    between two characters: handling one and then the other completes the
    same parts, has the same effects (for one clock reading) and keeps the
    same buffer as handling the two chunks joined; a boundary cut in two
    by the chunking is still found. Each chunk is decoded on its own, so
    nothing is said of a cut inside a character. *)
Theorem X20_chunking_invariant (now : Z) (buffer : list ascii)
    (chunk1 chunk2 : list Byte.byte) :
  toString (chunk1 ++ chunk2) = toString chunk1 ++ toString chunk2 ->
  let '(parts1, buffer1) := frame buffer (toString chunk1) in
  let '(parts2, buffer2) := frame buffer1 (toString chunk2) in
  frame buffer (toString (chunk1 ++ chunk2)) = (parts1 ++ parts2, buffer2)
  /\ onData DateParse parseEvent toString now buffer (chunk1 ++ chunk2)
     = (fst (onData DateParse parseEvent toString now buffer chunk1)
          ++ fst (onData DateParse parseEvent toString now buffer1 chunk2),
        snd (onData DateParse parseEvent toString now buffer1 chunk2)).
Proof.
  intros Hcut.
  destruct (split_last MIME_boundary MIME_boundary_nonempty (buffer ++ toString chunk1))
    as (ps1 & r1 & H1 & _).
  destruct (split_last MIME_boundary MIME_boundary_nonempty (r1 ++ toString chunk2))
    as (ps2 & r2 & H2 & _).
  rewrite (frame_spec _ _ _ _ H1), (frame_spec _ _ _ _ H2).
  assert (H12 : frame buffer (toString (chunk1 ++ chunk2)) = (ps1 ++ ps2, r2)).
  { apply frame_spec. rewrite Hcut, app_assoc.
    rewrite (split_app MIME_boundary MIME_boundary_nonempty ps1 _ r1 _ H1), H2.
    apply app_assoc. }
  split; [exact H12|].
  unfold onData. rewrite H12, (frame_spec _ _ _ _ H1), (frame_spec _ _ _ _ H2).
  cbn [fst snd]. rewrite flat_map_app. reflexivity.
Qed.

End AlertStreamFacts.

Lemma X20_chunking_invariant_witness :
  let chunk1 := list_byte_of_string "Content-Type: application/json {} --MIME_bou" in
  let chunk2 := list_byte_of_string "ndary rest" in
  let parseEvent := fun _ : list ascii =>
    Return {| channelID := None; eventType := None; eventState := None;
              dateTime := None; AccessControllerEvent := None |} in
  Utf8.toString (chunk1 ++ chunk2) = Utf8.toString chunk1 ++ Utf8.toString chunk2
  /\ frame [] (Utf8.toString (chunk1 ++ chunk2))
     = ([chars "Content-Type: application/json {} "], chars " rest")
  /\ onData (IsoDate.parse 0) parseEvent Utf8.toString 0 [] (chunk1 ++ chunk2)
     = (fst (onData (IsoDate.parse 0) parseEvent Utf8.toString 0 [] chunk1)
          ++ fst (onData (IsoDate.parse 0) parseEvent Utf8.toString 0
                    (chars "Content-Type: application/json {} --MIME_bou") chunk2),
        chars " rest").
Proof.
  cbv zeta.
  assert (Hcut : Utf8.toString
                   (list_byte_of_string "Content-Type: application/json {} --MIME_bou"
                      ++ list_byte_of_string "ndary rest")
                 = Utf8.toString
                     (list_byte_of_string "Content-Type: application/json {} --MIME_bou")
                     ++ Utf8.toString (list_byte_of_string "ndary rest"))
    by (vm_compute; reflexivity).
  split; [exact Hcut|].
  exact (X20_chunking_invariant (IsoDate.parse 0)
           (fun _ => Return {| channelID := None; eventType := None; eventState := None;
                               dateTime := None; AccessControllerEvent := None |})
           Utf8.toString 0 []
           (list_byte_of_string "Content-Type: application/json {} --MIME_bou")
           (list_byte_of_string "ndary rest") Hcut).
Defined.

(** X21. Framing loses no text: the completed parts, each followed by the
    boundary, and then the buffer kept, spell the old buffer followed by
    the chunk; and neither a part nor the buffer kept contains a whole
    boundary. *)
Theorem X21_framing_loses_nothing (buffer chunk : list ascii) :
  let '(parts, buffer') := frame buffer chunk in
  foldr (fun p acc => p ++ MIME_boundary ++ acc) buffer' parts = buffer ++ chunk
  /\ findSep MIME_boundary buffer' = None
  /\ (forall p, p ∈ parts -> findSep MIME_boundary p = None).
Proof.
  destruct (split_last MIME_boundary MIME_boundary_nonempty (buffer ++ chunk))
    as (ps & r & H & Hr).
  rewrite (frame_spec _ _ _ _ H).
  split; [exact (split_join MIME_boundary MIME_boundary_nonempty _ ps r H)|].
  split; [exact Hr|].
  intros p Hp.
  apply (split_parts_clean MIME_boundary MIME_boundary_nonempty (buffer ++ chunk)).
  rewrite H. apply elem_of_app. left. exact Hp.
Qed.

Lemma afterFirstBrace_skip (mid rest : list ascii) :
  "{"%char ∉ mid -> afterFirstBrace (mid ++ "{"%char :: rest) = Some rest.
Proof.
  induction mid as [|c mid IH]; intros Hn; cbn.
  - reflexivity.
  - destruct (Ascii.eqb_spec c "{"%char) as [->|Hne].
    + exfalso. apply Hn. apply elem_of_cons. left. reflexivity.
    + apply IH. intros Hin. apply Hn. apply elem_of_cons. right. exact Hin.
Qed.

Lemma upToLastBrace_none (post : list ascii) :
  "}"%char ∉ post -> upToLastBrace post = None.
Proof.
  induction post as [|c post IH]; intros Hn; [reflexivity|]. cbn.
  rewrite IH by (intros Hin; apply Hn; apply elem_of_cons; right; exact Hin).
  destruct (Ascii.eqb_spec c "}"%char) as [->|Hne]; [|reflexivity].
  exfalso. apply Hn. apply elem_of_cons. left. reflexivity.
Qed.

Lemma upToLastBrace_last (body post : list ascii) :
  "}"%char ∉ post ->
  upToLastBrace (body ++ "}"%char :: post) = Some (body ++ ["}"%char]).
Proof.
  intros Hn. induction body as [|c body IH]; cbn.
  - rewrite (upToLastBrace_none post Hn). reflexivity.
  - rewrite IH. reflexivity.
Qed.

(** X22. In a part whose first JSON content-type marker is followed by
    text without ["{"], then an object literal, then text without ["}"],
    the text handed to [JSON.parse] is that object literal, from its
    opening brace to its closing brace. *)
Theorem X22_json_payload_extracted (part pre mid body post : list ascii) :
  findSep jsonMarker part
  = Some (pre, mid ++ "{"%char :: body ++ "}"%char :: post) ->
  "{"%char ∉ mid ->
  "}"%char ∉ post ->
  jsonMatch part = Some ("{"%char :: body ++ ["}"%char]).
Proof.
  intros Hf Hmid Hpost. unfold jsonMatch. rewrite Hf.
  rewrite (afterFirstBrace_skip mid _ Hmid), (upToLastBrace_last body post Hpost).
  reflexivity.
Qed.

Lemma X22_json_payload_extracted_witness :
  jsonMatch (chars "Content-Type: application/json; charset=UTF-8 Content-Length: 9  {[{1},2]}  ")
  = Some (chars "{[{1},2]}").
Proof.
  apply (X22_json_payload_extracted _ [] (chars "; charset=UTF-8 Content-Length: 9  ")
           (chars "[{1},2]") (chars "  ")).
  - reflexivity.
  - intros H. repeat (apply elem_of_cons in H; destruct H as [H|H]; [discriminate|]).
    by apply elem_of_nil in H.
  - intros H. repeat (apply elem_of_cons in H; destruct H as [H|H]; [discriminate|]).
    by apply elem_of_nil in H.
Defined.

(** ** Further properties of the fallback to the cache *)

Section FallbackFacts.

Variable parseDoorParam : string -> Completion (option Z).
Variable MediaStreamOptions : Type.
Variable id : MediaStreamOptions -> string.
Variable stringify : list MediaStreamOptions -> string.
Variable parseChannels : string -> Completion (list MediaStreamOptions).

(** X23. What a successful fetch stores is what a later failed fetch
    finds. After [getDoorOpenDuration] has fetched a non-empty document
    for a door, a call for that door whose request fails returns the same
    duration and leaves fields and store as they are. After
    [getVideoChannels] has fetched a list whose JSON form is not empty and
    reads back as that list, a call whose request fails returns the same
    map. *)
Theorem X23_cache_round_trip (api : Capabilities)
    (loadResponse loadResponse' : Completion DoorCapabilitiesXml)
    (storage : gmap string string) (doorNo xml : string) (e : Error)
    (channels : list MediaStreamOptions) :
  snd (ensureCapabilities api loadResponse) = Return tt ->
  doorOutOfRange (fst (ensureCapabilities api loadResponse)) doorNo = false ->
  truthy xml = true ->
  truthy (stringify channels) = true ->
  parseChannels (stringify channels) = Return channels ->
  (let '(api1, storage1, duration) :=
     getDoorOpenDuration parseDoorParam api loadResponse storage doorNo (Return xml) in
   getDoorOpenDuration parseDoorParam api1 loadResponse' storage1 doorNo (Throw e)
   = (api1, storage1, duration))
  /\ (let '(storage1, map1) :=
        getVideoChannels MediaStreamOptions id stringify parseChannels storage
          (Return channels) in
      getVideoChannels MediaStreamOptions id stringify parseChannels storage1 (Throw e)
      = (storage1, map1)).
Proof.
  intros Hloaded Hrange Hxml Hjson Hparse. split.
  - pose proof (ensureCapabilities_loaded api loadResponse tt Hloaded) as Hl.
    set (a := fst (ensureCapabilities api loadResponse)) in *.
    assert (H1 : getDoorOpenDuration parseDoorParam api loadResponse storage doorNo
                   (Return xml)
                 = (a, <["doorOpenDuration_" +:+ doorNo := xml]> storage,
                    parseDoorParam xml)).
    { unfold getDoorOpenDuration, a in *.
      destruct (ensureCapabilities api loadResponse) as [a' c]. cbn [fst snd] in *.
      subst c. rewrite Hrange. reflexivity. }
    rewrite H1. unfold getDoorOpenDuration.
    rewrite (ensureCapabilities_idem a loadResponse' Hl).
    rewrite Hrange, lookup_insert_eq, Hxml. reflexivity.
  - unfold getVideoChannels. rewrite lookup_insert_eq, Hjson, Hparse. reflexivity.
Qed.

(** X24. A door open-duration lookup touches the store at the key of its
    own door only, and only to record the document of a successful fetch:
    the entries of other doors, and the channel list, stay as they are. *)
Theorem X24_door_cache_isolated (api : Capabilities)
    (loadResponse : Completion DoorCapabilitiesXml)
    (storage : gmap string string) (doorNo : string) (response : Completion string) :
  let '(_, storage', _) :=
    getDoorOpenDuration parseDoorParam api loadResponse storage doorNo response in
  (forall key, key <> "doorOpenDuration_" +:+ doorNo ->
               storage' !! key = storage !! key)
  /\ (storage' = storage
      \/ exists xml, response = Return xml
                     /\ storage' = <["doorOpenDuration_" +:+ doorNo := xml]> storage).
Proof.
  unfold getDoorOpenDuration.
  destruct (ensureCapabilities api loadResponse) as [a [[]|e]]; [|split; auto].
  destruct (doorOutOfRange a doorNo); [split; auto|].
  destruct response as [xml|e].
  - split; [|right; eauto]. intros key Hne. apply lookup_insert_ne. congruence.
  - destruct (storage !! ("doorOpenDuration_" +:+ doorNo)) as [xml|];
      [destruct (truthy xml)|]; split; auto.
Qed.

End FallbackFacts.

Lemma X23_cache_round_trip_witness :
  getDoorOpenDuration (sampleDoorParam 5) loadedCapabilities
    (Throw (RequestError "unused"))
    {["doorOpenDuration_1" := "<DoorParam/>"]} "1" (Throw (RequestError "timeout"))
  = (loadedCapabilities, {["doorOpenDuration_1" := "<DoorParam/>"]}, Return (Some 5)).
Proof.
  exact (proj1 (X23_cache_round_trip (sampleDoorParam 5) string (fun c => c)
                  (fun _ => "[]") (fun _ => Return [])
                  loadedCapabilities (Throw (RequestError "unused"))
                  (Throw (RequestError "unused")) ∅ "1" "<DoorParam/>"
                  (RequestError "timeout") [] eq_refl eq_refl eq_refl eq_refl eq_refl)).
Defined.

(** ** The capability store over any history *)

Lemma call_consistent (w : World) (caller : nat) :
  storeConsistent w -> storeConsistent (loadDoorCapabilities w caller).
Proof.
  intros (H1 & H2 & H3 & H4 & H5 & H6). unfold loadDoorCapabilities.
  pose proof (conj H1 (conj H2 (conj H3 (conj H4 (conj H5 H6))))) as Hall.
  destruct (capabilitiesLoaded (api w)) eqn:Hl;
    [unfold storeConsistent; cbn [api promises requestsSent suspended];
     rewrite ?Hl; exact Hall|].
  destruct (loadCapabilitiesPromise (api w)) as [p|] eqn:Hp;
    [unfold storeConsistent; cbn [api promises requestsSent suspended];
     rewrite ?Hl, ?Hp; exact Hall|].
  clear Hall.
  assert (Hrej : forall i s, promises w !! i = Some s -> exists e, s = Rejected e).
  { intros i s Hs. destruct s as [| |e]; [| |eauto].
    - destruct (H4 i Hs) as [Hc _]. discriminate.
    - specialize (H5 i Hs). congruence. }
  unfold storeConsistent; cbn [api promises requestsSent suspended
                               setLoadCapabilitiesPromise loadCapabilitiesPromise
                               capabilitiesLoaded].
  rewrite length_app, H1, H2. cbn [length option_list].
  split; [lia|]. split; [reflexivity|]. split; [|split; [|split]].
  - intros i s Hs Hlt. apply lookup_app_Some in Hs as [Hs|[Hge Hs]]; [eauto|].
    apply lookup_lt_Some in Hs. cbn in Hs. lia.
  - intros p Hs. apply lookup_app_Some in Hs as [Hs|[Hge Hs]].
    + destruct (Hrej p _ Hs) as [e He]. discriminate.
    + split; [|exact Hl]. apply lookup_lt_Some in Hs. cbn in Hs. f_equal. lia.
  - intros p Hs. apply lookup_app_Some in Hs as [Hs|[Hge Hs]].
    + destruct (Hrej p _ Hs) as [e He]. discriminate.
    + destruct (p - length (promises w))%nat; cbn in Hs; discriminate.
  - intros p [= <-]. lia.
Qed.

Lemma step_consistent (w w' : World) (s : Step) :
  storeConsistent w -> step w s = Some w' -> storeConsistent w'.
Proof.
  intros Hc. destruct s as [caller|p response|p]; cbn [step].
  - intros [= <-]. apply call_consistent. exact Hc.
  - destruct Hc as (H1 & H2 & H3 & H4 & H5 & H6).
    destruct (promises w !! p) as [[| |e]|] eqn:Hp; try discriminate.
    destruct (H4 p Hp) as [Hfield Hl]. specialize (H6 p Hfield).
    pose proof (performCapabilitiesLoad_promise (api w) response) as Hpp.
    pose proof (performCapabilitiesLoad_loaded (api w) response) as Hpl.
    destruct (performCapabilitiesLoad (api w) response) as [a' completion].
    cbn [fst snd] in Hpp, Hpl. intros [= <-].
    unfold storeConsistent; cbn [api promises requestsSent suspended].
    rewrite length_insert, Hpp.
    split; [exact H1|]. split; [exact H2|]. split; [|split; [|split]].
    + intros i s Hs Hlt. rewrite list_lookup_insert_ne in Hs by lia. eauto.
    + intros q Hs. destruct (decide (q = p)) as [->|Hne].
      * rewrite list_lookup_insert_eq in Hs by lia.
        destruct completion; discriminate.
      * rewrite list_lookup_insert_ne in Hs by congruence.
        destruct (H4 q Hs) as [Hq _]. congruence.
    + intros q Hs. destruct (decide (q = p)) as [->|Hne].
      * rewrite list_lookup_insert_eq in Hs by lia.
        destruct completion; [exact Hpl|discriminate].
      * rewrite list_lookup_insert_ne in Hs by congruence.
        specialize (H5 q Hs). congruence.
    + intros q Hq. rewrite Hfield in Hq. injection Hq as <-. exact H6.
  - destruct Hc as (H1 & H2 & H3 & H4 & H5 & H6).
    destruct (promises w !! p) as [st|] eqn:Hp; [|discriminate].
    destruct (isSettled st && bool_decide (p ∈ suspended w)) eqn:Hg; [|discriminate].
    apply andb_true_iff in Hg as [Hset Hin]. apply bool_decide_eq_true in Hin.
    intros [= <-].
    rewrite H2 in Hin.
    destruct (loadCapabilitiesPromise (api w)) as [q|] eqn:Hq;
      [|by apply elem_of_nil in Hin].
    apply list_elem_of_singleton in Hin. subst q.
    unfold storeConsistent; cbn [api promises requestsSent suspended
                                 setLoadCapabilitiesPromise loadCapabilitiesPromise
                                 capabilitiesLoaded].
    split; [exact H1|]. split.
    { rewrite H2. cbn. rewrite Nat.eqb_refl. reflexivity. }
    split; [exact H3|]. split; [|split; [exact H5|discriminate]].
    intros q Hs. destruct (H4 q Hs) as [Hf _]. injection Hf as <-.
    rewrite Hp in Hs. injection Hs as ->. discriminate.
Qed.

Lemma run_consistent (steps : list Step) :
  forall w w', storeConsistent w -> run w steps = Some w' -> storeConsistent w'.
Proof.
  induction steps as [|s steps IH]; intros w w' Hc; cbn [run].
  - intros [= <-]. exact Hc.
  - destruct (step w s) as [w1|] eqn:Hs; [|discriminate].
    apply IH. exact (step_consistent _ _ _ Hc Hs).
Qed.

Lemma initialWorld_consistent : storeConsistent initialWorld.
Proof.
  unfold storeConsistent; cbn. repeat split; try discriminate;
    intros ? ?; rewrite ?lookup_nil; discriminate.
Qed.

(** X25. Over any history of calls, responses and resumptions, a
    capability request is sent only when the one before it has failed:
    every promise but the last one was rejected, there is one request per
    promise, and no load is pending once the capabilities are loaded. *)
Theorem X25_requests_follow_failures (steps : list Step) (w : World) :
  run initialWorld steps = Some w ->
  requestsSent w = length (promises w)
  /\ (forall i s, promises w !! i = Some s -> (S i < length (promises w))%nat ->
        exists e, s = Rejected e)
  /\ (capabilitiesLoaded (api w) = true ->
      forall p, promises w !! p <> Some Pending).
Proof.
  intros Hrun.
  destruct (run_consistent steps _ _ initialWorld_consistent Hrun)
    as (H1 & _ & H3 & H4 & _ & _).
  split; [exact H1|]. split; [exact H3|].
  intros Hl p Hp. destruct (H4 p Hp) as [_ Hf]. congruence.
Qed.

Lemma step_frozen (w w' : World) (s : Step) :
  storeConsistent w -> capabilitiesLoaded (api w) = true -> step w s = Some w' ->
  capabilitiesLoaded (api w') = true
  /\ served (api w') = served (api w)
  /\ requestsSent w' = requestsSent w.
Proof.
  intros (H1 & H2 & H3 & H4 & H5 & H6) Hl. destruct s as [caller|p response|p];
    cbn [step].
  - intros [= <-]. unfold loadDoorCapabilities. rewrite Hl. auto.
  - destruct (promises w !! p) as [[| |e]|] eqn:Hp; try discriminate.
    destruct (H4 p Hp) as [_ Hf]. congruence.
  - destruct (promises w !! p) as [st|]; [|discriminate].
    destruct (isSettled st && bool_decide (p ∈ suspended w)); [|discriminate].
    intros [= <-]. auto.
Qed.

(** X26. Capabilities that have loaded are served for good: from a world
    reached by any history in which they are loaded, no further history
    sends a request or changes the door range or the commands. *)
Theorem X26_loaded_capabilities_frozen (before after : list Step) (w w' : World) :
  run initialWorld before = Some w ->
  capabilitiesLoaded (api w) = true ->
  run w after = Some w' ->
  capabilitiesLoaded (api w') = true
  /\ served (api w') = served (api w)
  /\ requestsSent w' = requestsSent w.
Proof.
  intros Hrun. pose proof (run_consistent before _ _ initialWorld_consistent Hrun) as Hc.
  clear Hrun. revert w Hc. induction after as [|s after IH]; intros w Hc Hl; cbn [run].
  - intros [= <-]. repeat split; assumption.
  - destruct (step w s) as [w1|] eqn:Hs; [|discriminate]. intros Hrest.
    destruct (step_frozen _ _ _ Hc Hl Hs) as (Hl1 & Hv1 & Hr1).
    destruct (IH w1 (step_consistent _ _ _ Hc Hs) Hl1 Hrest) as (Hl' & Hv' & Hr').
    repeat split; congruence.
Qed.

Lemma X25_requests_follow_failures_witness :
  exists w,
    run initialWorld
      [Call 1; Call 2; Respond 0 (Throw (RequestError "timeout")); Resume 0; Call 3]
    = Some w
    /\ requestsSent w = 2%nat
    /\ promises w !! 0%nat = Some (Rejected (RequestError "timeout")).
Proof.
  eexists. split; [reflexivity|].
  destruct (X25_requests_follow_failures
              [Call 1; Call 2; Respond 0 (Throw (RequestError "timeout")); Resume 0;
               Call 3] _ eq_refl) as (Hreq & Hrej & _).
  split; [exact Hreq|]. reflexivity.
Defined.

Lemma X26_loaded_capabilities_frozen_witness :
  exists w w',
    run initialWorld [Call 1; Respond 0 (Return bareCapabilitiesXml); Resume 0] = Some w
    /\ run w [Call 2; Call 3] = Some w'
    /\ capabilitiesLoaded (api w') = true
    /\ served (api w') = served (api w)
    /\ requestsSent w' = requestsSent w.
Proof.
  eexists. eexists. split; [reflexivity|]. split; [reflexivity|].
  exact (X26_loaded_capabilities_frozen
           [Call 1; Respond 0 (Return bareCapabilitiesXml); Resume 0]
           [Call 2; Call 3] _ _ eq_refl eq_refl eq_refl).
Defined.

(** ** Shared clients *)

Lemma append_hash_inj (s1 s2 r1 r2 : string) :
  hashFree s1 = true -> hashFree s2 = true ->
  s1 +:+ "#" +:+ r1 = s2 +:+ "#" +:+ r2 -> s1 = s2 /\ r1 = r2.
Proof.
  assert (Hnil : forall r, "" +:+ r = r) by reflexivity.
  assert (Hcons : forall c s r, String c s +:+ r = String c (s +:+ r)) by reflexivity.
  revert s2. induction s1 as [|c s1 IH]; intros [|c2 s2] H1 H2 Heq; cbn in H1, H2;
    repeat (rewrite Hnil in Heq || rewrite Hcons in Heq).
  - injection Heq as ->. split; reflexivity.
  - injection Heq as <- _. apply andb_true_iff in H2 as [H2 _]. discriminate.
  - injection Heq as -> _. apply andb_true_iff in H1 as [H1 _]. discriminate.
  - injection Heq as -> Heq.
    apply andb_true_iff in H1 as [_ H1]. apply andb_true_iff in H2 as [_ H2].
    destruct (IH s2 H1 H2 Heq) as [-> ->]. split; reflexivity.
Qed.

Lemma clientKey_inj (i1 i2 : Identity) :
  hashFree (identityIp i1) = true -> hashFree (identityPort i1) = true ->
  hashFree (identityUsername i1) = true ->
  hashFree (identityIp i2) = true -> hashFree (identityPort i2) = true ->
  hashFree (identityUsername i2) = true ->
  clientKey i1 = clientKey i2 -> i1 = i2.
Proof.
  intros Ha1 Hb1 Hc1 Ha2 Hb2 Hc2 Hk. unfold clientKey in Hk.
  destruct i1 as [a1 b1 c1 d1], i2 as [a2 b2 c2 d2]; cbn in *.
  apply append_hash_inj in Hk as [-> Hk]; [|assumption..].
  apply append_hash_inj in Hk as [-> Hk]; [|assumption..].
  apply append_hash_inj in Hk as [-> ->]; [|assumption..].
  reflexivity.
Qed.

Lemma createSharedClient_consistent (prov : Provider) (i : Identity) :
  providerConsistent prov -> providerConsistent (fst (createSharedClient prov i)).
Proof.
  intros [Hinj Hlt]. unfold createSharedClient.
  destruct (clients prov !! clientKey i) as [c|] eqn:Hk; [split; assumption|].
  cbn [fst]. split; cbn [clients constructed].
  - intros k1 k2 c H1 H2.
    rewrite lookup_insert in H1. rewrite lookup_insert in H2.
    repeat case_decide; simplify_eq; try reflexivity;
      try (exfalso;
           match goal with
           | H : clients prov !! _ = Some (length _) |- _ =>
               specialize (Hlt _ _ H); lia
           end).
    exact (Hinj _ _ _ H1 H2).
  - intros k c H. rewrite length_app. cbn. rewrite lookup_insert in H.
    case_decide; simplify_eq; [lia|]. specialize (Hlt _ _ H). lia.
Qed.

Lemma createSharedClients_consistent (history : list Identity) :
  forall prov, providerConsistent prov ->
    providerConsistent (foldl (fun p i => fst (createSharedClient p i)) prov history).
Proof.
  induction history as [|i history IH]; intros prov Hc; [exact Hc|].
  cbn [foldl]. apply IH, createSharedClient_consistent, Hc.
Qed.

(** X27. Clients are shared by connection identity. After any history of
    calls, two calls with identities whose address, port and user name
    contain no ["#"] return the same client exactly when the identities are
    equal; and a call with an identity that already has a client
    constructs nothing. *)
Theorem X27_shared_client_by_identity (history : list Identity) (i1 i2 : Identity) :
  hashFree (identityIp i1) = true -> hashFree (identityPort i1) = true ->
  hashFree (identityUsername i1) = true ->
  hashFree (identityIp i2) = true -> hashFree (identityPort i2) = true ->
  hashFree (identityUsername i2) = true ->
  let prov := foldl (fun p i => fst (createSharedClient p i)) emptyProvider history in
  let '(prov1, client1) := createSharedClient prov i1 in
  let '(prov2, client2) := createSharedClient prov1 i2 in
  (client1 = client2 <-> i1 = i2)
  /\ createSharedClient prov2 i1 = (prov2, client1)
  /\ createSharedClient prov2 i2 = (prov2, client2).
Proof.
  intros Ha1 Hb1 Hc1 Ha2 Hb2 Hc2 prov.
  assert (Hc : providerConsistent prov).
  { apply createSharedClients_consistent.
    split; cbn; intros * H; rewrite lookup_empty in H; discriminate. }
  pose proof (createSharedClient_consistent prov i1 Hc) as Hc1'.
  assert (Hl1 : clients (fst (createSharedClient prov i1)) !! clientKey i1
                = Some (snd (createSharedClient prov i1))).
  { unfold createSharedClient.
    destruct (clients prov !! clientKey i1) eqn:Hk; cbn; [exact Hk|].
    apply lookup_insert_eq. }
  destruct (createSharedClient prov i1) as [prov1 client1]. cbn [fst snd] in *.
  pose proof (createSharedClient_consistent prov1 i2 Hc1') as Hc2'.
  assert (Hl2 : clients (fst (createSharedClient prov1 i2)) !! clientKey i2
                = Some (snd (createSharedClient prov1 i2))
                /\ clients (fst (createSharedClient prov1 i2)) !! clientKey i1
                   = Some client1).
  { unfold createSharedClient.
    destruct (clients prov1 !! clientKey i2) eqn:Hk; cbn; [split; assumption|].
    split; [apply lookup_insert_eq|].
    rewrite lookup_insert_ne; [exact Hl1|]. intros Heq. congruence. }
  destruct (createSharedClient prov1 i2) as [prov2 client2]. cbn [fst snd] in *.
  destruct Hl2 as [Hl2 Hl1']. split; [|split].
  - split.
    + intros <-. apply clientKey_inj; try assumption.
      destruct Hc2' as [Hinj _]. exact (Hinj _ _ _ Hl1' Hl2).
    + intros <-. congruence.
  - unfold createSharedClient. rewrite Hl1'. reflexivity.
  - unfold createSharedClient. rewrite Hl2. reflexivity.
Qed.

Lemma X27_shared_client_by_identity_witness :
  let admin := {| identityIp := "192.0.2.1"; identityPort := "80";
                  identityUsername := "admin"; identityPassword := "a#b" |} in
  let guest := {| identityIp := "192.0.2.1"; identityPort := "80";
                  identityUsername := "guest"; identityPassword := "a#b" |} in
  let '(prov1, client1) := createSharedClient emptyProvider admin in
  let '(prov2, client2) := createSharedClient prov1 guest in
  (client1 = client2 <-> admin = guest)
  /\ createSharedClient prov2 admin = (prov2, client1)
  /\ createSharedClient prov2 guest = (prov2, client2).
Proof.
  exact (X27_shared_client_by_identity []
           {| identityIp := "192.0.2.1"; identityPort := "80";
              identityUsername := "admin"; identityPassword := "a#b" |}
           {| identityIp := "192.0.2.1"; identityPort := "80";
              identityUsername := "guest"; identityPassword := "a#b" |}
           eq_refl eq_refl eq_refl eq_refl eq_refl eq_refl).
Defined.
